(** * TicTacToe-AI: the board model, minimax with alpha-beta pruning and
      Monte Carlo tree search of [TicTacToe.cpp], embedded in Rocq.

    The C++ program keeps a [char board[3][3]], searches it in place with
    [minimax], and builds a pointer tree of [MCTSNode]s in [runMCTS].  The
    embedding keeps that shape: a board is a 3x3 grid of characters read and
    written by integer indices, [int] is [Z], the in-place search passes the
    board through every call, the node tree is an arena addressed by node
    pointers, and every [while] loop becomes a recursion on a step budget
    whose sufficiency is proved separately.

    The second source file of the repository has the same [minimax],
    [minimaxMove], [backpropagate], rollout and final selection; its
    [checkWinner] orders the comparisons differently ([checkWinner']
    below, proved equal), and its [MCTSNode] constructor does not shuffle
    the untried moves, which is the random source whose [random_shuffle]
    is the identity.  The loop of [runMCTS] is the one of [TicTacToe.cpp]. *)

From Stdlib Require Import ZArith List Bool Ascii Lia.
From stdpp Require Import base option list.
Import ListNotations.

Local Open Scope Z_scope.

(** ** Constants *)

Definition PLAYER : ascii := "X"%char.
Definition COMPUTER : ascii := "O"%char.
Definition BOARD_SIZE : Z := 3.
Definition INT_MIN : Z := -2147483648.
Definition INT_MAX : Z := 2147483647.

(** The character that stands for an empty cell, and the draw verdict of
    [checkWinner]. *)
Definition EMPTY : ascii := " "%char.
Definition DRAW : ascii := "D"%char.

(** ** The board: [char b[BOARD_SIZE][BOARD_SIZE]] *)

Record Row : Type := mkRow { col0 : ascii; col1 : ascii; col2 : ascii }.
Record Board : Type := mkBoard { row0 : Row; row1 : Row; row2 : Row }.

(** A move is [pair<int,int>]; [(-1,-1)] is the "no move" sentinel. *)
Abbreviation Move := (Z * Z)%type.
Definition NO_MOVE : Move := (-1, -1).

(** The NUL character answers reads outside the array, which the program
    never performs; it is different from every mark and from [EMPTY]. *)
Definition NUL : ascii := "000"%char.

Definition rowGet (r : Row) (j : Z) : ascii :=
  match j with
  | 0 => col0 r
  | 1 => col1 r
  | 2 => col2 r
  | _ => NUL
  end.

Definition rowSet (r : Row) (j : Z) (c : ascii) : Row :=
  match j with
  | 0 => mkRow c (col1 r) (col2 r)
  | 1 => mkRow (col0 r) c (col2 r)
  | 2 => mkRow (col0 r) (col1 r) c
  | _ => r
  end.

(** [b[i][j]] *)
Definition get (b : Board) (i j : Z) : ascii :=
  match i with
  | 0 => rowGet (row0 b) j
  | 1 => rowGet (row1 b) j
  | 2 => rowGet (row2 b) j
  | _ => NUL
  end.

(** [b[i][j] = c] *)
Definition set (b : Board) (i j : Z) (c : ascii) : Board :=
  match i with
  | 0 => mkBoard (rowSet (row0 b) j c) (row1 b) (row2 b)
  | 1 => mkBoard (row0 b) (rowSet (row1 b) j c) (row2 b)
  | 2 => mkBoard (row0 b) (row1 b) (rowSet (row2 b) j c)
  | _ => b
  end.

Definition emptyRow : Row := mkRow EMPTY EMPTY EMPTY.
(** [resetBoard] and the initial value of the global [board]. *)
Definition emptyBoard : Board := mkBoard emptyRow emptyRow emptyRow.

(** The index range of [for (int i = 0; i < BOARD_SIZE; ++i)]. *)
Definition indices : list Z := [0; 1; 2].

(** The cells in the order of the nested loops
    [for i ... for j ...] (row-major). *)
Definition allCells : list Move :=
  flat_map (fun i => map (fun j => (i, j)) indices) indices.

Definition isEmptyAt (b : Board) (m : Move) : bool :=
  Ascii.eqb (get b (fst m) (snd m)) EMPTY.

(** The vector filled by [push_back(make_pair(i, j))] for every empty cell
    (the [MCTSNode] constructor, [simulateGame], [getRandomComputerMove]). *)
Definition freeCells (b : Board) : list Move := List.filter (isEmptyAt b) allCells.

(** [checkFreeSpaces] / [countFreeSpaces]: the counter incremented once per
    empty cell. *)
Definition countFreeSpaces (b : Board) : Z :=
  fold_left (fun n m => if isEmptyAt b m then n + 1 else n) allCells 0.

(** ** checkWinner *)

(** The test of one row in [TicTacToe.cpp]:
    [b[i][0] == b[i][1] && b[i][0] == b[i][2] && b[i][0] != ' ']. *)
Definition rowWins (b : Board) (i : Z) : bool :=
  Ascii.eqb (get b i 0) (get b i 1) && Ascii.eqb (get b i 0) (get b i 2)
  && negb (Ascii.eqb (get b i 0) EMPTY).

Definition colWins (b : Board) (i : Z) : bool :=
  Ascii.eqb (get b 0 i) (get b 1 i) && Ascii.eqb (get b 0 i) (get b 2 i)
  && negb (Ascii.eqb (get b 0 i) EMPTY).

Definition diagWins (b : Board) : bool :=
  Ascii.eqb (get b 0 0) (get b 1 1) && Ascii.eqb (get b 0 0) (get b 2 2)
  && negb (Ascii.eqb (get b 0 0) EMPTY).

Definition antiDiagWins (b : Board) : bool :=
  Ascii.eqb (get b 0 2) (get b 1 1) && Ascii.eqb (get b 0 2) (get b 2 0)
  && negb (Ascii.eqb (get b 0 2) EMPTY).

(** A [for] loop whose body returns at the first index passing the test is
    [find] over the index range. *)
Definition checkWinner (b : Board) : ascii :=
  match find (rowWins b) indices with
  | Some i => get b i 0
  | None =>
    match find (colWins b) indices with
    | Some i => get b 0 i
    | None =>
      if diagWins b then get b 0 0
      else if antiDiagWins b then get b 0 2
      else if Z.eqb (countFreeSpaces b) 0 then DRAW
      else EMPTY
    end
  end.

(** The same function as the second source file writes it: the emptiness
    test comes first and the third cell is compared with the second. *)
Definition rowWins' (b : Board) (i : Z) : bool :=
  negb (Ascii.eqb (get b i 0) EMPTY)
  && Ascii.eqb (get b i 0) (get b i 1) && Ascii.eqb (get b i 1) (get b i 2).

Definition colWins' (b : Board) (j : Z) : bool :=
  negb (Ascii.eqb (get b 0 j) EMPTY)
  && Ascii.eqb (get b 0 j) (get b 1 j) && Ascii.eqb (get b 1 j) (get b 2 j).

Definition checkWinner' (b : Board) : ascii :=
  match find (rowWins' b) indices with
  | Some i => get b i 0
  | None =>
    match find (colWins' b) indices with
    | Some j => get b 0 j
    | None =>
      if negb (Ascii.eqb (get b 0 0) EMPTY)
         && Ascii.eqb (get b 0 0) (get b 1 1) && Ascii.eqb (get b 1 1) (get b 2 2)
      then get b 0 0
      else if negb (Ascii.eqb (get b 0 2) EMPTY)
              && Ascii.eqb (get b 0 2) (get b 1 1) && Ascii.eqb (get b 1 1) (get b 2 0)
      then get b 0 2
      else if Z.eqb (countFreeSpaces b) 0 then DRAW
      else EMPTY
    end
  end.

(** ** Minimax with alpha-beta pruning *)

(** What a search returns: its score and the board as the search leaves it
    ([currentBoard] is modified in place); [None] when the step budget of
    the recursion runs out. *)
Definition SearchResult : Type := option (Z * Board).

(** The type of [minimax] once its step budget is fixed:
    [currentBoard], [depth], [isMaximizing], [alpha], [beta]. *)
Definition Search : Type := Board -> Z -> bool -> Z -> Z -> SearchResult.

(** The two nested [for] loops of the maximizing branch, over the cells
    still to scan.  [rec] is the recursive call of [minimax]; the body
    writes [COMPUTER] into an empty cell, searches, restores the cell, and
    returns from the whole function as soon as [beta <= alpha]. *)
Fixpoint maxLoop (rec : Search) (cells : list Move) (currentBoard : Board)
    (depth bestScore alpha beta : Z) : SearchResult :=
  match cells with
  | [] => Some (bestScore, currentBoard)
  | (i, j) :: rest =>
    if Ascii.eqb (get currentBoard i j) EMPTY then
      match rec (set currentBoard i j COMPUTER) (depth + 1) false alpha beta with
      | None => None
      | Some (score, b1) =>
        let b2 := set b1 i j EMPTY in
        let bestScore := Z.max bestScore score in
        let alpha := Z.max alpha score in
        if beta <=? alpha then Some (bestScore, b2)
        else maxLoop rec rest b2 depth bestScore alpha beta
      end
    else maxLoop rec rest currentBoard depth bestScore alpha beta
  end.

(** The minimizing branch: [PLAYER] is placed, [beta] is lowered. *)
Fixpoint minLoop (rec : Search) (cells : list Move) (currentBoard : Board)
    (depth bestScore alpha beta : Z) : SearchResult :=
  match cells with
  | [] => Some (bestScore, currentBoard)
  | (i, j) :: rest =>
    if Ascii.eqb (get currentBoard i j) EMPTY then
      match rec (set currentBoard i j PLAYER) (depth + 1) true alpha beta with
      | None => None
      | Some (score, b1) =>
        let b2 := set b1 i j EMPTY in
        let bestScore := Z.min bestScore score in
        let beta := Z.min beta score in
        if beta <=? alpha then Some (bestScore, b2)
        else minLoop rec rest b2 depth bestScore alpha beta
      end
    else minLoop rec rest currentBoard depth bestScore alpha beta
  end.

(** [int minimax(char currentBoard[3][3], int depth, bool isMaximizing,
    int alpha, int beta)]. *)
Fixpoint minimax (fuel : nat) (currentBoard : Board) (depth : Z)
    (isMaximizing : bool) (alpha beta : Z) : SearchResult :=
  match fuel with
  | O => None
  | S fuel' =>
    let winner := checkWinner currentBoard in
    if Ascii.eqb winner COMPUTER then Some (10, currentBoard)
    else if Ascii.eqb winner PLAYER then Some (-10, currentBoard)
    else if Ascii.eqb winner DRAW then Some (0, currentBoard)
    else if isMaximizing then
      maxLoop (minimax fuel') allCells currentBoard depth INT_MIN alpha beta
    else
      minLoop (minimax fuel') allCells currentBoard depth INT_MAX alpha beta
  end.

(** *** Plain minimax: the same search with the two
    [if (beta <= alpha) return bestScore;] statements removed *)

Fixpoint maxLoopPlain (rec : Search) (cells : list Move) (currentBoard : Board)
    (depth bestScore alpha beta : Z) : SearchResult :=
  match cells with
  | [] => Some (bestScore, currentBoard)
  | (i, j) :: rest =>
    if Ascii.eqb (get currentBoard i j) EMPTY then
      match rec (set currentBoard i j COMPUTER) (depth + 1) false alpha beta with
      | None => None
      | Some (score, b1) =>
        let b2 := set b1 i j EMPTY in
        let bestScore := Z.max bestScore score in
        let alpha := Z.max alpha score in
        maxLoopPlain rec rest b2 depth bestScore alpha beta
      end
    else maxLoopPlain rec rest currentBoard depth bestScore alpha beta
  end.

Fixpoint minLoopPlain (rec : Search) (cells : list Move) (currentBoard : Board)
    (depth bestScore alpha beta : Z) : SearchResult :=
  match cells with
  | [] => Some (bestScore, currentBoard)
  | (i, j) :: rest =>
    if Ascii.eqb (get currentBoard i j) EMPTY then
      match rec (set currentBoard i j PLAYER) (depth + 1) true alpha beta with
      | None => None
      | Some (score, b1) =>
        let b2 := set b1 i j EMPTY in
        let bestScore := Z.min bestScore score in
        let beta := Z.min beta score in
        minLoopPlain rec rest b2 depth bestScore alpha beta
      end
    else minLoopPlain rec rest currentBoard depth bestScore alpha beta
  end.

Fixpoint minimaxPlain (fuel : nat) (currentBoard : Board) (depth : Z)
    (isMaximizing : bool) (alpha beta : Z) : SearchResult :=
  match fuel with
  | O => None
  | S fuel' =>
    let winner := checkWinner currentBoard in
    if Ascii.eqb winner COMPUTER then Some (10, currentBoard)
    else if Ascii.eqb winner PLAYER then Some (-10, currentBoard)
    else if Ascii.eqb winner DRAW then Some (0, currentBoard)
    else if isMaximizing then
      maxLoopPlain (minimaxPlain fuel') allCells currentBoard depth INT_MIN alpha beta
    else
      minLoopPlain (minimaxPlain fuel') allCells currentBoard depth INT_MAX alpha beta
  end.

(** *** The driver [minimaxMove] *)

(** The scan of [minimaxMove] over the global [board]: every empty cell is
    tried with [COMPUTER], scored by a full-window search with the opponent
    to move, and restored; a strictly better score replaces the best move. *)
Fixpoint driverLoop (search : Search) (cells : list Move) (board : Board)
    (bestScore : Z) (bestMove : Move) : option (Z * Move * Board) :=
  match cells with
  | [] => Some (bestScore, bestMove, board)
  | (i, j) :: rest =>
    if Ascii.eqb (get board i j) EMPTY then
      match search (set board i j COMPUTER) 0 false INT_MIN INT_MAX with
      | None => None
      | Some (score, b1) =>
        let b2 := set b1 i j EMPTY in
        if score >? bestScore then driverLoop search rest b2 score (i, j)
        else driverLoop search rest b2 bestScore bestMove
      end
    else driverLoop search rest board bestScore bestMove
  end.

(** The best score, the chosen move and the board at the end of the scan. *)
Definition driverChoice (search : Search) (board : Board) : option (Z * Move * Board) :=
  driverLoop search allCells board INT_MIN NO_MOVE.

(** The whole of [minimaxMove] for a given search: the chosen move is
    played on the board and appended to [computerMoves], unless it is the
    sentinel. *)
Definition minimaxMoveWith (search : Search) (board : Board) (computerMoves : list Move)
    : option (Board * list Move) :=
  match driverChoice search board with
  | None => None
  | Some (_, bestMove, b) =>
    if negb (fst bestMove =? -1)
    then Some (set b (fst bestMove) (snd bestMove) COMPUTER, computerMoves ++ [bestMove])
    else Some (b, computerMoves)
  end.

Definition minimaxMove (fuel : nat) : Board -> list Move -> option (Board * list Move) :=
  minimaxMoveWith (minimax fuel).

(** ** The game as the spec describes it *)

Definition otherPlayer (p : ascii) : ascii :=
  if Ascii.eqb p PLAYER then COMPUTER else PLAYER.

(** The eight lines of the grid. *)
Definition lines : list (Move * Move * Move) :=
  [ ((0,0),(0,1),(0,2)); ((1,0),(1,1),(1,2)); ((2,0),(2,1),(2,2));
    ((0,0),(1,0),(2,0)); ((0,1),(1,1),(2,1)); ((0,2),(1,2),(2,2));
    ((0,0),(1,1),(2,2)); ((0,2),(1,1),(2,0)) ].

Definition at_ (b : Board) (m : Move) : ascii := get b (fst m) (snd m).

(** Side [s] holds the three cells of the line. *)
Definition lineOf (b : Board) (s : ascii) (l : Move * Move * Move) : bool :=
  let '(p, q, r) := l in
  Ascii.eqb (at_ b p) s && Ascii.eqb (at_ b q) s && Ascii.eqb (at_ b r) s.

(** Side [s] has three in a row on some line. *)
Definition hasLine (b : Board) (s : ascii) : bool := existsb (lineOf b s) lines.

(** Some line carries three identical non-empty marks. *)
Definition fullLine (b : Board) (l : Move * Move * Move) : bool :=
  let '(p, q, r) := l in
  Ascii.eqb (at_ b p) (at_ b q) && Ascii.eqb (at_ b p) (at_ b r)
  && negb (Ascii.eqb (at_ b p) EMPTY).

(** The first line, in the order rows, columns, diagonal, anti-diagonal,
    that carries three identical non-empty marks. *)
Definition firstLine (b : Board) : option (Move * Move * Move) :=
  find (fullLine b) lines.

(** Every cell holds one of the three cell states. *)
Definition isCell (c : ascii) : bool :=
  Ascii.eqb c EMPTY || Ascii.eqb c PLAYER || Ascii.eqb c COMPUTER.

Definition validBoard (b : Board) : bool :=
  forallb (fun m => isCell (at_ b m)) allCells.

(** Boards of actual play ([main]): the board starts empty, [PLAYER]
    moves first, a turn is taken only while [checkWinner] says the game is
    on, the side to move marks an empty cell ([handlePlayerInput],
    [minimaxMove], [mctsMove]), and the turn passes.  The turn also passes
    when the computer reports that it found no move and leaves the board
    alone.  The second component is the side whose turn comes next. *)
Inductive reachable : Board -> ascii -> Prop :=
| reach_start : reachable emptyBoard PLAYER
| reach_move b p i j :
    reachable b p ->
    checkWinner b = EMPTY ->
    In (i, j) allCells ->
    get b i j = EMPTY ->
    reachable (set b i j p) (otherPlayer p)
| reach_no_move b :
    reachable b COMPUTER ->
    checkWinner b = EMPTY ->
    reachable b PLAYER.

(** The automated side can secure a win or a draw from [b]; [oToMove]
    says whose turn it is.  A finished game is good for O when O won or
    it is a draw; an unfinished one when O, to move, has one good move, or
    when every move of the opponent leads to a good position. *)
Inductive secures : bool -> Board -> Prop :=
| sec_won o b : checkWinner b = COMPUTER -> secures o b
| sec_draw o b : checkWinner b = DRAW -> secures o b
| sec_own b i j :
    checkWinner b = EMPTY -> In (i, j) allCells -> get b i j = EMPTY ->
    secures false (set b i j COMPUTER) -> secures true b
| sec_opp b :
    checkWinner b = EMPTY ->
    (forall i j, In (i, j) allCells -> get b i j = EMPTY ->
                 secures true (set b i j PLAYER)) ->
    secures false b.

(** The running maximum and minimum of [val] over a list of moves. *)
Definition foldMax (val : Move -> Z) (l : list Move) (init : Z) : Z :=
  fold_left (fun best m => Z.max best (val m)) l init.
Definition foldMin (val : Move -> Z) (l : list Move) (init : Z) : Z :=
  fold_left (fun best m => Z.min best (val m)) l init.

(** The game value by exhaustive search, without windows or board
    threading: 10, -10 or 0 at a finished game, otherwise the maximum
    (automated side to move) or minimum over the empty cells. *)
Fixpoint gameValue (fuel : nat) (b : Board) (isMaximizing : bool) : Z :=
  match fuel with
  | O => 0
  | S fuel' =>
    let winner := checkWinner b in
    if Ascii.eqb winner COMPUTER then 10
    else if Ascii.eqb winner PLAYER then -10
    else if Ascii.eqb winner DRAW then 0
    else if isMaximizing then
      foldMax (fun m => gameValue fuel' (set b (fst m) (snd m) COMPUTER) false)
              (freeCells b) INT_MIN
    else
      foldMin (fun m => gameValue fuel' (set b (fst m) (snd m) PLAYER) true)
              (freeCells b) INT_MAX
  end.

(** ** Monte Carlo tree search *)

(** The search uses [double] arithmetic in [calculateUCT] and the C library
    generator [rand] in its rollouts and in [random_shuffle].  Both are
    interfaces of the embedding: the definitions below are written once,
    for any floating-point arithmetic and any random source. *)
Class FloatOps : Type := {
  double : Type;
  ofInt : Z -> double;                 (* the conversion int -> double *)
  fadd : double -> double -> double;
  fmul : double -> double -> double;
  fdiv : double -> double -> double;
  fsqrt : double -> double;
  flog : double -> double;
  fgt : double -> double -> bool;      (* x > y *)
  lit_1_414 : double;                  (* the literal 1.414 *)
  lit_neg_1 : double                   (* the literal -1.0 *)
}.

Class RandomSource : Type := {
  Gen : Type;                          (* the hidden state of rand() *)
  rand : Gen -> Z * Gen;               (* rand(): a value in [0, RAND_MAX] *)
  rand_nonneg : forall g, 0 <= fst (rand g);
  (* std::random_shuffle draws from rand() and reorders the range *)
  random_shuffle : Gen -> list Move -> list Move * Gen;
  random_shuffle_perm : forall g l, Permutation (fst (random_shuffle g l)) l
}.

(** [struct MCTSNode]; a [NodePtr] is an address in the arena (or NULL). *)
Abbreviation NodePtr := (option nat).

Record MCTSNode : Type := mkNode {
  boardState : Board;
  playerToMove : ascii;
  lastMove : Move;
  W : Z;
  N : Z;
  parent : NodePtr;
  children : list nat;
  untriedMoves : list Move
}.

(** The arena of all nodes allocated by [new MCTSNode]; the pointer
    returned by the k-th allocation is k. *)
Abbreviation Heap := (list MCTSNode).

(** The array before the constructor fills it. *)
Definition uninitBoard : Board :=
  mkBoard (mkRow NUL NUL NUL) (mkRow NUL NUL NUL) (mkRow NUL NUL NUL).

(** [boardState[i][j] = b[i][j]] for every cell. *)
Definition copyBoard (b : Board) : Board :=
  fold_left (fun acc m => set acc (fst m) (snd m) (get b (fst m) (snd m)))
            allCells uninitBoard.

Definition withStats (nd : MCTSNode) (w n : Z) : MCTSNode :=
  mkNode (boardState nd) (playerToMove nd) (lastMove nd) w n
         (parent nd) (children nd) (untriedMoves nd).

Definition withLists (nd : MCTSNode) (cs : list nat) (um : list Move) : MCTSNode :=
  mkNode (boardState nd) (playerToMove nd) (lastMove nd) (W nd) (N nd)
         (parent nd) cs um.

(** [backpropagate]'s score: 1 for a simulated win of the computer. *)
Definition scoreToBackpropagate (result : Z) : Z :=
  if result =? 10 then 1 else if result =? -10 then 0 else 0.

(** [void backpropagate(NodePtr node, int result)]: the loop
    [while (current != NULL)]. *)
Fixpoint backpropagate (fuel : nat) (h : Heap) (current : NodePtr) (result : Z)
    : option Heap :=
  match current, fuel with
  | None, _ => Some h
  | Some _, O => None
  | Some k, S fuel' =>
    match h !! k with
    | None => None
    | Some nd =>
      let nd' := withStats nd (W nd + scoreToBackpropagate result) (N nd + 1) in
      backpropagate fuel' (<[k := nd']> h) (parent nd) result
    end
  end.

(** The verdict of a finished game as a search result. *)
Definition resultOf (winner : ascii) : Z :=
  if Ascii.eqb winner COMPUTER then 10
  else if Ascii.eqb winner PLAYER then -10
  else 0.

Section MCTS.
Context {F : FloatOps} {R : RandomSource}.

(** The constructor [MCTSNode(b, p, lm, player)]. *)
Definition newNode (g : Gen) (b : Board) (p : NodePtr) (lm : Move) (player : ascii)
    : MCTSNode * Gen :=
  let '(um, g') := random_shuffle g (freeCells b) in
  (mkNode (copyBoard b) player lm 0 0 p [] um, g').

(** [double calculateUCT(NodePtr node, int parentVisits)]. *)
Definition calculateUCT (node : MCTSNode) (parentVisits : Z) : double :=
  if N node =? 0 then ofInt INT_MAX
  else
    let exploitation := fdiv (ofInt (W node)) (ofInt (N node)) in
    let exploration :=
      fmul lit_1_414 (fsqrt (fdiv (flog (ofInt parentVisits)) (ofInt (N node)))) in
    fadd exploitation exploration.

(** The loop of [selectChild] over [node->children]. *)
Fixpoint selectChildLoop (h : Heap) (parentVisits : Z) (cs : list nat)
    (bestChild : NodePtr) (bestUCT : double) : option NodePtr :=
  match cs with
  | [] => Some bestChild
  | c :: rest =>
    match h !! c with
    | None => None
    | Some child =>
      let uctValue := calculateUCT child parentVisits in
      if fgt uctValue bestUCT
      then selectChildLoop h parentVisits rest (Some c) uctValue
      else selectChildLoop h parentVisits rest bestChild bestUCT
    end
  end.

(** [NodePtr selectChild(NodePtr node)]. *)
Definition selectChild (h : Heap) (node : nat) : option NodePtr :=
  match h !! node with
  | None => None
  | Some nd => selectChildLoop h (N nd) (children nd) None lit_neg_1
  end.

(** [NodePtr expandNode(NodePtr node)]: the last untried move is taken,
    played on a copy of the node's board, and the new child is linked. *)
Definition expandNode (h : Heap) (node : nat) (g : Gen) : option (Heap * nat * Gen) :=
  match h !! node with
  | None => None
  | Some nd =>
    match last (untriedMoves nd) with
    | None => None
    | Some move =>
      let untried' := removelast (untriedMoves nd) in
      let newBoard :=
        set (copyBoard (boardState nd)) (fst move) (snd move) (playerToMove nd) in
      let nextPlayer :=
        if Ascii.eqb (playerToMove nd) PLAYER then COMPUTER else PLAYER in
      let '(child, g') := newNode g newBoard (Some node) move nextPlayer in
      let newChild := length h in
      let nd' := withLists nd (children nd ++ [newChild]) untried' in
      Some (<[node := nd']> h ++ [child], newChild, g')
    end
  end.

(** The [while (true)] loop of [simulateGame]. *)
Fixpoint simulateLoop (fuel : nat) (tempBoard : Board) (currentPlayer : ascii)
    (g : Gen) : option (Z * Gen) :=
  match fuel with
  | O => None
  | S fuel' =>
    let winner := checkWinner tempBoard in
    if negb (Ascii.eqb winner EMPTY) then Some (resultOf winner, g)
    else
      let freeSpaces := freeCells tempBoard in
      match freeSpaces with
      | [] => Some (0, g)
      | _ :: _ =>
        let '(r, g') := rand g in
        let random_index := Z.to_nat (r mod Z.of_nat (length freeSpaces)) in
        match freeSpaces !! random_index with
        | None => None
        | Some random_move =>
          simulateLoop fuel'
            (set tempBoard (fst random_move) (snd random_move) currentPlayer)
            (if Ascii.eqb currentPlayer PLAYER then COMPUTER else PLAYER) g'
        end
      end
  end.

(** [int simulateGame(const char b[3][3], char playerToMove)]. *)
Definition simulateGame (fuel : nat) (b : Board) (player : ascii) (g : Gen)
    : option (Z * Gen) :=
  simulateLoop fuel (copyBoard b) player g.

(** Phase 1 of an iteration, the selection loop
    [while (node->untriedMoves.empty() && checkWinner(node->boardState) == ' ')]. *)
Fixpoint selectLoop (fuel : nat) (h : Heap) (node : nat) : option nat :=
  match fuel with
  | O => None
  | S fuel' =>
    match h !! node with
    | None => None
    | Some nd =>
      if (match untriedMoves nd with [] => true | _ => false end)
         && Ascii.eqb (checkWinner (boardState nd)) EMPTY
      then
        match selectChild h node with
        | None => None
        | Some None => Some node              (* selected == NULL: break *)
        | Some (Some selected) => selectLoop fuel' h selected
        end
      else Some node
    end
  end.

(** One pass of the [for] loop of [runMCTS]. *)
Definition iteration (fuel : nat) (h : Heap) (g : Gen) : option (Heap * Gen) :=
  match selectLoop fuel h 0%nat with
  | None => None
  | Some node =>
    match h !! node with
    | None => None
    | Some nd =>
      (* 2. Expansion *)
      match
        (if negb (match untriedMoves nd with [] => true | _ => false end)
            && Ascii.eqb (checkWinner (boardState nd)) EMPTY
         then expandNode h node g
         else Some (h, node, g))
      with
      | None => None
      | Some (h1, node1, g1) =>
        match h1 !! node1 with
        | None => None
        | Some nd1 =>
          let winner := checkWinner (boardState nd1) in
          (* 3. Simulation, or the verdict of a finished game *)
          match
            (if Ascii.eqb winner EMPTY
             then simulateGame fuel (boardState nd1) (playerToMove nd1) g1
             else Some (resultOf winner, g1))
          with
          | None => None
          | Some (result, g2) =>
            (* 4. Backpropagation *)
            match backpropagate fuel h1 (Some node1) result with
            | None => None
            | Some h2 => Some (h2, g2)
            end
          end
        end
      end
    end
  end.

(** [for (int i = 0; i < iterations; ++i)], by the number of passes left. *)
Fixpoint iterations_loop (fuel : nat) (n : nat) (h : Heap) (g : Gen)
    : option (Heap * Gen) :=
  match n with
  | O => Some (h, g)
  | S n' =>
    match iteration fuel h g with
    | None => None
    | Some (h', g') => iterations_loop fuel n' h' g'
    end
  end.

(** The tree at the end of the [for] loop of [runMCTS]; the root is at
    address 0. *)
Definition mctsTree (fuel : nat) (currentBoard : Board) (iterations : Z) (g : Gen)
    : option (Heap * Gen) :=
  let '(root, g0) := newNode g currentBoard None NO_MOVE COMPUTER in
  iterations_loop fuel (Z.to_nat iterations) [root] g0.

(** The final loop of [runMCTS] over [root->children]. *)
Fixpoint bestChildLoop (h : Heap) (cs : list nat) (bestChild : NodePtr)
    (maxVisits : Z) : option NodePtr :=
  match cs with
  | [] => Some bestChild
  | c :: rest =>
    match h !! c with
    | None => None
    | Some child =>
      if N child >? maxVisits
      then bestChildLoop h rest (Some c) (N child)
      else bestChildLoop h rest bestChild maxVisits
    end
  end.

(** [Move bestMove = bestChild ? bestChild->lastMove : make_pair(-1, -1)]. *)
Definition finalMove (h : Heap) : option Move :=
  match h !! 0%nat with
  | None => None
  | Some root =>
    match bestChildLoop h (children root) None (-1) with
    | None => None
    | Some None => Some NO_MOVE
    | Some (Some c) =>
      match h !! c with
      | None => None
      | Some child => Some (lastMove child)
      end
    end
  end.

(** [Move runMCTS(const char currentBoard[3][3], int iterations)]. *)
Definition runMCTS (fuel : nat) (currentBoard : Board) (iterations : Z) (g : Gen)
    : option (Move * Gen) :=
  match mctsTree fuel currentBoard iterations g with
  | None => None
  | Some (h, g') =>
    match finalMove h with
    | None => None
    | Some bestMove => Some (bestMove, g')
    end
  end.

(** [void mctsMove(int iterations)] on the global [board] and
    [computerMoves]. *)
Definition mctsMove (fuel : nat) (board : Board) (computerMoves : list Move)
    (iterations : Z) (g : Gen) : option (Board * list Move * Gen) :=
  match runMCTS fuel board iterations g with
  | None => None
  | Some (bestMove, g') =>
    if negb (fst bestMove =? -1)
    then Some (set board (fst bestMove) (snd bestMove) COMPUTER,
               computerMoves ++ [bestMove], g')
    else Some (board, computerMoves, g')
  end.

End MCTS.

(** ** A concrete arithmetic and random source, for running the search *)

(** Fixed-point arithmetic in thousandths stands in for [double]. *)
Definition fixedPoint : FloatOps := {|
  double := Z;
  ofInt := fun n => 1000 * n;
  fadd := Z.add;
  fmul := fun x y => x * y / 1000;
  fdiv := fun x y => if y =? 0 then 0 else 1000 * x / y;
  fsqrt := fun x => Z.sqrt (1000 * x);
  flog := fun x => 693 * Z.log2 (x / 1000);
  fgt := Z.gtb;
  lit_1_414 := 1414;
  lit_neg_1 := -1000
|}.

(** A linear congruential [rand], and the constructor of the second source
    file, which leaves the untried moves in scan order. *)
Definition lcgNext (s : Z) : Z := (1103515245 * s + 12345) mod 2147483648.

Definition lcg : RandomSource := {|
  Gen := Z;
  rand := fun s => (lcgNext s, lcgNext s);
  rand_nonneg := fun s =>
    proj1 (Z.mod_pos_bound (1103515245 * s + 12345) 2147483648 eq_refl);
  random_shuffle := fun g l => (l, g);
  random_shuffle_perm := fun g l => Permutation_refl l
|}.

(** The nodes from [current] up to the root, following [parent]. *)
Fixpoint pathToRoot (fuel : nat) (h : Heap) (current : NodePtr) : list nat :=
  match current, fuel with
  | None, _ => []
  | Some _, O => []
  | Some k, S fuel' =>
    k :: match h !! k with
         | None => []
         | Some nd => pathToRoot fuel' h (parent nd)
         end
  end.

(** A node without its statistics: what [backpropagate] leaves alone. *)
Definition skel (nd : MCTSNode) : MCTSNode := withStats nd 0 0.

(** What one step of [backpropagate] does to a node. *)
Definition visited (result : Z) (nd : MCTSNode) : MCTSNode :=
  withStats nd (W nd + scoreToBackpropagate result) (N nd + 1).

(** [a] lies on the way from node [k] up to the root. *)
Definition onPath (fuel : nat) (h : Heap) (k a : nat) : bool :=
  existsb (Nat.eqb a) (pathToRoot fuel h (Some k)).

(** Parent pointers lead towards the root at address 0: a tree as
    [runMCTS] builds it, where a child is allocated after its parent. *)
Definition treeOrdered (h : Heap) : Prop :=
  forall k nd, h !! k = Some nd ->
    match parent nd with
    | None => k = 0%nat
    | Some p => (p < k)%nat
    end.

(** The shape of a node of the search tree: its children are allocated
    later than itself and were reached by moves onto cells that are empty
    on its board, its untried moves are such cells as well, and a side
    is to move. *)
Definition nodeShape (h : Heap) (k : nat) (nd : MCTSNode) : Prop :=
  match parent nd with
  | None => k = 0%nat
  | Some p => (p < k)%nat
  end /\
  (forall c, In c (children nd) ->
     (k < c)%nat /\
     exists cd, h !! c = Some cd /\ In (lastMove cd) (freeCells (boardState nd))) /\
  (forall m, In m (untriedMoves nd) -> In m (freeCells (boardState nd))) /\
  (playerToMove nd = PLAYER \/ playerToMove nd = COMPUTER).

Definition wfTree (h : Heap) : Prop :=
  forall k nd, h !! k = Some nd -> nodeShape h k nd /\ 0 <= N nd.

(** The root after [n] passes of the loop of [runMCTS] on [currentBoard]. *)
Definition rootAfter (currentBoard : Board) (n : nat) (h : Heap) : Prop :=
  exists root,
    h !! 0%nat = Some root /\
    boardState root = currentBoard /\
    N root = Z.of_nat n /\
    (n = 0%nat -> children root = []) /\
    (checkWinner currentBoard <> EMPTY -> children root = []) /\
    (checkWinner currentBoard = EMPTY -> n = 0%nat -> untriedMoves root <> []) /\
    (checkWinner currentBoard = EMPTY -> n <> 0%nat -> children root <> []) /\
    (length h <= S n)%nat.

(** [h'] differs from [h] in statistics only, and no visit count went down. *)
Definition statsOnly (h h' : Heap) : Prop :=
  length h' = length h /\
  forall a nd, h !! a = Some nd ->
    exists nd', h' !! a = Some nd' /\ skel nd' = skel nd /\ N nd <= N nd'.

(** What a search with window [(al, be)] promises about its result [v] when
    the game value is [m]: the exact value inside the window, and a bound
    on the right side outside of it. *)
Definition within (al be v m : Z) : Prop :=
  (v <= al -> m <= v) /\ (be <= v -> v <= m) /\ (al < v < be -> v = m).

(** A board on which both sides have a row. *)
Definition bothLines : Board :=
  mkBoard (mkRow COMPUTER COMPUTER COMPUTER) (mkRow PLAYER PLAYER PLAYER) emptyRow.

(** Two marks each, four free cells, computer to move. *)
Definition midGame : Board :=
  mkBoard (mkRow PLAYER PLAYER EMPTY) (mkRow COMPUTER COMPUTER EMPTY) emptyRow.

(** A root with one child, for running [backpropagate]. *)
Definition sampleTree : Heap :=
  [ mkNode emptyBoard COMPUTER NO_MOVE 0 1 None [1%nat] [];
    mkNode (set emptyBoard 1 1 COMPUTER) PLAYER (1, 1) 0 1 (Some 0%nat) [] [] ].

(** ** The rest of the program *)

(** [int mctsIterationsForDifficulty(char aiChoice)] of [TicTacToe.cpp]. *)
Definition mctsIterationsForDifficulty (aiChoice : ascii) : Z :=
  if Ascii.eqb aiChoice "E"%char then 200
  else if Ascii.eqb aiChoice "M"%char then 100000
  else 0.

(** [int getMctsIterationsForDifficulty(char aiChoice)] of the second
    source file. *)
Definition getMctsIterationsForDifficulty (aiChoice : ascii) : Z :=
  if Ascii.eqb aiChoice "H"%char then 10000 else 0.

(** What one pass of the loop of [handlePlayerInput] gets from [cin]: the
    read of the row fails, the read of the column fails, or both numbers
    are read. *)
Inductive Attempt : Type :=
| RowFails
| ColumnFails
| Read (row column : Z).

(** [void handlePlayerInput(char playerChar, vector<pair<int,int>>& movesLog)]
    on the global [board], over the attempts still to come; the attempts
    left over are returned with the new board and log.  The loop does not
    end by itself: when the input is used up there is no result. *)
Fixpoint handlePlayerInput (input : list Attempt) (playerChar : ascii)
    (board : Board) (movesLog : list Move)
    : option (Board * list Move * list Attempt) :=
  match input with
  | [] => None
  | RowFails :: rest => handlePlayerInput rest playerChar board movesLog
  | ColumnFails :: rest => handlePlayerInput rest playerChar board movesLog
  | Read row column :: rest =>
    if (row <? 1) || (row >? BOARD_SIZE) || (column <? 1) || (column >? BOARD_SIZE)
    then handlePlayerInput rest playerChar board movesLog
    else
      let r := row - 1 in
      let c := column - 1 in
      if negb (Ascii.eqb (get board r c) EMPTY)
      then handlePlayerInput rest playerChar board movesLog
      else Some (set board r c playerChar, movesLog ++ [(r, c)], rest)
  end.

(** An attempt that names a cell of the grid, counting from 1, that is
    empty on [board]. *)
Definition acceptable (board : Board) (a : Attempt) : Prop :=
  match a with
  | Read row column =>
    1 <= row <= BOARD_SIZE /\ 1 <= column <= BOARD_SIZE /\
    get board (row - 1) (column - 1) = EMPTY
  | _ => False
  end.

(** The automated side can force a win from [b]; [oToMove] says whose turn
    it is. *)
Inductive forcesWin : bool -> Board -> Prop :=
| win_now o b : checkWinner b = COMPUTER -> forcesWin o b
| win_own b i j :
    checkWinner b = EMPTY -> In (i, j) allCells -> get b i j = EMPTY ->
    forcesWin false (set b i j COMPUTER) -> forcesWin true b
| win_opp b :
    checkWinner b = EMPTY ->
    (forall i j, In (i, j) allCells -> get b i j = EMPTY ->
                 forcesWin true (set b i j PLAYER)) ->
    forcesWin false b.


(** The last moves of the nodes behind a list of child pointers. *)
Definition childMoves (h : Heap) (cs : list nat) : list Move :=
  omap (fun c => lastMove <$> (h !! c)) cs.

(** Win scores and visit counts fit together: a win score counts some of
    the visits, and every node but the root was visited. *)
Definition statsSound (h : Heap) : Prop :=
  forall k nd, h !! k = Some nd ->
    0 <= W nd <= N nd /\ (k <> 0%nat -> 1 <= N nd).

(** The empty cells of a node's board are split between the moves not
    yet tried and the moves that led to its children. *)
Definition movesSplit (h : Heap) : Prop :=
  forall k nd, h !! k = Some nd ->
    (forall c, In c (children nd) -> (c < length h)%nat) /\
    Permutation (untriedMoves nd ++ childMoves h (children nd))
                (freeCells (boardState nd)).

(** Every node but the root is listed by its parent and holds the
    parent's board after the parent's side played the node's last move;
    the sides alternate. *)
Definition linked (h : Heap) : Prop :=
  forall k nd, h !! k = Some nd ->
    match parent nd with
    | None => True
    | Some p =>
      exists pd,
        h !! p = Some pd /\ In k (children pd) /\
        boardState nd
        = set (boardState pd) (fst (lastMove nd)) (snd (lastMove nd)) (playerToMove pd) /\
        playerToMove nd = otherPlayer (playerToMove pd)
    end.

(** The root keeps what the constructor gave it. *)
Definition rootKept (b : Board) (h : Heap) : Prop :=
  exists root,
    h !! 0%nat = Some root /\ boardState root = b /\
    playerToMove root = COMPUTER /\ parent root = None /\ lastMove root = NO_MOVE.

(** ** The tree search of the second source file

    [calculateUCT], [selectBestChild] (there [selectChild]),
    [simulateRandomGame] (there [simulateGame]), [backpropagate] and the
    final loop of [runMCTS] are the code of [TicTacToe.cpp] under other
    names; the constructor, [expandNode] through it, and the selection
    loop differ. *)

(** A law of the arithmetic: a child that was visited, under a node that
    was visited, has a UCT value above the -1.0 that the loop of
    [selectChild] starts from. *)
Definition uctAboveFloor (F : FloatOps) : Prop :=
  forall node parentVisits,
    1 <= N node -> 0 <= W node <= N node -> 1 <= parentVisits ->
    fgt (calculateUCT node parentVisits) lit_neg_1 = true.

(** The random source [R] with a shuffle that leaves the order. *)
Definition scanOrder (R : RandomSource) : RandomSource := {|
  Gen := @Gen R;
  rand := @rand R;
  rand_nonneg := @rand_nonneg R;
  random_shuffle := fun g l => (l, g);
  random_shuffle_perm := fun g l => Permutation_refl l
|}.

Section SecondFile.
Context {F : FloatOps} {R : RandomSource}.

(** The constructor [MCTSNode(b, p, lm, nextPlayer)] of the second file:
    the untried moves are the empty cells in scan order, not shuffled. *)
Definition newNode' (b : Board) (p : NodePtr) (lm : Move) (nextPlayer : ascii)
    : MCTSNode :=
  mkNode (copyBoard b) nextPlayer lm 0 0 p [] (freeCells b).

(** [NodePtr expandNode(NodePtr node)] of the second file. *)
Definition expandNode' (h : Heap) (node : nat) (g : Gen) : option (Heap * nat * Gen) :=
  match h !! node with
  | None => None
  | Some nd =>
    match last (untriedMoves nd) with
    | None => None
    | Some move =>
      let untried' := removelast (untriedMoves nd) in
      let newBoard :=
        set (copyBoard (boardState nd)) (fst move) (snd move) (playerToMove nd) in
      let nextPlayer :=
        if Ascii.eqb (playerToMove nd) PLAYER then COMPUTER else PLAYER in
      let child := newNode' newBoard (Some node) move nextPlayer in
      let newChild := length h in
      let nd' := withLists nd (children nd ++ [newChild]) untried' in
      Some (<[node := nd']> h ++ [child], newChild, g)
    end
  end.

(** The selection loop of the second file,
    [while (node->untriedMoves.empty() && checkWinner(node->boardState) == ' '
            && !node->children.empty())
       { node = selectBestChild(node); if (node == NULL) break; }].
    After the [break] the next statement reads [node->untriedMoves] of the
    null pointer: there is no result. *)
Fixpoint selectLoop' (fuel : nat) (h : Heap) (node : nat) : option nat :=
  match fuel with
  | O => None
  | S fuel' =>
    match h !! node with
    | None => None
    | Some nd =>
      if (match untriedMoves nd with [] => true | _ => false end)
         && Ascii.eqb (checkWinner (boardState nd)) EMPTY
         && negb (match children nd with [] => true | _ => false end)
      then
        match selectChild h node with
        | None => None
        | Some None => None
        | Some (Some selected) => selectLoop' fuel' h selected
        end
      else Some node
    end
  end.

(** One pass of the [for] loop of [runMCTS] of the second file. *)
Definition iteration' (fuel : nat) (h : Heap) (g : Gen) : option (Heap * Gen) :=
  match selectLoop' fuel h 0%nat with
  | None => None
  | Some node =>
    match h !! node with
    | None => None
    | Some nd =>
      match
        (if negb (match untriedMoves nd with [] => true | _ => false end)
            && Ascii.eqb (checkWinner (boardState nd)) EMPTY
         then expandNode' h node g
         else Some (h, node, g))
      with
      | None => None
      | Some (h1, node1, g1) =>
        match h1 !! node1 with
        | None => None
        | Some nd1 =>
          let winner := checkWinner (boardState nd1) in
          match
            (if Ascii.eqb winner EMPTY
             then simulateGame fuel (boardState nd1) (playerToMove nd1) g1
             else Some (resultOf winner, g1))
          with
          | None => None
          | Some (result, g2) =>
            match backpropagate fuel h1 (Some node1) result with
            | None => None
            | Some h2 => Some (h2, g2)
            end
          end
        end
      end
    end
  end.

Fixpoint iterations_loop' (fuel : nat) (n : nat) (h : Heap) (g : Gen)
    : option (Heap * Gen) :=
  match n with
  | O => Some (h, g)
  | S n' =>
    match iteration' fuel h g with
    | None => None
    | Some (h', g') => iterations_loop' fuel n' h' g'
    end
  end.

Definition mctsTree' (fuel : nat) (currentBoard : Board) (iterations : Z) (g : Gen)
    : option (Heap * Gen) :=
  iterations_loop' fuel (Z.to_nat iterations)
                   [newNode' currentBoard None NO_MOVE COMPUTER] g.

(** [Move runMCTS(const char currentBoard[3][3], int iterations)] of the
    second file. *)
Definition runMCTS' (fuel : nat) (currentBoard : Board) (iterations : Z) (g : Gen)
    : option (Move * Gen) :=
  match mctsTree' fuel currentBoard iterations g with
  | None => None
  | Some (h, g') =>
    match finalMove h with
    | None => None
    | Some bestMove => Some (bestMove, g')
    end
  end.

(** [void mctsMove(int iterations)] of the second file. *)
Definition mctsMove' (fuel : nat) (board : Board) (computerMoves : list Move)
    (iterations : Z) (g : Gen) : option (Board * list Move * Gen) :=
  match runMCTS' fuel board iterations g with
  | None => None
  | Some (bestMove, g') =>
    if negb (fst bestMove =? -1)
    then Some (set board (fst bestMove) (snd bestMove) COMPUTER,
               computerMoves ++ [bestMove], g')
    else Some (board, computerMoves, g')
  end.

End SecondFile.

Section Turn.
Context {F : FloatOps} {R : RandomSource}.

(** [Move getRandomComputerMove(const char currentBoard[3][3])] of the
    second source file. *)
Definition getRandomComputerMove (currentBoard : Board) (g : Gen)
    : option (Move * Gen) :=
  let freeSpaces := freeCells currentBoard in
  match freeSpaces with
  | [] => Some (NO_MOVE, g)
  | _ :: _ =>
    let '(r, g') := rand g in
    let randomIndex := Z.to_nat (r mod Z.of_nat (length freeSpaces)) in
    match freeSpaces !! randomIndex with
    | None => None
    | Some m => Some (m, g')
    end
  end.

(** The computer's turn in [main] of [TicTacToe.cpp]: minimax for ['H'],
    otherwise the tree search with the budget of the difficulty. *)
Definition computerTurn (fuel : nat) (aiChoice : ascii) (board : Board)
    (computerMoves : list Move) (g : Gen) : option (Board * list Move * Gen) :=
  if Ascii.eqb aiChoice "H"%char then
    match minimaxMove fuel board computerMoves with
    | None => None
    | Some (b, ms) => Some (b, ms, g)
    end
  else mctsMove fuel board computerMoves (mctsIterationsForDifficulty aiChoice) g.

(** The computer's turn in [main] of the second source file: minimax for
    ['I'], the tree search for ['H'], a random free cell otherwise. *)
Definition computerTurn' (fuel : nat) (aiChoice : ascii) (board : Board)
    (computerMoves : list Move) (g : Gen) : option (Board * list Move * Gen) :=
  if Ascii.eqb aiChoice "I"%char then
    match minimaxMove fuel board computerMoves with
    | None => None
    | Some (b, ms) => Some (b, ms, g)
    end
  else if Ascii.eqb aiChoice "H"%char then
    mctsMove' fuel board computerMoves (getMctsIterationsForDifficulty aiChoice) g
  else
    match getRandomComputerMove board g with
    | None => None
    | Some (randomMove, g') =>
      if negb (fst randomMove =? -1)
      then Some (set board (fst randomMove) (snd randomMove) COMPUTER,
                 computerMoves ++ [randomMove], g')
      else Some (board, computerMoves, g')
    end.

(** How a round of [main] can end in the model: the step budget is used
    up, the input is used up while a player is asked for a cell, or the
    game is over with a verdict. *)
Inductive RoundEnd : Type :=
| OutOfSteps
| InputEnded
| GameOver (winner : ascii) (board : Board) (playerMoves computerMoves : list Move)
    (input : list Attempt) (g : Gen).

(** [void playerMove()] and [void player2Move()]; in the second source
    file they call [handlePlayerMove], the same loop as
    [handlePlayerInput]. *)
Definition playerMove (input : list Attempt) (board : Board) (playerMoves : list Move)
    : option (Board * list Move * list Attempt) :=
  handlePlayerInput input PLAYER board playerMoves.

Definition player2Move (input : list Attempt) (board : Board)
    (computerMoves : list Move) : option (Board * list Move * list Attempt) :=
  handlePlayerInput input COMPUTER board computerMoves.

Section Round.
(** The computer's turn; it is what the two source files differ in. *)
Variable computer : Board -> list Move -> Gen -> option (Board * list Move * Gen).

(** The move of one pass of the game loop of [main]: by mode and side to
    move, [playerMove], [player2Move] or the computer's turn.  The board,
    the two logs, the input and the generator after it are returned. *)
Definition takeTurn (chosenMode currentPlayer : ascii) (board : Board)
    (playerMoves computerMoves : list Move) (input : list Attempt) (g : Gen)
    : RoundEnd + (Board * list Move * list Move * list Attempt * Gen) :=
  if Ascii.eqb chosenMode "1"%char then
    if Ascii.eqb currentPlayer PLAYER then
      match playerMove input board playerMoves with
      | None => inl InputEnded
      | Some (b, pm, rest) => inr (b, pm, computerMoves, rest, g)
      end
    else
      match player2Move input board computerMoves with
      | None => inl InputEnded
      | Some (b, cm, rest) => inr (b, playerMoves, cm, rest, g)
      end
  else
    if Ascii.eqb currentPlayer PLAYER then
      match playerMove input board playerMoves with
      | None => inl InputEnded
      | Some (b, pm, rest) => inr (b, pm, computerMoves, rest, g)
      end
    else
      match computer board computerMoves g with
      | None => inl OutOfSteps
      | Some (b, cm, g') => inr (b, playerMoves, cm, input, g')
      end.

(** The game loop of [main] in [TicTacToe.cpp],
    [do { ... } while (winner == ' ' && checkFreeSpaces() > 0)]. *)
Fixpoint gameLoop (turns : nat) (chosenMode currentPlayer : ascii) (board : Board)
    (playerMoves computerMoves : list Move) (input : list Attempt) (g : Gen)
    : RoundEnd :=
  match turns with
  | O => OutOfSteps
  | S turns' =>
    match takeTurn chosenMode currentPlayer board playerMoves computerMoves input g with
    | inl e => e
    | inr (b, pm, cm, rest, g') =>
      let winner := checkWinner b in
      let currentPlayer' :=
        if Ascii.eqb winner " "%char
        then (if Ascii.eqb currentPlayer PLAYER then COMPUTER else PLAYER)
        else currentPlayer in
      if Ascii.eqb winner " "%char && (countFreeSpaces b >? 0)
      then gameLoop turns' chosenMode currentPlayer' b pm cm rest g'
      else GameOver winner b pm cm rest g'
    end
  end.

(** The game loop of [main] in the second source file,
    [while (winner == ' ' && countFreeSpaces(board) > 0) { ... }]. *)
Fixpoint gameLoop' (turns : nat) (chosenMode winner currentPlayer : ascii)
    (board : Board) (playerMoves computerMoves : list Move) (input : list Attempt)
    (g : Gen) : RoundEnd :=
  if Ascii.eqb winner " "%char && (countFreeSpaces board >? 0) then
    match turns with
    | O => OutOfSteps
    | S turns' =>
      match takeTurn chosenMode currentPlayer board playerMoves computerMoves input g with
      | inl e => e
      | inr (b, pm, cm, rest, g') =>
        let winner' := checkWinner b in
        let currentPlayer' :=
          if Ascii.eqb winner' " "%char
          then (if Ascii.eqb currentPlayer PLAYER then COMPUTER else PLAYER)
          else currentPlayer in
        gameLoop' turns' chosenMode winner' currentPlayer' b pm cm rest g'
      end
    end
  else GameOver winner board playerMoves computerMoves input g.

End Round.

(** One round of [main] in [TicTacToe.cpp]: [resetBoard], the logs
    cleared, [winner = ' '], [currentPlayer = PLAYER], then the game
    loop. *)
Definition playRound (turns fuel : nat) (chosenMode aiChoice : ascii)
    (input : list Attempt) (g : Gen) : RoundEnd :=
  gameLoop (computerTurn fuel aiChoice) turns chosenMode PLAYER emptyBoard [] [] input g.

(** One round of [main] in the second source file. *)
Definition playRound' (turns fuel : nat) (chosenMode aiChoice : ascii)
    (input : list Attempt) (g : Gen) : RoundEnd :=
  gameLoop' (computerTurn' fuel aiChoice) turns chosenMode " "%char PLAYER emptyBoard
            [] [] input g.

End Turn.

(** The log [log] lists the cells of [b] that hold the mark [c]. *)
Definition marked (b : Board) (c : ascii) (log : list Move) : Prop :=
  forall i j, In (i, j) log <-> In (i, j) allCells /\ get b i j = c.

(** The state of a round between two turns, [p] to move: the board has
    come about by play, the logs list the marks of the two sides, and
    every cell is blank or logged once. *)
Definition inPlay (p : ascii) (b : Board) (pm cm : list Move) : Prop :=
  reachable b p /\ marked b PLAYER pm /\ marked b COMPUTER cm /\
  (length pm + length cm + length (freeCells b) = 9)%nat.

(* ================================================================== *)
(** * Properties *)
(* ================================================================== *)

(** ** Cells and boards *)

Lemma allCells_range (i j : Z) :
  In (i, j) allCells <-> (0 <= i < 3 /\ 0 <= j < 3).
Proof.
  unfold allCells, indices; simpl. split.
  - intros H. repeat (destruct H as [H | H]; [inversion H; lia |]). destruct H.
  - intros [Hi Hj].
    assert (i = 0 \/ i = 1 \/ i = 2) as [-> | [-> | ->]] by lia;
      assert (j = 0 \/ j = 1 \/ j = 2) as [-> | [-> | ->]] by lia; tauto.
Qed.

Ltac cell_cases H :=
  apply allCells_range in H;
  let Hi := fresh in let Hj := fresh in
  destruct H as [Hi Hj];
  match type of Hi with
  | 0 <= ?i < 3 =>
    match type of Hj with
    | 0 <= ?j < 3 =>
      assert (i = 0 \/ i = 1 \/ i = 2) as [-> | [-> | ->]] by lia;
      assert (j = 0 \/ j = 1 \/ j = 2) as [-> | [-> | ->]] by lia;
      clear Hi Hj
    end
  end.

Lemma get_set_same (b : Board) (i j : Z) (c : ascii) :
  In (i, j) allCells -> get (set b i j c) i j = c.
Proof. intros H. cell_cases H; reflexivity. Qed.

Lemma get_set_other (b : Board) (i j i' j' : Z) (c : ascii) :
  In (i, j) allCells -> In (i', j') allCells -> (i, j) <> (i', j') ->
  get (set b i j c) i' j' = get b i' j'.
Proof.
  intros H H' Hne. cell_cases H; cell_cases H'; try reflexivity; congruence.
Qed.

Lemma set_set (b : Board) (i j : Z) (c d : ascii) :
  set (set b i j c) i j d = set b i j d.
Proof.
  destruct i as [|[[|[]|]|[|[]|]|]|]; simpl; try reflexivity;
    destruct j as [|[[|[]|]|[|[]|]|]|]; reflexivity.
Qed.

Lemma set_same (b : Board) (i j : Z) :
  In (i, j) allCells -> set b i j (get b i j) = b.
Proof.
  intros H. destruct b as [[] [] []]. cell_cases H; reflexivity.
Qed.

(** Writing a mark into a cell and then the old content back leaves the
    board as it was. *)
Lemma set_restore (b : Board) (i j : Z) (c d : ascii) :
  In (i, j) allCells -> get b i j = d -> set (set b i j c) i j d = b.
Proof. intros H Hd. rewrite set_set, <- Hd. apply set_same, H. Qed.

Lemma copyBoard_eq (b : Board) : copyBoard b = b.
Proof. destruct b as [[] [] []]. reflexivity. Qed.

Lemma allCells_NoDup : NoDup allCells.
Proof.
  unfold allCells, indices; simpl.
  repeat (apply NoDup_cons_2;
          [ rewrite ?elem_of_cons, elem_of_nil; intros H;
            repeat (destruct H as [H | H]; [discriminate |]); exact H |]).
  apply NoDup_nil_2.
Qed.

Lemma isEmptyAt_iff (b : Board) (i j : Z) :
  isEmptyAt b (i, j) = true <-> get b i j = EMPTY.
Proof. unfold isEmptyAt; simpl. apply Ascii.eqb_eq. Qed.

Lemma freeCells_In (b : Board) (i j : Z) :
  In (i, j) (freeCells b) <-> In (i, j) allCells /\ get b i j = EMPTY.
Proof. unfold freeCells. rewrite filter_In, isEmptyAt_iff. tauto. Qed.

Lemma freeCells_In' (b : Board) (m : Move) :
  In m (freeCells b) <-> In m allCells /\ get b (fst m) (snd m) = EMPTY.
Proof. destruct m as [i j]. apply freeCells_In. Qed.

Lemma countFreeSpaces_length (b : Board) :
  countFreeSpaces b = Z.of_nat (length (freeCells b)).
Proof.
  unfold countFreeSpaces, freeCells.
  assert (forall l n,
    fold_left (fun n m => if isEmptyAt b m then n + 1 else n) l n
    = n + Z.of_nat (length (List.filter (isEmptyAt b) l))) as H.
  { induction l as [|m l IH]; intros n; simpl; [lia |].
    rewrite IH. destruct (isEmptyAt b m); simpl length; lia. }
  rewrite H. lia.
Qed.

Lemma free_le_9 (b : Board) : (length (freeCells b) <= 9)%nat.
Proof.
  unfold freeCells.
  assert (forall (f : Move -> bool) l, (length (List.filter f l) <= length l)%nat) as H.
  { intros f l; induction l; simpl; [lia | destruct (f a); simpl; lia]. }
  apply (H (isEmptyAt b) allCells).
Qed.

(** Changing the test at one element that passed it removes exactly that
    element from the filtered list. *)
Lemma filter_drop_one {A : Type} (f g : A -> bool) (x : A) (l : list A) :
  NoDup l -> In x l -> f x = true -> g x = false ->
  (forall y, In y l -> y <> x -> g y = f y) ->
  S (length (List.filter g l)) = length (List.filter f l).
Proof.
  induction l as [|a l IH]; intros Hnd Hin Hfx Hgx Hother; [destruct Hin |].
  apply NoDup_cons in Hnd as [Hna Hnd]. simpl.
  destruct Hin as [-> | Hin].
  - rewrite Hfx, Hgx. simpl. f_equal.
    assert (forall l', (forall y, In y l' -> g y = f y) ->
                       List.filter g l' = List.filter f l') as Hext.
    { induction l' as [|c l' IH']; intros Hl'; simpl; [reflexivity |].
      rewrite Hl' by (left; reflexivity). rewrite IH'; [reflexivity |].
      intros y Hy. apply Hl'. right; exact Hy. }
    rewrite Hext; [reflexivity |]. intros y Hy. apply Hother; [right; exact Hy |].
    intros ->. apply Hna. apply list_elem_of_In. exact Hy.
  - assert (a <> x) as Hax.
    { intros ->. apply Hna. apply list_elem_of_In. exact Hin. }
    rewrite (Hother a) by (auto; left; reflexivity).
    destruct (f a); simpl; rewrite <- IH; auto;
      intros y Hy; apply Hother; right; exact Hy.
Qed.

(** Marking an empty cell leaves one free cell fewer: the measure that
    bounds every search. *)
Lemma freeCells_set (b : Board) (i j : Z) (c : ascii) :
  In (i, j) allCells -> get b i j = EMPTY -> c <> EMPTY ->
  S (length (freeCells (set b i j c))) = length (freeCells b).
Proof.
  intros Hin He Hc. unfold freeCells.
  apply (filter_drop_one _ _ (i, j)); auto using allCells_NoDup.
  - apply isEmptyAt_iff, He.
  - unfold isEmptyAt; simpl. rewrite get_set_same by exact Hin.
    apply Ascii.eqb_neq, Hc.
  - intros [i' j'] Hy Hne. unfold isEmptyAt; simpl.
    rewrite get_set_other; auto.
Qed.

Lemma PLAYER_not_EMPTY : PLAYER <> EMPTY.
Proof. discriminate. Qed.

Lemma COMPUTER_not_EMPTY : COMPUTER <> EMPTY.
Proof. discriminate. Qed.

(** ** checkWinner *)

(** [checkWinner] reports the mark on the first complete line in scan
    order; without one, a draw on a full board and "ongoing" otherwise. *)
Lemma checkWinner_firstLine (b : Board) :
  checkWinner b =
  match firstLine b with
  | Some (p, _, _) => at_ b p
  | None => if Z.eqb (countFreeSpaces b) 0 then DRAW else EMPTY
  end.
Proof.
  unfold checkWinner, firstLine, lines, indices. cbn [find].
  change (fullLine b (0, 0, (0, 1), (0, 2))) with (rowWins b 0).
  change (fullLine b (1, 0, (1, 1), (1, 2))) with (rowWins b 1).
  change (fullLine b (2, 0, (2, 1), (2, 2))) with (rowWins b 2).
  change (fullLine b (0, 0, (1, 0), (2, 0))) with (colWins b 0).
  change (fullLine b (0, 1, (1, 1), (2, 1))) with (colWins b 1).
  change (fullLine b (0, 2, (1, 2), (2, 2))) with (colWins b 2).
  change (fullLine b (0, 0, (1, 1), (2, 2))) with (diagWins b).
  change (fullLine b (0, 2, (1, 1), (2, 0))) with (antiDiagWins b).
  destruct (rowWins b 0); [reflexivity |].
  destruct (rowWins b 1); [reflexivity |].
  destruct (rowWins b 2); [reflexivity |].
  destruct (colWins b 0); [reflexivity |].
  destruct (colWins b 1); [reflexivity |].
  destruct (colWins b 2); [reflexivity |].
  destruct (diagWins b); [reflexivity |].
  destruct (antiDiagWins b); reflexivity.
Qed.

Lemma three_eq (x y z : ascii) :
  negb (Ascii.eqb x EMPTY) && Ascii.eqb x y && Ascii.eqb y z
  = Ascii.eqb x y && Ascii.eqb x z && negb (Ascii.eqb x EMPTY).
Proof.
  destruct (Ascii.eqb_spec x y) as [-> | Hxy]; simpl.
  - destruct (Ascii.eqb y EMPTY), (Ascii.eqb y z); reflexivity.
  - destruct (Ascii.eqb x EMPTY); reflexivity.
Qed.

(** The two source files compute the same [checkWinner]. *)
Lemma checkWinner'_eq (b : Board) : checkWinner' b = checkWinner b.
Proof.
  unfold checkWinner', checkWinner, indices. simpl.
  unfold rowWins', colWins', rowWins, colWins, diagWins, antiDiagWins.
  rewrite !three_eq. reflexivity.
Qed.

Lemma fullLine_lineOf (b : Board) (l : Move * Move * Move) :
  fullLine b l = true <->
  exists s, s <> EMPTY /\ lineOf b s l = true.
Proof.
  destruct l as [[p q] r]. unfold fullLine, lineOf. split.
  - rewrite !andb_true_iff, negb_true_iff, !Ascii.eqb_eq, Ascii.eqb_neq.
    intros [[Hq Hr] Hne]. exists (at_ b p).
    rewrite <- Hq, <- Hr, !Ascii.eqb_refl. auto.
  - intros [s [Hne H]]. rewrite !andb_true_iff, !Ascii.eqb_eq in H.
    destruct H as [[-> ->] ->]. rewrite !Ascii.eqb_refl. simpl.
    apply negb_true_iff, Ascii.eqb_neq, Hne.
Qed.

Lemma hasLine_iff (b : Board) (s : ascii) :
  hasLine b s = true <-> exists l, In l lines /\ lineOf b s l = true.
Proof. unfold hasLine. apply existsb_exists. Qed.

Lemma firstLine_None (b : Board) :
  firstLine b = None <-> forall s, s <> EMPTY -> hasLine b s = false.
Proof.
  unfold firstLine. split.
  - intros Hnone s Hs. apply not_true_is_false. intros Hl.
    apply hasLine_iff in Hl as [l [Hin Hl]].
    apply (find_none _ _ Hnone) in Hin.
    assert (fullLine b l = true) by (apply fullLine_lineOf; eauto). congruence.
  - intros Hno. destruct (find (fullLine b) lines) as [l|] eqn:Hf; [| reflexivity].
    apply find_some in Hf as [Hin Hfull].
    apply fullLine_lineOf in Hfull as [s [Hs Hl]].
    specialize (Hno s Hs).
    assert (hasLine b s = true) by (apply hasLine_iff; eauto). congruence.
Qed.

Lemma firstLine_Some (b : Board) (l : Move * Move * Move) :
  firstLine b = Some l ->
  In l lines /\ at_ b (fst (fst l)) <> EMPTY /\
  lineOf b (at_ b (fst (fst l))) l = true.
Proof.
  unfold firstLine. intros Hf. apply find_some in Hf as [Hin Hfull].
  split; [exact Hin |]. destruct l as [[p q] r]. simpl.
  unfold fullLine in Hfull. unfold lineOf.
  rewrite !andb_true_iff, negb_true_iff, !Ascii.eqb_eq, Ascii.eqb_neq in Hfull.
  destruct Hfull as [[Hq Hr] Hne]. split; [exact Hne |].
  rewrite <- Hq, <- Hr, !Ascii.eqb_refl. reflexivity.
Qed.

(** While the game is on, no side has a line and some cell is free. *)
Lemma checkWinner_EMPTY (b : Board) :
  checkWinner b = EMPTY <->
  (forall s, s <> EMPTY -> hasLine b s = false) /\ freeCells b <> [].
Proof.
  rewrite checkWinner_firstLine, countFreeSpaces_length. split.
  - destruct (firstLine b) as [[[p q] r]|] eqn:Hf.
    + intros He. apply firstLine_Some in Hf as [_ [Hne _]]. simpl in Hne. congruence.
    + pose proof (proj1 (firstLine_None b) Hf) as Hno.
      destruct (freeCells b); simpl; [discriminate |].
      intros _. split; [exact Hno | discriminate].
  - intros [Hno Hfree]. rewrite (proj2 (firstLine_None b) Hno).
    destruct (freeCells b); [congruence | reflexivity].
Qed.

Lemma checkWinner_side (b : Board) (s : ascii) :
  s <> EMPTY -> s <> DRAW -> checkWinner b = s -> hasLine b s = true.
Proof.
  intros Hs Hd. rewrite checkWinner_firstLine.
  destruct (firstLine b) as [l|] eqn:Hf.
  - apply firstLine_Some in Hf as [Hin [_ Hl]]. destruct l as [[p q] r]. simpl in Hl.
    intros <-. apply hasLine_iff. eauto.
  - destruct (Z.eqb (countFreeSpaces b) 0); congruence.
Qed.

(** *** Valid boards *)

Lemma isCell_iff (c : ascii) :
  isCell c = true <-> c = EMPTY \/ c = PLAYER \/ c = COMPUTER.
Proof. unfold isCell. rewrite !orb_true_iff, !Ascii.eqb_eq. tauto. Qed.

Lemma validBoard_at (b : Board) (m : Move) :
  validBoard b = true -> In m allCells -> isCell (at_ b m) = true.
Proof.
  unfold validBoard. rewrite forallb_forall. intros H Hin. apply (H m Hin).
Qed.

Lemma validBoard_set (b : Board) (i j : Z) (c : ascii) :
  validBoard b = true -> In (i, j) allCells -> isCell c = true ->
  validBoard (set b i j c) = true.
Proof.
  intros Hv Hin Hc. unfold validBoard. apply forallb_forall. intros [i' j'] Hm.
  unfold at_; simpl.
  destruct (decide ((i, j) = (i', j'))) as [E | Hne].
  - inversion E; subst. rewrite get_set_same; auto.
  - rewrite get_set_other; auto. apply (validBoard_at b (i', j') Hv Hm).
Qed.

Lemma lines_cells (l : Move * Move * Move) :
  In l lines ->
  In (fst (fst l)) allCells /\ In (snd (fst l)) allCells /\ In (snd l) allCells.
Proof.
  unfold lines. intros H. cbn [In] in H.
  repeat (destruct H as [<- | H]; [cbn [fst snd]; rewrite !allCells_range; lia |]).
  destruct H.
Qed.

(** On a valid board the verdict is one of the four outcomes. *)
Lemma checkWinner_outcomes (b : Board) :
  validBoard b = true ->
  checkWinner b = EMPTY \/ checkWinner b = PLAYER \/
  checkWinner b = COMPUTER \/ checkWinner b = DRAW.
Proof.
  intros Hv. rewrite checkWinner_firstLine.
  destruct (firstLine b) as [l|] eqn:Hf.
  - apply firstLine_Some in Hf as [Hin [Hne _]].
    destruct l as [[p q] r]. simpl in Hne.
    apply lines_cells in Hin as [Hp _]. simpl in Hp.
    pose proof (validBoard_at b p Hv Hp) as Hc. apply isCell_iff in Hc.
    destruct Hc as [? | [? | ?]]; [congruence | auto | auto].
  - destruct (Z.eqb (countFreeSpaces b) 0); auto.
Qed.

Lemma valid_line_sides (b : Board) (s : ascii) :
  validBoard b = true -> s <> EMPTY -> hasLine b s = true ->
  s = PLAYER \/ s = COMPUTER.
Proof.
  intros Hv Hs Hl. apply hasLine_iff in Hl as [l [Hin Hl]].
  destruct l as [[p q] r]. apply lines_cells in Hin as [Hp _]. simpl in Hp.
  unfold lineOf in Hl. rewrite !andb_true_iff, !Ascii.eqb_eq in Hl.
  destruct Hl as [[Hpa _] _].
  pose proof (validBoard_at b p Hv Hp) as Hc. apply isCell_iff in Hc.
  rewrite Hpa in Hc. destruct Hc as [? | H]; [congruence | exact H].
Qed.

Lemma otherPlayer_cases (s : ascii) :
  s = PLAYER \/ s = COMPUTER ->
  (s = PLAYER /\ otherPlayer s = COMPUTER) \/ (s = COMPUTER /\ otherPlayer s = PLAYER).
Proof. intros [-> | ->]; [left | right]; split; reflexivity. Qed.

(** containing a line of the returned side *)
Lemma checkWinner_line (b : Board) :
  validBoard b = true ->
  (hasLine b PLAYER = true \/ hasLine b COMPUTER = true) ->
  exists l, firstLine b = Some l /\ checkWinner b = at_ b (fst (fst l)) /\
            (checkWinner b = PLAYER \/ checkWinner b = COMPUTER) /\
            hasLine b (checkWinner b) = true.
Proof.
  intros Hv Hsome. rewrite checkWinner_firstLine.
  destruct (firstLine b) as [l|] eqn:Hf.
  - exists l. split; [reflexivity |].
    apply firstLine_Some in Hf as [Hin [Hne Hl]].
    destruct l as [[p q] r]. cbn [fst snd] in *. split; [reflexivity |].
    assert (hasLine b (at_ b p) = true) as Hh by (apply hasLine_iff; eauto).
    split; [| exact Hh]. apply (valid_line_sides b); auto.
  - pose proof (proj1 (firstLine_None b) Hf) as Hno.
    destruct Hsome as [H | H];
      [rewrite (Hno PLAYER PLAYER_not_EMPTY) in H
      | rewrite (Hno COMPUTER COMPUTER_not_EMPTY) in H]; discriminate.
Qed.

Lemma checkWinner_no_line (b : Board) :
  validBoard b = true ->
  hasLine b PLAYER = false -> hasLine b COMPUTER = false ->
  checkWinner b = if Z.eqb (countFreeSpaces b) 0 then DRAW else EMPTY.
Proof.
  intros Hv Hx Ho. rewrite checkWinner_firstLine.
  rewrite (proj2 (firstLine_None b)); [reflexivity |].
  intros s Hs. apply not_true_is_false. intros Hl.
  destruct (valid_line_sides b s Hv Hs Hl) as [-> | ->]; congruence.
Qed.

(** C4, as the code has it: on a board whose cells are [' '], ['X'] or
    ['O'], [checkWinner] returns the mark of the first complete line in the
    scan order rows, columns, diagonal, anti-diagonal, so it returns a
    side's character exactly when that side has a line, as long as the
    other side has none; without any line it returns ['D'] when no cell is
    empty and [' '] otherwise. *)
Theorem checkWinner_spec (b : Board) :
  validBoard b = true ->
  (forall s, s = PLAYER \/ s = COMPUTER ->
             hasLine b (otherPlayer s) = false ->
             (checkWinner b = s <-> hasLine b s = true)) /\
  (hasLine b PLAYER = true \/ hasLine b COMPUTER = true ->
   exists l, firstLine b = Some l /\ checkWinner b = at_ b (fst (fst l)) /\
             (checkWinner b = PLAYER \/ checkWinner b = COMPUTER) /\
             hasLine b (checkWinner b) = true) /\
  (hasLine b PLAYER = false -> hasLine b COMPUTER = false ->
   (countFreeSpaces b = 0 -> checkWinner b = DRAW) /\
   (countFreeSpaces b <> 0 -> checkWinner b = EMPTY)).
Proof.
  intros Hv. split; [| split].
  - intros s Hs Hother. split.
    + intros Hw. apply checkWinner_side; auto.
      * destruct Hs as [-> | ->]; discriminate.
      * destruct Hs as [-> | ->]; discriminate.
    + intros Hl.
      destruct (checkWinner_line b Hv) as [l [_ [_ [Hside Hwl]]]].
      { destruct Hs as [-> | ->]; auto. }
      destruct (otherPlayer_cases s Hs) as [[-> Ho] | [-> Ho]];
        rewrite Ho in Hother; destruct Hside as [Hw | Hw]; auto;
        rewrite Hw in Hwl; congruence.
  - apply checkWinner_line, Hv.
  - intros Hx Ho. rewrite (checkWinner_no_line b Hv Hx Ho). split.
    + intros ->. reflexivity.
    + intros Hn. apply Z.eqb_neq in Hn. rewrite Hn. reflexivity.
Qed.

Lemma checkWinner_spec_witness :
  validBoard bothLines = true /\
  exists l, firstLine bothLines = Some l /\
            checkWinner bothLines = at_ bothLines (fst (fst l)) /\
            (checkWinner bothLines = PLAYER \/ checkWinner bothLines = COMPUTER) /\
            hasLine bothLines (checkWinner bothLines) = true.
Proof.
  split; [reflexivity |].
  apply (proj1 (proj2 (checkWinner_spec bothLines eq_refl))).
  left. reflexivity.
Defined.

(** C4 as stated fails where both sides have a line: ['X'] holds the
    middle row, yet [checkWinner] returns ['O'], the mark of the first
    row. *)
Lemma checkWinner_both_lines :
  validBoard bothLines = true /\
  hasLine bothLines PLAYER = true /\
  checkWinner bothLines = COMPUTER /\
  ~ (checkWinner bothLines = PLAYER <-> hasLine bothLines PLAYER = true).
Proof.
  repeat split; try reflexivity.
  intros [_ H]. specialize (H eq_refl). discriminate H.
Qed.

(** ** Boards of actual play *)

Lemma at_set (b : Board) (i j : Z) (p : ascii) (m : Move) :
  In (i, j) allCells -> In m allCells ->
  at_ (set b i j p) m = if decide (m = (i, j)) then p else at_ b m.
Proof.
  intros Hin Hm. destruct m as [i' j'].
  case_decide as E; unfold at_; cbn [fst snd].
  - inversion E; subst. apply get_set_same, Hin.
  - apply get_set_other; auto.
Qed.

(** A new mark of side [p] cannot complete a line of another side. *)
Lemma hasLine_set_other (b : Board) (i j : Z) (p s : ascii) :
  In (i, j) allCells -> s <> p ->
  hasLine (set b i j p) s = true -> hasLine b s = true.
Proof.
  intros Hin Hsp Hl. apply hasLine_iff in Hl as [l [Hl Hline]].
  apply hasLine_iff. exists l. split; [exact Hl |].
  destruct (lines_cells l Hl) as [Hp [Hq Hr]].
  destruct l as [[p0 q0] r0]. simpl in Hp, Hq, Hr.
  unfold lineOf in *. rewrite !andb_true_iff, !Ascii.eqb_eq in *.
  rewrite !at_set in Hline by assumption.
  destruct Hline as [[H1 H2] H3].
  repeat split.
  - destruct (decide (p0 = (i, j))); congruence.
  - destruct (decide (q0 = (i, j))); congruence.
  - destruct (decide (r0 = (i, j))); congruence.
Qed.

Lemma reachable_valid (b : Board) (p : ascii) :
  reachable b p -> validBoard b = true /\ (p = PLAYER \/ p = COMPUTER).
Proof.
  induction 1 as [| b p i j Hr [IHv IHp] Hw Hin He | b Hr [IHv IHp] Hw].
  - split; [reflexivity | left; reflexivity].
  - split.
    + apply validBoard_set; auto. apply isCell_iff. tauto.
    + destruct IHp as [-> | ->]; [right | left]; reflexivity.
  - split; [exact IHv | left; reflexivity].
Qed.

(** C8: on every board of actual play the two sides never both have a
    line, and [checkWinner] answers one of the four outcomes. *)
Theorem reachable_one_winner (b : Board) (p : ascii) :
  reachable b p ->
  (hasLine b PLAYER && hasLine b COMPUTER = false) /\
  (checkWinner b = EMPTY \/ checkWinner b = PLAYER \/
   checkWinner b = COMPUTER \/ checkWinner b = DRAW).
Proof.
  intros Hr. split.
  - destruct Hr as [| b p i j Hr Hw Hin He | b Hr Hw]; [reflexivity | |].
    + destruct (reachable_valid b p Hr) as [_ Hp].
      apply checkWinner_EMPTY in Hw as [Hno _].
      destruct Hp as [-> | ->].
      * destruct (hasLine (set b i j PLAYER) COMPUTER) eqn:Hl;
          [| apply andb_false_r].
        apply hasLine_set_other in Hl; [| exact Hin | discriminate].
        rewrite (Hno COMPUTER COMPUTER_not_EMPTY) in Hl. discriminate.
      * destruct (hasLine (set b i j COMPUTER) PLAYER) eqn:Hl; [| reflexivity].
        apply hasLine_set_other in Hl; [| exact Hin | discriminate].
        rewrite (Hno PLAYER PLAYER_not_EMPTY) in Hl. discriminate.
    + apply checkWinner_EMPTY in Hw as [Hno _].
      rewrite (Hno PLAYER PLAYER_not_EMPTY). reflexivity.
  - apply checkWinner_outcomes. apply (reachable_valid b p Hr).
Qed.

Lemma reachable_one_winner_witness :
  reachable (set emptyBoard 1 1 PLAYER) COMPUTER /\
  hasLine (set emptyBoard 1 1 PLAYER) PLAYER
  && hasLine (set emptyBoard 1 1 PLAYER) COMPUTER = false.
Proof.
  assert (reachable (set emptyBoard 1 1 PLAYER) COMPUTER) as Hr.
  { apply (reach_move emptyBoard PLAYER 1 1).
    - apply reach_start.
    - reflexivity.
    - apply allCells_range. lia.
    - reflexivity. }
  split; [exact Hr |].
  exact (proj1 (reachable_one_winner _ _ Hr)).
Defined.

(** ** Minimax: the board is restored, and the search returns *)

Ltac loop_step rec b i j mark d a bt Hcell :=
  destruct (Ascii.eqb_spec (get b i j) EMPTY) as [Hcell | Hcell];
  [ destruct (rec (set b i j mark) (d + 1) _ a bt) as [[? ?]|] eqn:?Hrec | ].

Section LoopFrame.
Variable rec : Search.
Variable b : Board.
Variable depth : Z.

(** Every recursive call gives back the board it was given. *)
Hypothesis rec_frame : forall b' d m al be s bb,
  rec b' d m al be = Some (s, bb) -> bb = b'.

Lemma maxLoop_frame (cells : list Move) :
  (forall m, In m cells -> In m allCells) ->
  forall best al be v bb,
    maxLoop rec cells b depth best al be = Some (v, bb) -> bb = b.
Proof.
  induction cells as [| [i j] rest IH]; intros Hcells best al be v bb; simpl.
  - intros [= _ <-]. reflexivity.
  - assert (In (i, j) allCells) as Hin by (apply Hcells; left; reflexivity).
    assert (forall m, In m rest -> In m allCells) as Hrest
      by (intros m Hm; apply Hcells; right; exact Hm).
    loop_step rec b i j COMPUTER depth al be He.
    + apply rec_frame in Hrec. subst. rewrite (set_restore b i j) by assumption.
      destruct (be <=? Z.max al z); [intros [= _ <-]; reflexivity | apply IH, Hrest].
    + discriminate.
    + apply IH, Hrest.
Qed.

Lemma minLoop_frame (cells : list Move) :
  (forall m, In m cells -> In m allCells) ->
  forall best al be v bb,
    minLoop rec cells b depth best al be = Some (v, bb) -> bb = b.
Proof.
  induction cells as [| [i j] rest IH]; intros Hcells best al be v bb; simpl.
  - intros [= _ <-]. reflexivity.
  - assert (In (i, j) allCells) as Hin by (apply Hcells; left; reflexivity).
    assert (forall m, In m rest -> In m allCells) as Hrest
      by (intros m Hm; apply Hcells; right; exact Hm).
    loop_step rec b i j PLAYER depth al be He.
    + apply rec_frame in Hrec. subst. rewrite (set_restore b i j) by assumption.
      destruct (Z.min be z <=? al); [intros [= _ <-]; reflexivity | apply IH, Hrest].
    + discriminate.
    + apply IH, Hrest.
Qed.

Lemma maxLoopPlain_frame (cells : list Move) :
  (forall m, In m cells -> In m allCells) ->
  forall best al be v bb,
    maxLoopPlain rec cells b depth best al be = Some (v, bb) -> bb = b.
Proof.
  induction cells as [| [i j] rest IH]; intros Hcells best al be v bb; simpl.
  - intros [= _ <-]. reflexivity.
  - assert (In (i, j) allCells) as Hin by (apply Hcells; left; reflexivity).
    assert (forall m, In m rest -> In m allCells) as Hrest
      by (intros m Hm; apply Hcells; right; exact Hm).
    loop_step rec b i j COMPUTER depth al be He.
    + apply rec_frame in Hrec. subst. rewrite (set_restore b i j) by assumption.
      apply IH, Hrest.
    + discriminate.
    + apply IH, Hrest.
Qed.

Lemma minLoopPlain_frame (cells : list Move) :
  (forall m, In m cells -> In m allCells) ->
  forall best al be v bb,
    minLoopPlain rec cells b depth best al be = Some (v, bb) -> bb = b.
Proof.
  induction cells as [| [i j] rest IH]; intros Hcells best al be v bb; simpl.
  - intros [= _ <-]. reflexivity.
  - assert (In (i, j) allCells) as Hin by (apply Hcells; left; reflexivity).
    assert (forall m, In m rest -> In m allCells) as Hrest
      by (intros m Hm; apply Hcells; right; exact Hm).
    loop_step rec b i j PLAYER depth al be He.
    + apply rec_frame in Hrec. subst. rewrite (set_restore b i j) by assumption.
      apply IH, Hrest.
    + discriminate.
    + apply IH, Hrest.
Qed.

(** The scan of the driver restores the board as well. *)
Lemma driverLoop_frame (cells : list Move) :
  (forall m, In m cells -> In m allCells) ->
  forall best mv v mv' bb,
    driverLoop rec cells b best mv = Some (v, mv', bb) -> bb = b.
Proof.
  induction cells as [| [i j] rest IH]; intros Hcells best mv v mv' bb; simpl.
  - intros [= _ _ <-]. reflexivity.
  - assert (In (i, j) allCells) as Hin by (apply Hcells; left; reflexivity).
    assert (forall m, In m rest -> In m allCells) as Hrest
      by (intros m Hm; apply Hcells; right; exact Hm).
    destruct (Ascii.eqb_spec (get b i j) EMPTY) as [He | He]; [| apply IH, Hrest].
    destruct (rec (set b i j COMPUTER) 0 false INT_MIN INT_MAX) as [[s b1]|] eqn:Hrec;
      [| discriminate].
    apply rec_frame in Hrec. subst. rewrite (set_restore b i j) by assumption.
    destruct (s >? best); apply IH, Hrest.
Qed.
End LoopFrame.

Lemma minimax_frame (fuel : nat) :
  forall b d m al be v bb, minimax fuel b d m al be = Some (v, bb) -> bb = b.
Proof.
  induction fuel as [| f IH]; intros b d m al be v bb; [discriminate |].
  cbn [minimax minimaxPlain].
  destruct (Ascii.eqb (checkWinner b) COMPUTER); [intros [= _ <-]; reflexivity |].
  destruct (Ascii.eqb (checkWinner b) PLAYER); [intros [= _ <-]; reflexivity |].
  destruct (Ascii.eqb (checkWinner b) DRAW); [intros [= _ <-]; reflexivity |].
  destruct m.
  - apply maxLoop_frame; auto.
  - apply minLoop_frame; auto.
Qed.

Lemma minimaxPlain_frame (fuel : nat) :
  forall b d m al be v bb, minimaxPlain fuel b d m al be = Some (v, bb) -> bb = b.
Proof.
  induction fuel as [| f IH]; intros b d m al be v bb; [discriminate |].
  cbn [minimax minimaxPlain].
  destruct (Ascii.eqb (checkWinner b) COMPUTER); [intros [= _ <-]; reflexivity |].
  destruct (Ascii.eqb (checkWinner b) PLAYER); [intros [= _ <-]; reflexivity |].
  destruct (Ascii.eqb (checkWinner b) DRAW); [intros [= _ <-]; reflexivity |].
  destruct m.
  - apply maxLoopPlain_frame; auto.
  - apply minLoopPlain_frame; auto.
Qed.

Section LoopReturns.
Variable rec : Search.
Variable b : Board.
Variable depth : Z.

(** Every recursive call on the board with one more mark returns, and
    gives that board back. *)
Hypothesis rec_returns : forall i j mark d m al be,
  In (i, j) allCells -> get b i j = EMPTY -> mark <> EMPTY ->
  exists s, rec (set b i j mark) d m al be = Some (s, set b i j mark).

Lemma maxLoop_returns (cells : list Move) :
  (forall m, In m cells -> In m allCells) ->
  forall best al be, exists v, maxLoop rec cells b depth best al be = Some (v, b).
Proof.
  induction cells as [| [i j] rest IH]; intros Hcells best al be; simpl; [eauto |].
  assert (In (i, j) allCells) as Hin by (apply Hcells; left; reflexivity).
  assert (forall m, In m rest -> In m allCells) as Hrest
    by (intros m Hm; apply Hcells; right; exact Hm).
  destruct (Ascii.eqb_spec (get b i j) EMPTY) as [He | He]; [| apply IH, Hrest].
  destruct (rec_returns i j COMPUTER (depth + 1) false al be Hin He COMPUTER_not_EMPTY)
    as [s ->].
  rewrite (set_restore b i j) by assumption.
  destruct (be <=? Z.max al s); [eauto | apply IH, Hrest].
Qed.

Lemma minLoop_returns (cells : list Move) :
  (forall m, In m cells -> In m allCells) ->
  forall best al be, exists v, minLoop rec cells b depth best al be = Some (v, b).
Proof.
  induction cells as [| [i j] rest IH]; intros Hcells best al be; simpl; [eauto |].
  assert (In (i, j) allCells) as Hin by (apply Hcells; left; reflexivity).
  assert (forall m, In m rest -> In m allCells) as Hrest
    by (intros m Hm; apply Hcells; right; exact Hm).
  destruct (Ascii.eqb_spec (get b i j) EMPTY) as [He | He]; [| apply IH, Hrest].
  destruct (rec_returns i j PLAYER (depth + 1) true al be Hin He PLAYER_not_EMPTY)
    as [s ->].
  rewrite (set_restore b i j) by assumption.
  destruct (Z.min be s <=? al); [eauto | apply IH, Hrest].
Qed.

Lemma driverLoop_returns (cells : list Move) :
  (forall m, In m cells -> In m allCells) ->
  forall best mv, exists v mv', driverLoop rec cells b best mv = Some (v, mv', b).
Proof.
  induction cells as [| [i j] rest IH]; intros Hcells best mv; simpl; [eauto |].
  assert (In (i, j) allCells) as Hin by (apply Hcells; left; reflexivity).
  assert (forall m, In m rest -> In m allCells) as Hrest
    by (intros m Hm; apply Hcells; right; exact Hm).
  destruct (Ascii.eqb_spec (get b i j) EMPTY) as [He | He]; [| apply IH, Hrest].
  destruct (rec_returns i j COMPUTER 0 false INT_MIN INT_MAX Hin He COMPUTER_not_EMPTY)
    as [s ->].
  rewrite (set_restore b i j) by assumption.
  destruct (s >? best); apply IH, Hrest.
Qed.
End LoopReturns.

(** With more steps than free cells the recursion reaches its end on every
    path: each level of the recursion marks one more cell. *)
Lemma minimax_returns (fuel : nat) :
  forall b d m al be,
    (length (freeCells b) < fuel)%nat ->
    exists v, minimax fuel b d m al be = Some (v, b).
Proof.
  induction fuel as [| f IH]; intros b d m al be Hfuel; [lia |].
  cbn [minimax].
  destruct (Ascii.eqb (checkWinner b) COMPUTER); [eauto |].
  destruct (Ascii.eqb (checkWinner b) PLAYER); [eauto |].
  destruct (Ascii.eqb (checkWinner b) DRAW); [eauto |].
  assert (forall i j mark d m al be,
    In (i, j) allCells -> get b i j = EMPTY -> mark <> EMPTY ->
    exists s, minimax f (set b i j mark) d m al be = Some (s, set b i j mark)) as Hrec.
  { intros i j mark d' m' al' be' Hin He Hmark. apply IH.
    pose proof (freeCells_set b i j mark Hin He Hmark). lia. }
  destruct m.
  - apply maxLoop_returns; auto.
  - apply minLoop_returns; auto.
Qed.

(** ** Folding maxima and minima *)

Section Folds.
Variable val : Move -> Z.

Lemma foldMax_cons m l init :
  foldMax val (m :: l) init = foldMax val l (Z.max init (val m)).
Proof. reflexivity. Qed.

Lemma foldMin_cons m l init :
  foldMin val (m :: l) init = foldMin val l (Z.min init (val m)).
Proof. reflexivity. Qed.

Lemma foldMax_ge_init l init : init <= foldMax val l init.
Proof.
  revert init; induction l as [| m l IH]; intros init; [unfold foldMax; simpl; lia |].
  rewrite foldMax_cons. specialize (IH (Z.max init (val m))). lia.
Qed.

Lemma foldMin_le_init l init : foldMin val l init <= init.
Proof.
  revert init; induction l as [| m l IH]; intros init; [unfold foldMin; simpl; lia |].
  rewrite foldMin_cons. specialize (IH (Z.min init (val m))). lia.
Qed.

Lemma foldMax_bounds l init lo hi :
  lo <= init <= hi -> (forall m, In m l -> lo <= val m <= hi) ->
  lo <= foldMax val l init <= hi.
Proof.
  revert init; induction l as [| m l IH]; intros init Hi Hl;
    [unfold foldMax; simpl; lia |].
  rewrite foldMax_cons. apply IH.
  - specialize (Hl m (or_introl eq_refl)). lia.
  - intros m' Hm'. apply Hl. right; exact Hm'.
Qed.

Lemma foldMin_bounds l init lo hi :
  lo <= init <= hi -> (forall m, In m l -> lo <= val m <= hi) ->
  lo <= foldMin val l init <= hi.
Proof.
  revert init; induction l as [| m l IH]; intros init Hi Hl;
    [unfold foldMin; simpl; lia |].
  rewrite foldMin_cons. apply IH.
  - specialize (Hl m (or_introl eq_refl)). lia.
  - intros m' Hm'. apply Hl. right; exact Hm'.
Qed.

(** The maximum reaches [t] exactly when the start or some element does. *)
Lemma foldMax_reaches l init t :
  t <= foldMax val l init <-> t <= init \/ exists m, In m l /\ t <= val m.
Proof.
  revert init; induction l as [| m l IH]; intros init.
  - unfold foldMax; simpl. split; [auto | intros [H | [m [[] _]]]; exact H].
  - rewrite foldMax_cons, IH. split.
    + intros [H | [m' [Hm' Hv]]]; [| right; exists m'; split; [right |]; assumption].
      destruct (Z_le_gt_dec t init); [left; assumption |].
      right; exists m; split; [left; reflexivity | lia].
    + intros [H | [m' [[<- | Hm'] Hv]]]; [left; lia | left; lia |].
      right; exists m'; split; assumption.
Qed.

(** The minimum stays at or above [t] exactly when the start and every
    element do. *)
Lemma foldMin_stays l init t :
  t <= foldMin val l init <-> t <= init /\ forall m, In m l -> t <= val m.
Proof.
  revert init; induction l as [| m l IH]; intros init.
  - unfold foldMin; simpl.
    split; [intros H; split; [exact H | intros m []] | intros [H _]; exact H].
  - rewrite foldMin_cons, IH. split.
    + intros [H Hall]. split; [lia |]. intros m' [<- | Hm']; [lia | auto].
    + intros [H Hall]. split; [specialize (Hall m (or_introl eq_refl)); lia |].
      intros m' Hm'. apply Hall. right; exact Hm'.
Qed.
End Folds.

Lemma gameValue_unfold (f : nat) (b : Board) (m : bool) :
  gameValue (S f) b m =
  if Ascii.eqb (checkWinner b) COMPUTER then 10
  else if Ascii.eqb (checkWinner b) PLAYER then -10
  else if Ascii.eqb (checkWinner b) DRAW then 0
  else if m then foldMax (fun c => gameValue f (set b (fst c) (snd c) COMPUTER) false)
                         (freeCells b) INT_MIN
  else foldMin (fun c => gameValue f (set b (fst c) (snd c) PLAYER) true)
               (freeCells b) INT_MAX.
Proof. reflexivity. Qed.

Lemma gameValue_range (fuel : nat) :
  forall b m, INT_MIN <= gameValue fuel b m <= INT_MAX.
Proof.
  induction fuel as [| f IH]; intros b m; [unfold INT_MIN, INT_MAX; simpl; lia |].
  rewrite gameValue_unfold.
  destruct (Ascii.eqb (checkWinner b) COMPUTER); [unfold INT_MIN, INT_MAX; lia |].
  destruct (Ascii.eqb (checkWinner b) PLAYER); [unfold INT_MIN, INT_MAX; lia |].
  destruct (Ascii.eqb (checkWinner b) DRAW); [unfold INT_MIN, INT_MAX; lia |].
  destruct m.
  - apply foldMax_bounds; [unfold INT_MIN, INT_MAX; lia | intros; apply IH].
  - apply foldMin_bounds; [unfold INT_MIN, INT_MAX; lia | intros; apply IH].
Qed.

(** ** Plain minimax computes the game value *)

Lemma filter_cons_empty (b : Board) (i j : Z) (rest : list Move) :
  List.filter (isEmptyAt b) ((i, j) :: rest) =
  if Ascii.eqb (get b i j) EMPTY then (i, j) :: List.filter (isEmptyAt b) rest
  else List.filter (isEmptyAt b) rest.
Proof. reflexivity. Qed.

Lemma maxLoopPlain_value (rec : Search) (b : Board) (depth : Z) (val : Move -> Z)
    (cells : list Move) :
  (forall m, In m cells -> In m allCells) ->
  (forall i j al be, In (i, j) allCells -> get b i j = EMPTY ->
     rec (set b i j COMPUTER) (depth + 1) false al be
     = Some (val (i, j), set b i j COMPUTER)) ->
  forall best al be,
    maxLoopPlain rec cells b depth best al be
    = Some (foldMax val (List.filter (isEmptyAt b) cells) best, b).
Proof.
  intros Hcells Hrec. induction cells as [| [i j] rest IH]; intros best al be;
    [reflexivity |].
  assert (In (i, j) allCells) as Hin by (apply Hcells; left; reflexivity).
  assert (forall m, In m rest -> In m allCells) as Hrest
    by (intros m Hm; apply Hcells; right; exact Hm).
  rewrite filter_cons_empty. cbn [maxLoopPlain].
  destruct (Ascii.eqb_spec (get b i j) EMPTY) as [He | He]; [| apply IH, Hrest].
  rewrite Hrec, (set_restore b i j), foldMax_cons by assumption.
  apply IH, Hrest.
Qed.

Lemma minLoopPlain_value (rec : Search) (b : Board) (depth : Z) (val : Move -> Z)
    (cells : list Move) :
  (forall m, In m cells -> In m allCells) ->
  (forall i j al be, In (i, j) allCells -> get b i j = EMPTY ->
     rec (set b i j PLAYER) (depth + 1) true al be
     = Some (val (i, j), set b i j PLAYER)) ->
  forall best al be,
    minLoopPlain rec cells b depth best al be
    = Some (foldMin val (List.filter (isEmptyAt b) cells) best, b).
Proof.
  intros Hcells Hrec. induction cells as [| [i j] rest IH]; intros best al be;
    [reflexivity |].
  assert (In (i, j) allCells) as Hin by (apply Hcells; left; reflexivity).
  assert (forall m, In m rest -> In m allCells) as Hrest
    by (intros m Hm; apply Hcells; right; exact Hm).
  rewrite filter_cons_empty. cbn [minLoopPlain].
  destruct (Ascii.eqb_spec (get b i j) EMPTY) as [He | He]; [| apply IH, Hrest].
  rewrite Hrec, (set_restore b i j), foldMin_cons by assumption.
  apply IH, Hrest.
Qed.

Lemma minimaxPlain_value (fuel : nat) :
  forall b d m al be,
    (length (freeCells b) < fuel)%nat ->
    minimaxPlain fuel b d m al be = Some (gameValue fuel b m, b).
Proof.
  induction fuel as [| f IH]; intros b d m al be Hfuel; [lia |].
  rewrite gameValue_unfold. cbn [minimaxPlain].
  destruct (Ascii.eqb (checkWinner b) COMPUTER); [reflexivity |].
  destruct (Ascii.eqb (checkWinner b) PLAYER); [reflexivity |].
  destruct (Ascii.eqb (checkWinner b) DRAW); [reflexivity |].
  destruct m.
  - apply (maxLoopPlain_value _ b d
             (fun c => gameValue f (set b (fst c) (snd c) COMPUTER) false)); auto.
    intros i j al' be' Hin He. apply IH.
    pose proof (freeCells_set b i j COMPUTER Hin He COMPUTER_not_EMPTY). lia.
  - apply (minLoopPlain_value _ b d
             (fun c => gameValue f (set b (fst c) (snd c) PLAYER) true)); auto.
    intros i j al' be' Hin He. apply IH.
    pose proof (freeCells_set b i j PLAYER Hin He PLAYER_not_EMPTY). lia.
Qed.

(** ** Alpha-beta pruning against the game value *)

Lemma maxLoop_window (rec : Search) (b : Board) (depth : Z) (val : Move -> Z)
    (al0 be : Z) (cells : list Move) :
  (forall m, In m cells -> In m allCells) ->
  (forall i j al s bb, In (i, j) allCells -> get b i j = EMPTY ->
     INT_MIN <= al < be -> be <= INT_MAX ->
     rec (set b i j COMPUTER) (depth + 1) false al be = Some (s, bb) ->
     bb = set b i j COMPUTER /\ within al be s (val (i, j)) /\ INT_MIN <= s <= INT_MAX) ->
  INT_MIN <= al0 -> be <= INT_MAX ->
  forall best bestP al v bb,
    al = Z.max al0 best -> al < be ->
    bestP <= best -> (al0 < best -> best = bestP) -> INT_MIN <= best <= INT_MAX ->
    maxLoop rec cells b depth best al be = Some (v, bb) ->
    within al0 be v (foldMax val (List.filter (isEmptyAt b) cells) bestP)
    /\ INT_MIN <= v <= INT_MAX.
Proof.
  intros Hcells Hrec Hal0 Hbe.
  induction cells as [| [i j] rest IH];
    intros best bestP al v bb Hal Hlt HP Heq Hrange.
  - intros [= <- _]. unfold within, foldMax; simpl. lia.
  - assert (In (i, j) allCells) as Hin by (apply Hcells; left; reflexivity).
    assert (forall m, In m rest -> In m allCells) as Hrest
      by (intros m Hm; apply Hcells; right; exact Hm).
    rewrite filter_cons_empty. cbn [maxLoop].
    destruct (Ascii.eqb_spec (get b i j) EMPTY) as [He | He];
      [| apply IH; assumption].
    destruct (rec (set b i j COMPUTER) (depth + 1) false al be) as [[s b1]|] eqn:Hr;
      [| discriminate].
    destruct (Hrec i j al s b1 Hin He) as [-> [Hw Hs]]; [lia | lia | exact Hr |].
    rewrite (set_restore b i j), foldMax_cons by assumption.
    unfold within in Hw.
    destruct (Z.leb_spec be (Z.max al s)) as [Hcut | Hgo].
    + intros [= <- _].
      pose proof (foldMax_ge_init val (List.filter (isEmptyAt b) rest)
                    (Z.max bestP (val (i, j)))).
      unfold within. lia.
    + apply IH; try assumption; lia.
Qed.

Lemma minLoop_window (rec : Search) (b : Board) (depth : Z) (val : Move -> Z)
    (al be0 : Z) (cells : list Move) :
  (forall m, In m cells -> In m allCells) ->
  (forall i j be s bb, In (i, j) allCells -> get b i j = EMPTY ->
     INT_MIN <= al < be -> be <= INT_MAX ->
     rec (set b i j PLAYER) (depth + 1) true al be = Some (s, bb) ->
     bb = set b i j PLAYER /\ within al be s (val (i, j)) /\ INT_MIN <= s <= INT_MAX) ->
  INT_MIN <= al -> be0 <= INT_MAX ->
  forall best bestP be v bb,
    be = Z.min be0 best -> al < be ->
    best <= bestP -> (best < be0 -> best = bestP) -> INT_MIN <= best <= INT_MAX ->
    minLoop rec cells b depth best al be = Some (v, bb) ->
    within al be0 v (foldMin val (List.filter (isEmptyAt b) cells) bestP)
    /\ INT_MIN <= v <= INT_MAX.
Proof.
  intros Hcells Hrec Hal Hbe0.
  induction cells as [| [i j] rest IH];
    intros best bestP be v bb Hbe Hlt HP Heq Hrange.
  - intros [= <- _]. unfold within, foldMin; simpl. lia.
  - assert (In (i, j) allCells) as Hin by (apply Hcells; left; reflexivity).
    assert (forall m, In m rest -> In m allCells) as Hrest
      by (intros m Hm; apply Hcells; right; exact Hm).
    rewrite filter_cons_empty. cbn [minLoop].
    destruct (Ascii.eqb_spec (get b i j) EMPTY) as [He | He];
      [| apply IH; assumption].
    destruct (rec (set b i j PLAYER) (depth + 1) true al be) as [[s b1]|] eqn:Hr;
      [| discriminate].
    destruct (Hrec i j be s b1 Hin He) as [-> [Hw Hs]]; [lia | lia | exact Hr |].
    rewrite (set_restore b i j), foldMin_cons by assumption.
    unfold within in Hw.
    destruct (Z.leb_spec (Z.min be s) al) as [Hcut | Hgo].
    + intros [= <- _].
      pose proof (foldMin_le_init val (List.filter (isEmptyAt b) rest)
                    (Z.min bestP (val (i, j)))).
      unfold within. lia.
    + apply IH; try assumption; lia.
Qed.

Lemma minimax_window (fuel : nat) :
  forall b d m al be v bb,
    (length (freeCells b) < fuel)%nat ->
    INT_MIN <= al < be -> be <= INT_MAX ->
    minimax fuel b d m al be = Some (v, bb) ->
    bb = b /\ within al be v (gameValue fuel b m) /\ INT_MIN <= v <= INT_MAX.
Proof.
  induction fuel as [| f IH]; intros b d m al be v bb Hfuel Hal Hbe; [lia |].
  intros Hrun. split; [apply (minimax_frame _ _ _ _ _ _ _ _ Hrun) |].
  revert Hrun. rewrite gameValue_unfold. cbn [minimax].
  destruct (Ascii.eqb (checkWinner b) COMPUTER);
    [intros [= <- _]; unfold within, INT_MIN, INT_MAX; lia |].
  destruct (Ascii.eqb (checkWinner b) PLAYER);
    [intros [= <- _]; unfold within, INT_MIN, INT_MAX; lia |].
  destruct (Ascii.eqb (checkWinner b) DRAW);
    [intros [= <- _]; unfold within, INT_MIN, INT_MAX; lia |].
  destruct m.
  - apply (maxLoop_window _ b d
             (fun c => gameValue f (set b (fst c) (snd c) COMPUTER) false) al be);
      auto; try lia; try (unfold INT_MIN, INT_MAX; lia).
    intros i j al' s bb' Hin He Hal' Hbe' Hr. apply (IH _ _ _ _ _ _ _) in Hr; auto.
    pose proof (freeCells_set b i j COMPUTER Hin He COMPUTER_not_EMPTY). lia.
  - apply (minLoop_window _ b d
             (fun c => gameValue f (set b (fst c) (snd c) PLAYER) true) al be);
      auto; try lia; try (unfold INT_MIN, INT_MAX; lia).
    intros i j be' s bb' Hin He Hal' Hbe' Hr. apply (IH _ _ _ _ _ _ _) in Hr; auto.
    pose proof (freeCells_set b i j PLAYER Hin He PLAYER_not_EMPTY). lia.
Qed.

(** With the full window the pruned search returns the game value. *)
Lemma minimax_value (fuel : nat) (b : Board) (d : Z) (m : bool) :
  (length (freeCells b) < fuel)%nat ->
  minimax fuel b d m INT_MIN INT_MAX = Some (gameValue fuel b m, b).
Proof.
  intros Hfuel.
  destruct (minimax_returns fuel b d m INT_MIN INT_MAX Hfuel) as [v Hv].
  destruct (minimax_window fuel b d m INT_MIN INT_MAX v b Hfuel) as [_ [Hw Hr]];
    [unfold INT_MIN, INT_MAX; lia | lia | exact Hv |].
  pose proof (gameValue_range fuel b m) as Hg.
  rewrite Hv. f_equal. f_equal. unfold within in Hw. lia.
Qed.

(** ** The driver *)

(** The scan keeps the first cell that reaches the running maximum. *)
Lemma driverLoop_best (search : Search) (b : Board) (val : Move -> Z)
    (cells : list Move) :
  (forall m, In m cells -> In m allCells) ->
  (forall i j, In (i, j) allCells -> get b i j = EMPTY ->
     search (set b i j COMPUTER) 0 false INT_MIN INT_MAX
     = Some (val (i, j), set b i j COMPUTER)) ->
  forall best mv,
    (mv = NO_MOVE /\ best = INT_MIN) \/ (In mv (freeCells b) /\ val mv = best) ->
    exists mv',
      driverLoop search cells b best mv
      = Some (foldMax val (List.filter (isEmptyAt b) cells) best, mv', b) /\
      ((mv' = NO_MOVE /\ foldMax val (List.filter (isEmptyAt b) cells) best = INT_MIN) \/
       (In mv' (freeCells b) /\
        val mv' = foldMax val (List.filter (isEmptyAt b) cells) best)).
Proof.
  intros Hcells Hsearch. induction cells as [| [i j] rest IH]; intros best mv HJ.
  - exists mv. split; [reflexivity | exact HJ].
  - assert (In (i, j) allCells) as Hin by (apply Hcells; left; reflexivity).
    assert (forall m, In m rest -> In m allCells) as Hrest
      by (intros m Hm; apply Hcells; right; exact Hm).
    rewrite filter_cons_empty. cbn [driverLoop].
    destruct (Ascii.eqb_spec (get b i j) EMPTY) as [He | He]; [| apply IH; assumption].
    rewrite Hsearch, (set_restore b i j), foldMax_cons by assumption.
    destruct (Z.gtb_spec (val (i, j)) best) as [Hgt | Hle].
    + replace (Z.max best (val (i, j))) with (val (i, j)) by lia.
      apply IH; [assumption |]. right. split; [| reflexivity].
      apply freeCells_In. auto.
    + replace (Z.max best (val (i, j))) with best by lia.
      apply IH; assumption.
Qed.

(** ** C1: pruning does not change the search *)

(** C1: for every board (in particular every board with at most 6 free
    cells), [minimax] called with the full window [(INT_MIN, INT_MAX)]
    returns the score of plain minimax, and the driver's scan ends with the
    same best score and the same move, and [minimaxMove] plays the same
    move, whether it scores the cells with the pruned or the plain search. *)
Theorem pruning_preserves_result (fuel : nat) (b : Board) (depth : Z)
    (isMaximizing : bool) (moves : list Move) :
  (length (freeCells b) < fuel)%nat ->
  (exists v,
     minimax fuel b depth isMaximizing INT_MIN INT_MAX = Some (v, b) /\
     minimaxPlain fuel b depth isMaximizing INT_MIN INT_MAX = Some (v, b)) /\
  (exists score mv,
     driverChoice (minimax fuel) b = Some (score, mv, b) /\
     driverChoice (minimaxPlain fuel) b = Some (score, mv, b)) /\
  (exists r,
     minimaxMoveWith (minimax fuel) b moves = Some r /\
     minimaxMoveWith (minimaxPlain fuel) b moves = Some r).
Proof.
  intros Hfuel.
  assert (forall i j, In (i, j) allCells -> get b i j = EMPTY ->
            (length (freeCells (set b i j COMPUTER)) < fuel)%nat) as Hsub.
  { intros i j Hin He.
    pose proof (freeCells_set b i j COMPUTER Hin He COMPUTER_not_EMPTY). lia. }
  pose (val := fun c : Move => gameValue fuel (set b (fst c) (snd c) COMPUTER) false).
  destruct (driverLoop_best (minimax fuel) b val allCells) with (best := INT_MIN)
    (mv := NO_MOVE) as [mv [Hd _]]; auto.
  { intros i j Hin He. apply minimax_value. auto. }
  destruct (driverLoop_best (minimaxPlain fuel) b val allCells) with (best := INT_MIN)
    (mv := NO_MOVE) as [mv' [Hd' _]]; auto.
  { intros i j Hin He. apply minimaxPlain_value. auto. }
  assert (driverChoice (minimax fuel) b = driverChoice (minimaxPlain fuel) b) as Heq.
  { unfold driverChoice.
    assert (forall cells best m0, (forall m, In m cells -> In m allCells) ->
              driverLoop (minimax fuel) cells b best m0
              = driverLoop (minimaxPlain fuel) cells b best m0) as Hext.
    { induction cells as [| [i j] rest IH]; intros best m0 Hcells; [reflexivity |].
      assert (In (i, j) allCells) as Hin by (apply Hcells; left; reflexivity).
      assert (forall m, In m rest -> In m allCells) as Hrest
        by (intros m Hm; apply Hcells; right; exact Hm).
      cbn [driverLoop].
      destruct (Ascii.eqb_spec (get b i j) EMPTY) as [He | He]; [| apply IH, Hrest].
      rewrite minimax_value, minimaxPlain_value by auto.
      rewrite (set_restore b i j) by assumption.
      destruct (_ >? best); apply IH, Hrest. }
    apply Hext. auto. }
  split; [| split].
  - exists (gameValue fuel b isMaximizing).
    split; [apply minimax_value | apply minimaxPlain_value]; exact Hfuel.
  - exists (foldMax val (List.filter (isEmptyAt b) allCells) INT_MIN), mv.
    split; [exact Hd | rewrite <- Heq; exact Hd].
  - unfold minimaxMoveWith. rewrite <- Heq. unfold driverChoice. rewrite Hd.
    destruct (negb (fst mv =? -1)); eauto.
Qed.

Lemma pruning_preserves_result_witness :
  (length (freeCells midGame) < 10)%nat /\
  exists v,
    minimax 10 midGame 0 true INT_MIN INT_MAX = Some (v, midGame) /\
    minimaxPlain 10 midGame 0 true INT_MIN INT_MAX = Some (v, midGame).
Proof.
  assert (length (freeCells midGame) < 10)%nat as H by (vm_compute; lia).
  split; [exact H |].
  exact (proj1 (pruning_preserves_result 10 midGame 0 true [] H)).
Defined.

(** ** C2: the driver's move is as good as any *)

Lemma secures_inv (o : bool) (b : Board) :
  secures o b ->
  checkWinner b = COMPUTER \/ checkWinner b = DRAW \/
  (checkWinner b = EMPTY /\
   if o then exists i j, In (i, j) allCells /\ get b i j = EMPTY /\
                         secures false (set b i j COMPUTER)
   else forall i j, In (i, j) allCells -> get b i j = EMPTY ->
                    secures true (set b i j PLAYER)).
Proof.
  destruct 1 as [o b H | o b H | b i j Hw Hin He Hs | b Hw Hall]; auto.
  - right; right. split; [exact Hw |]. exists i, j. auto.
Qed.

Ltac verdict_clash :=
  match goal with
  | H1 : checkWinner ?b = _, H2 : checkWinner ?b = _ |- _ =>
    rewrite H1 in H2; discriminate H2
  end.

Lemma secures_value (fuel : nat) :
  forall b o,
    validBoard b = true -> (length (freeCells b) < fuel)%nat ->
    (secures o b <-> 0 <= gameValue fuel b o).
Proof.
  induction fuel as [| f IH]; intros b o Hv Hfuel; [lia |].
  rewrite gameValue_unfold.
  assert (forall i j mark, In (i, j) (freeCells b) -> isCell mark = true ->
            mark <> EMPTY ->
            forall o', secures o' (set b i j mark)
                       <-> 0 <= gameValue f (set b i j mark) o') as Hchild.
  { intros i j mark Hfree Hmark Hne o'. apply freeCells_In in Hfree as [Hin He].
    apply IH; [apply validBoard_set; auto |].
    pose proof (freeCells_set b i j mark Hin He Hne). lia. }
  destruct (checkWinner_outcomes b Hv) as [Hw | [Hw | [Hw | Hw]]]; rewrite Hw.
  - (* the game is on *)
    cbn [Ascii.eqb EMPTY COMPUTER PLAYER DRAW Bool.eqb].
    destruct o.
    + rewrite foldMax_reaches. split.
      * intros Hs.
        destruct (secures_inv _ _ Hs) as [? | [? | [_ [i [j [Hin [He Hs']]]]]]];
          [verdict_clash | verdict_clash |].
        assert (In (i, j) (freeCells b)) as Hfree by (apply freeCells_In; auto).
        right. exists (i, j). split; [exact Hfree |].
        apply (proj1 (Hchild i j COMPUTER Hfree eq_refl COMPUTER_not_EMPTY false)), Hs'.
      * intros [Hbad | [[i j] [Hfree Hval]]]; [unfold INT_MIN in Hbad; lia |].
        pose proof Hfree as Hfree'. apply freeCells_In in Hfree' as [Hin He].
        apply (sec_own b i j); auto.
        apply (proj2 (Hchild i j COMPUTER Hfree eq_refl COMPUTER_not_EMPTY false)), Hval.
    + rewrite foldMin_stays. split.
      * intros Hs.
        destruct (secures_inv _ _ Hs) as [? | [? | [_ Hall]]];
          [verdict_clash | verdict_clash |].
        split; [unfold INT_MAX; lia |]. intros [i j] Hfree.
        pose proof Hfree as Hfree'. apply freeCells_In in Hfree' as [Hin He].
        apply (proj1 (Hchild i j PLAYER Hfree eq_refl PLAYER_not_EMPTY true)).
        apply Hall; assumption.
      * intros [_ Hall]. apply sec_opp; [exact Hw |]. intros i j Hin He.
        assert (In (i, j) (freeCells b)) as Hfree by (apply freeCells_In; auto).
        apply (proj2 (Hchild i j PLAYER Hfree eq_refl PLAYER_not_EMPTY true)).
        apply (Hall (i, j) Hfree).
  - cbn [Ascii.eqb EMPTY COMPUTER PLAYER DRAW Bool.eqb]. split; [| lia].
    intros Hs. destruct (secures_inv _ _ Hs) as [? | [? | [? _]]]; verdict_clash.
  - cbn [Ascii.eqb EMPTY COMPUTER PLAYER DRAW Bool.eqb]. split; [lia |].
    intros _. apply sec_won, Hw.
  - cbn [Ascii.eqb EMPTY COMPUTER PLAYER DRAW Bool.eqb]. split; [lia |].
    intros _. apply sec_draw, Hw.
Qed.

(** C2: whenever some free cell lets the automated side secure at least a
    draw against every play of the opponent, the driver's scan ends on
    such a cell, and [minimaxMove] plays it.  This holds on every valid
    board, whatever the number of free cells. *)
Theorem minimaxMove_never_forfeits (fuel : nat) (b : Board) (moves : list Move) :
  validBoard b = true ->
  (length (freeCells b) < fuel)%nat ->
  (exists i j, In (i, j) allCells /\ get b i j = EMPTY /\
               secures false (set b i j COMPUTER)) ->
  exists score i j,
    driverChoice (minimax fuel) b = Some (score, (i, j), b) /\
    In (i, j) allCells /\ get b i j = EMPTY /\
    secures false (set b i j COMPUTER) /\
    minimaxMove fuel b moves = Some (set b i j COMPUTER, moves ++ [(i, j)]).
Proof.
  intros Hv Hfuel [i0 [j0 [Hin0 [He0 Hs0]]]].
  assert (forall i j, In (i, j) allCells -> get b i j = EMPTY ->
            (length (freeCells (set b i j COMPUTER)) < fuel)%nat) as Hsub.
  { intros i j Hin He.
    pose proof (freeCells_set b i j COMPUTER Hin He COMPUTER_not_EMPTY). lia. }
  assert (forall i j, In (i, j) allCells -> get b i j = EMPTY ->
            (secures false (set b i j COMPUTER)
             <-> 0 <= gameValue fuel (set b i j COMPUTER) false)) as Hsec.
  { intros i j Hin He. apply secures_value; [| auto].
    apply validBoard_set; auto. }
  pose (val := fun c : Move => gameValue fuel (set b (fst c) (snd c) COMPUTER) false).
  destruct (driverLoop_best (minimax fuel) b val allCells) with (best := INT_MIN)
    (mv := NO_MOVE) as [mv [Hd HJ]]; auto.
  { intros i j Hin He. apply minimax_value. auto. }
  assert (0 <= foldMax val (List.filter (isEmptyAt b) allCells) INT_MIN) as Hpos.
  { apply foldMax_reaches. right. exists (i0, j0).
    split; [apply freeCells_In; auto |]. apply Hsec; auto. }
  destruct HJ as [[_ Hbad] | [Hfree Hval]];
    [rewrite Hbad in Hpos; unfold INT_MIN in Hpos; lia |].
  destruct mv as [i j]. pose proof Hfree as Hfree'.
  apply freeCells_In in Hfree' as [Hin He].
  exists (foldMax val (List.filter (isEmptyAt b) allCells) INT_MIN), i, j.
  split; [exact Hd |]. split; [exact Hin |]. split; [exact He |]. split.
  - apply Hsec; auto. rewrite <- Hval in Hpos. exact Hpos.
  - unfold minimaxMove, minimaxMoveWith, driverChoice. rewrite Hd. cbn [fst snd].
    apply allCells_range in Hin.
    replace (i =? -1) with false by (symmetry; apply Z.eqb_neq; lia).
    reflexivity.
Qed.

Lemma minimaxMove_never_forfeits_witness :
  exists score i j,
    driverChoice (minimax 10) midGame = Some (score, (i, j), midGame) /\
    In (i, j) allCells /\ get midGame i j = EMPTY /\
    secures false (set midGame i j COMPUTER) /\
    minimaxMove 10 midGame [] = Some (set midGame i j COMPUTER, [] ++ [(i, j)]).
Proof.
  apply (minimaxMove_never_forfeits 10 midGame []).
  - reflexivity.
  - vm_compute. lia.
  - exists 1, 2. split; [apply allCells_range; lia |]. split; [reflexivity |].
    apply sec_won. reflexivity.
Defined.

(** With [X X _ / O O _ / _ _ _] and the computer to move, both (0,2) and
    (1,2) win by force; scores carry no depth, so the scan keeps the first
    of them. *)
Example minimaxMove_midGame :
  driverChoice (minimax 10) midGame = Some (10, (0, 2), midGame).
Proof. vm_compute. reflexivity. Qed.

(** On the empty board the best score is a draw. *)
Example minimaxMove_empty_board :
  driverChoice (minimax 10) emptyBoard = Some (0, (0, 0), emptyBoard).
Proof. vm_compute. reflexivity. Qed.

(** ** Backpropagation *)

Lemma skel_fields (a b : MCTSNode) :
  skel a = skel b ->
  boardState a = boardState b /\ playerToMove a = playerToMove b /\
  lastMove a = lastMove b /\ parent a = parent b /\
  children a = children b /\ untriedMoves a = untriedMoves b.
Proof.
  destruct a, b. unfold skel, withStats. simpl. intros [= -> -> -> -> -> ->].
  repeat split.
Qed.

Lemma skel_visited (result : Z) (nd : MCTSNode) : skel (visited result nd) = skel nd.
Proof. reflexivity. Qed.

Lemma statsOnly_refl (h : Heap) : statsOnly h h.
Proof. split; [reflexivity |]. intros a nd Ha. exists nd. split; [exact Ha |]. split; [reflexivity | lia]. Qed.

Lemma statsOnly_trans (h1 h2 h3 : Heap) :
  statsOnly h1 h2 -> statsOnly h2 h3 -> statsOnly h1 h3.
Proof.
  intros [L12 H12] [L23 H23]. split; [congruence |].
  intros a nd Ha. destruct (H12 a nd Ha) as [nd2 [Ha2 [Hs2 Hn2]]].
  destruct (H23 a nd2 Ha2) as [nd3 [Ha3 [Hs3 Hn3]]].
  exists nd3. split; [exact Ha3 |]. split; [congruence | lia].
Qed.

Lemma statsOnly_visit (h : Heap) (k : nat) (nd : MCTSNode) (result : Z) :
  h !! k = Some nd -> statsOnly h (<[k := visited result nd]> h).
Proof.
  intros Hk. split; [apply length_insert |].
  intros a nd' Ha. destruct (decide (a = k)) as [-> | Hne].
  - rewrite Hk in Ha. injection Ha as <-. exists (visited result nd).
    rewrite list_lookup_insert_eq by (apply lookup_lt_Some in Hk; exact Hk).
    split; [reflexivity |]. split; [apply skel_visited | simpl; lia].
  - exists nd'. rewrite list_lookup_insert_ne by congruence.
    split; [exact Ha |]. split; [reflexivity | lia].
Qed.

(** Whatever the tree, [backpropagate] writes statistics only. *)
Lemma backpropagate_statsOnly (fuel : nat) :
  forall h current result h',
    backpropagate fuel h current result = Some h' -> statsOnly h h'.
Proof.
  induction fuel as [| f IH]; intros h current result h'.
  - destruct current; simpl; [discriminate |]. intros [= <-]. apply statsOnly_refl.
  - destruct current as [k |]; simpl; [| intros [= <-]; apply statsOnly_refl].
    destruct (h !! k) as [nd |] eqn:Hk; [| discriminate].
    intros Hrun. apply IH in Hrun.
    eapply statsOnly_trans; [apply (statsOnly_visit h k nd result Hk) | exact Hrun].
Qed.

Lemma backpropagate_NULL (fuel : nat) (h : Heap) (result : Z) :
  backpropagate fuel h None result = Some h.
Proof. destruct fuel; reflexivity. Qed.

Lemma pathToRoot_NULL (fuel : nat) (h : Heap) : pathToRoot fuel h None = [].
Proof. destruct fuel; reflexivity. Qed.

(** The way to the root depends on the parent pointers only. *)
Lemma pathToRoot_parents (fuel : nat) :
  forall h h' current,
    (forall a, parent <$> (h' !! a) = parent <$> (h !! a)) ->
    pathToRoot fuel h' current = pathToRoot fuel h current.
Proof.
  induction fuel as [| f IH]; intros h h' current Hp; [destruct current; reflexivity |].
  destruct current as [k |]; [| reflexivity]. simpl. f_equal.
  specialize (Hp k) as Hk.
  destruct (h' !! k) as [nd' |], (h !! k) as [nd |]; simpl in Hk; try discriminate;
    [| reflexivity].
  injection Hk as ->. apply IH, Hp.
Qed.

Lemma treeOrdered_visit (h : Heap) (k : nat) (nd : MCTSNode) (result : Z) :
  treeOrdered h -> h !! k = Some nd -> treeOrdered (<[k := visited result nd]> h).
Proof.
  intros Ho Hk a nd' Ha. destruct (decide (a = k)) as [-> | Hne].
  - rewrite list_lookup_insert_eq in Ha by (apply lookup_lt_Some in Hk; exact Hk).
    injection Ha as <-. apply (Ho k nd Hk).
  - rewrite list_lookup_insert_ne in Ha by congruence. apply (Ho a nd' Ha).
Qed.

(** In an ordered tree the way up from [k] stays at or below [k]. *)
Lemma pathToRoot_le (fuel : nat) :
  forall h k a, treeOrdered h -> In a (pathToRoot fuel h (Some k)) -> (a <= k)%nat.
Proof.
  induction fuel as [| f IH]; intros h k a Ho; simpl; [intros [] |].
  intros [<- | Hin]; [lia |].
  destruct (h !! k) as [nd |] eqn:Hk; [| destruct Hin].
  pose proof (Ho k nd Hk) as Hp. destruct (parent nd) as [p |].
  - apply (IH h p a Ho) in Hin. lia.
  - rewrite pathToRoot_NULL in Hin. destruct Hin.
Qed.

(** ... and ends at the root. *)
Lemma pathToRoot_root (fuel : nat) :
  forall h k, treeOrdered h -> (k < length h)%nat -> (k < fuel)%nat ->
              In 0%nat (pathToRoot fuel h (Some k)).
Proof.
  induction fuel as [| f IH]; intros h k Ho Hk Hf; [lia |]. simpl.
  destruct (lookup_lt_is_Some_2 h k Hk) as [nd Hnd]. rewrite Hnd.
  pose proof (Ho k nd Hnd) as Hp. destruct (parent nd) as [p |].
  - right. apply IH; [assumption | lia | lia].
  - left. exact Hp.
Qed.

Lemma onPath_In (fuel : nat) (h : Heap) (k a : nat) :
  onPath fuel h k a = true <-> In a (pathToRoot fuel h (Some k)).
Proof.
  unfold onPath. rewrite existsb_exists. split.
  - intros [x [Hx He]]. apply Nat.eqb_eq in He. subst. exact Hx.
  - intros Hin. exists a. split; [exact Hin | apply Nat.eqb_refl].
Qed.

(** On an ordered tree [backpropagate] returns, and it visits exactly the
    nodes on the way from the start to the root, each of them once. *)
Lemma backpropagate_path (fuel : nat) :
  forall h k result,
    treeOrdered h -> (k < length h)%nat -> (k < fuel)%nat ->
    exists h',
      backpropagate fuel h (Some k) result = Some h' /\
      forall a, h' !! a =
                if onPath fuel h k a then visited result <$> (h !! a) else h !! a.
Proof.
  induction fuel as [| f IH]; intros h k result Ho Hk Hf; [lia |].
  destruct (lookup_lt_is_Some_2 h k Hk) as [nd Hnd].
  cbn [backpropagate]. rewrite Hnd.
  pose proof (Ho k nd Hnd) as Hp.
  assert (forall a, onPath (S f) h k a =
                    Nat.eqb a k || existsb (Nat.eqb a) (pathToRoot f h (parent nd))) as Hon.
  { intros a. unfold onPath. cbn [pathToRoot]. rewrite Hnd. reflexivity. }
  destruct (parent nd) as [p |] eqn:Hpar.
  - destruct (IH (<[k := visited result nd]> h) p result) as [h' [Hrun Hh']].
    + apply treeOrdered_visit; assumption.
    + rewrite length_insert. lia.
    + lia.
    + exists h'. split; [exact Hrun |]. intros a. rewrite Hh', Hon.
      assert (pathToRoot f (<[k := visited result nd]> h) (Some p)
              = pathToRoot f h (Some p)) as Hsame.
      { apply pathToRoot_parents. intros a'. destruct (decide (a' = k)) as [-> | Hne].
        - rewrite list_lookup_insert_eq, Hnd by exact Hk. reflexivity.
        - rewrite list_lookup_insert_ne by congruence. reflexivity. }
      unfold onPath. rewrite Hsame.
      destruct (Nat.eqb_spec a k) as [-> | Hne]; simpl.
      * destruct (existsb (Nat.eqb k) (pathToRoot f h (Some p))) eqn:Hex.
        { apply (onPath_In f h p k) in Hex.
          apply (pathToRoot_le f h p k Ho) in Hex. lia. }
        rewrite list_lookup_insert_eq, Hnd by exact Hk. reflexivity.
      * rewrite list_lookup_insert_ne by congruence. reflexivity.
  - rewrite backpropagate_NULL. exists (<[k := visited result nd]> h).
    split; [reflexivity |]. intros a. rewrite Hon, pathToRoot_NULL. simpl.
    rewrite orb_false_r. destruct (Nat.eqb_spec a k) as [-> | Hne].
    + rewrite list_lookup_insert_eq, Hnd by exact Hk. reflexivity.
    + rewrite list_lookup_insert_ne by congruence. reflexivity.
Qed.

(** ** The search tree *)

Lemma wfTree_ordered (h : Heap) : wfTree h -> treeOrdered h.
Proof. intros Hwf k nd Hk. apply (Hwf k nd Hk). Qed.

(** Statistics do not enter the shape of the tree. *)
Lemma wfTree_statsOnly (h h' : Heap) : wfTree h -> statsOnly h h' -> wfTree h'.
Proof.
  intros Hwf [Hlen Hst] k nd' Hk'.
  assert (k < length h)%nat as Hk by (rewrite <- Hlen; apply (lookup_lt_Some _ _ _ Hk')).
  destruct (lookup_lt_is_Some_2 h k Hk) as [nd Hnd].
  destruct (Hst k nd Hnd) as [nd2 [Hk2 [Hskel HN]]].
  rewrite Hk' in Hk2. injection Hk2 as <-.
  destruct (skel_fields _ _ Hskel) as [Hb [Hp [Hl [Hpa [Hc Hu]]]]].
  destruct (Hwf k nd Hnd) as [[Hpar [Hch [Hun Hpl]]] Hn].
  split; [| lia]. unfold nodeShape. rewrite Hb, Hp, Hpa, Hc, Hu.
  split; [exact Hpar |]. split; [| split; assumption].
  intros c Hc'. destruct (Hch c Hc') as [Hlt [cd [Hcd Hmv]]].
  split; [exact Hlt |].
  destruct (Hst c cd Hcd) as [cd' [Hcd' [Hskel' _]]].
  exists cd'. split; [exact Hcd' |].
  destruct (skel_fields _ _ Hskel') as [_ [_ [Hl' _]]]. rewrite Hl'. exact Hmv.
Qed.

Lemma otherPlayer_side (p : ascii) :
  otherPlayer p = PLAYER \/ otherPlayer p = COMPUTER.
Proof. unfold otherPlayer. destruct (Ascii.eqb p PLAYER); auto. Qed.

(** Linking a new child under node [k] keeps the tree well formed. *)
Lemma wfTree_expand (h : Heap) (k : nat) (nd : MCTSNode) (move : Move)
    (rest um : list Move) :
  wfTree h -> h !! k = Some nd ->
  untriedMoves nd = rest ++ [move] ->
  (forall m, In m um ->
     In m (freeCells (set (boardState nd) (fst move) (snd move) (playerToMove nd)))) ->
  wfTree (<[k := withLists nd (children nd ++ [length h]) rest]> h
          ++ [mkNode (set (boardState nd) (fst move) (snd move) (playerToMove nd))
                     (otherPlayer (playerToMove nd)) move 0 0 (Some k) [] um]).
Proof.
  intros Hwf Hnd Hunt Hum.
  pose proof (lookup_lt_Some _ _ _ Hnd) as Hk.
  destruct (Hwf k nd Hnd) as [[Hpar [Hch [Hun Hpl]]] Hn].
  set (nd' := withLists nd (children nd ++ [length h]) rest).
  set (child := mkNode _ _ move 0 0 (Some k) [] um).
  assert (forall a, (a < length h)%nat -> a <> k ->
                    (<[k := nd']> h ++ [child]) !! a = h !! a) as Hother.
  { intros a Ha Hne. rewrite lookup_app_l by (rewrite length_insert; exact Ha).
    apply list_lookup_insert_ne. congruence. }
  assert ((<[k := nd']> h ++ [child]) !! k = Some nd') as Hatk.
  { rewrite lookup_app_l by (rewrite length_insert; exact Hk).
    apply list_lookup_insert_eq, Hk. }
  assert ((<[k := nd']> h ++ [child]) !! length h = Some child) as Hnew.
  { rewrite lookup_app_r by (rewrite length_insert; lia).
    rewrite length_insert, Nat.sub_diag. reflexivity. }
  (* an old child pointer still leads to a node with the same last move *)
  assert (forall c cd, h !! c = Some cd ->
            exists cd', (<[k := nd']> h ++ [child]) !! c = Some cd' /\
                        lastMove cd' = lastMove cd) as Hkeep.
  { intros c cd Hcd. pose proof (lookup_lt_Some _ _ _ Hcd) as Hc.
    destruct (decide (c = k)) as [-> | Hne].
    - exists nd'. split; [exact Hatk |]. rewrite Hnd in Hcd. injection Hcd as <-.
      reflexivity.
    - exists cd. rewrite Hother by assumption. auto. }
  intros a x Ha.
  assert (a < length h \/ a = length h)%nat as [Hlt | ->].
  { apply lookup_lt_Some in Ha. rewrite length_app, length_insert in Ha.
    simpl in Ha. lia. }
  - destruct (decide (a = k)) as [-> | Hne].
    + rewrite Hatk in Ha. injection Ha as <-. split; [| exact Hn].
      unfold nodeShape, nd'. cbn [parent children untriedMoves boardState
                                   playerToMove withLists].
      split; [exact Hpar |]. split; [| split; [| exact Hpl]].
      * intros c Hc. apply in_app_or in Hc as [Hc | [<- | []]].
        -- destruct (Hch c Hc) as [Hkc [cd [Hcd Hmv]]]. split; [exact Hkc |].
           destruct (Hkeep c cd Hcd) as [cd' [Hcd' Hl]].
           exists cd'. split; [exact Hcd' |]. rewrite Hl. exact Hmv.
        -- split; [exact Hk |]. exists child. split; [exact Hnew |].
           apply Hun. rewrite Hunt. apply in_or_app. right. left. reflexivity.
      * intros m Hm. apply Hun. rewrite Hunt. apply in_or_app. left. exact Hm.
    + rewrite Hother in Ha by assumption.
      destruct (Hwf a x Ha) as [[Hpar' [Hch' [Hun' Hpl']]] Hn'].
      split; [| exact Hn']. split; [exact Hpar' |]. split; [| split; assumption].
      intros c Hc. destruct (Hch' c Hc) as [Hac [cd [Hcd Hmv]]]. split; [exact Hac |].
      destruct (Hkeep c cd Hcd) as [cd' [Hcd' Hl]].
      exists cd'. split; [exact Hcd' |]. rewrite Hl. exact Hmv.
  - rewrite Hnew in Ha. injection Ha as <-. split; [| simpl; lia].
    unfold nodeShape, child. cbn [parent children untriedMoves boardState playerToMove].
    split; [exact Hk |]. split; [intros c [] |]. split; [exact Hum |].
    apply otherPlayer_side.
Qed.

Section MCTSProofs.
Context {F : FloatOps} {R : RandomSource}.

Lemma newNode_spec (g : Gen) (b : Board) (p : NodePtr) (lm : Move) (pl : ascii) :
  exists um g',
    newNode g b p lm pl = (mkNode b pl lm 0 0 p [] um, g') /\
    Permutation um (freeCells b).
Proof.
  unfold newNode. pose proof (random_shuffle_perm g (freeCells b)) as Hp.
  destruct (random_shuffle g (freeCells b)) as [um g']. exists um, g'.
  rewrite copyBoard_eq. split; [reflexivity | exact Hp].
Qed.

(** *** Selection *)

Lemma selectChildLoop_returns (h : Heap) (pv : Z) (cs : list nat) :
  (forall c, In c cs -> is_Some (h !! c)) ->
  forall best u, exists r,
    selectChildLoop h pv cs best u = Some r /\
    (r = best \/ exists c, r = Some c /\ In c cs).
Proof.
  induction cs as [| c rest IH]; intros Hcs best u; simpl.
  - exists best. auto.
  - destruct (Hcs c (or_introl eq_refl)) as [cd Hcd]. rewrite Hcd.
    assert (forall c', In c' rest -> is_Some (h !! c')) as Hrest
      by (intros c' Hc'; apply Hcs; right; exact Hc').
    destruct (fgt (calculateUCT cd pv) u).
    + destruct (IH Hrest (Some c) (calculateUCT cd pv)) as [r [Hr Hcase]].
      exists r. split; [exact Hr |]. right.
      destruct Hcase as [-> | [c' [-> Hc']]]; [exists c | exists c']; auto.
    + destruct (IH Hrest best u) as [r [Hr Hcase]].
      exists r. split; [exact Hr |].
      destruct Hcase as [-> | [c' [-> Hc']]]; [left | right; exists c']; auto.
Qed.

(** The descent ends within as many steps as there are nodes beyond the
    start, at an allocated node; it does not leave a node that still has
    untried moves or whose game is over. *)
Lemma selectLoop_returns (fuel : nat) :
  forall h k,
    wfTree h -> (k < length h)%nat -> (length h - k <= fuel)%nat ->
    exists k',
      selectLoop fuel h k = Some k' /\ (k' < length h)%nat /\
      (forall nd, h !! k = Some nd ->
         untriedMoves nd <> [] \/ checkWinner (boardState nd) <> EMPTY -> k' = k).
Proof.
  induction fuel as [| f IH]; intros h k Hwf Hk Hf; [lia |].
  destruct (lookup_lt_is_Some_2 h k Hk) as [nd Hnd].
  cbn [selectLoop]. rewrite Hnd.
  destruct (Hwf k nd Hnd) as [[_ [Hch _]] _].
  destruct (match untriedMoves nd with [] => true | _ => false end
            && Ascii.eqb (checkWinner (boardState nd)) EMPTY) eqn:Hcond.
  - apply andb_true_iff in Hcond as [Hu Hw]. apply Ascii.eqb_eq in Hw.
    unfold selectChild. rewrite Hnd.
    destruct (selectChildLoop_returns h (N nd) (children nd)) with
      (best := @None nat) (u := lit_neg_1) as [r [Hr Hcase]].
    { intros c Hc. destruct (Hch c Hc) as [_ [cd [Hcd _]]]. eauto. }
    rewrite Hr. destruct Hcase as [-> | [c [-> Hc]]].
    + exists k. split; [reflexivity |]. split; [exact Hk |]. reflexivity.
    + destruct (Hch c Hc) as [Hkc [cd [Hcd _]]].
      pose proof (lookup_lt_Some _ _ _ Hcd) as Hc'.
      destruct (IH h c Hwf Hc') as [k' [Hsel [Hk' _]]]; [lia |].
      exists k'. split; [exact Hsel |]. split; [exact Hk' |].
      intros nd0 Hnd0 Hstop. injection Hnd0 as <-.
      destruct Hstop as [Hne | Hne]; [| congruence].
      destruct (untriedMoves nd); [congruence | discriminate].
  - exists k. split; [reflexivity |]. split; [exact Hk |]. reflexivity.
Qed.

(** *** Expansion *)

Lemma expandNode_spec (h : Heap) (k : nat) (g : Gen) (nd : MCTSNode) :
  h !! k = Some nd -> untriedMoves nd <> [] ->
  exists move rest um g',
    untriedMoves nd = rest ++ [move] /\
    Permutation um
      (freeCells (set (boardState nd) (fst move) (snd move) (playerToMove nd))) /\
    expandNode h k g =
    Some (<[k := withLists nd (children nd ++ [length h]) rest]> h
          ++ [mkNode (set (boardState nd) (fst move) (snd move) (playerToMove nd))
                     (otherPlayer (playerToMove nd)) move 0 0 (Some k) [] um],
          length h, g').
Proof.
  intros Hnd Hne. unfold expandNode. rewrite Hnd.
  destruct (last (untriedMoves nd)) as [move |] eqn:Hlast;
    [| apply last_None in Hlast; congruence].
  apply last_Some in Hlast as [rest Hrest].
  rewrite copyBoard_eq.
  destruct (newNode_spec g
              (set (boardState nd) (fst move) (snd move) (playerToMove nd))
              (Some k) move (otherPlayer (playerToMove nd))) as [um [g' [Hnew Hperm]]].
  exists move, rest, um, g'. split; [exact Hrest |]. split; [exact Hperm |].
  change (if Ascii.eqb (playerToMove nd) PLAYER then COMPUTER else PLAYER)
    with (otherPlayer (playerToMove nd)).
  rewrite Hnew, Hrest, removelast_last. reflexivity.
Qed.

(** *** Simulation *)

Lemma resultOf_cases (w : ascii) :
  resultOf w = 10 \/ resultOf w = -10 \/ resultOf w = 0.
Proof.
  unfold resultOf. destruct (Ascii.eqb w COMPUTER); [auto |].
  destruct (Ascii.eqb w PLAYER); auto.
Qed.

(** A rollout marks one free cell per step, so it ends within as many
    steps as there are free cells, plus the step that sees the verdict. *)
Lemma simulateLoop_returns (fuel : nat) :
  forall b p g,
    p <> EMPTY ->
    (length (freeCells b) < fuel)%nat ->
    exists r g', simulateLoop fuel b p g = Some (r, g') /\
                 (r = 10 \/ r = -10 \/ r = 0).
Proof.
  induction fuel as [| f IH]; intros b p g Hp Hf; [lia |].
  cbn [simulateLoop].
  destruct (Ascii.eqb_spec (checkWinner b) EMPTY) as [Hw | Hw]; cbn [negb].
  2:{ exists (resultOf (checkWinner b)), g. split; [reflexivity | apply resultOf_cases]. }
  destruct (freeCells b) as [| m0 l0] eqn:Hfree.
  { exists 0, g. split; [reflexivity | auto]. }
  destruct (rand g) as [r g'].
  set (idx := Z.to_nat (r mod Z.of_nat (length (m0 :: l0)))).
  assert (idx < length (m0 :: l0))%nat as Hidx.
  { unfold idx.
    pose proof (Z.mod_pos_bound r (Z.of_nat (length (m0 :: l0)))) as Hb.
    simpl length in *. lia. }
  destruct (lookup_lt_is_Some_2 _ _ Hidx) as [[i j] Hmv]. rewrite Hmv.
  assert (In (i, j) (freeCells b)) as Hin.
  { rewrite Hfree. apply list_elem_of_In. apply (list_elem_of_lookup_2 _ idx). exact Hmv. }
  apply freeCells_In in Hin as [Hcell He]. cbn [fst snd].
  apply IH.
  - destruct (Ascii.eqb p PLAYER); discriminate.
  - pose proof (freeCells_set b i j p Hcell He Hp) as Hdec.
    rewrite Hfree in Hdec. lia.
Qed.

(** Whatever character is handed in as the side to move, one more step
    is enough: from the second step on a side is to move. *)
Lemma simulateLoop_returns_any (fuel : nat) (b : Board) (p : ascii) (g : Gen) :
  (S (length (freeCells b)) < fuel)%nat ->
  exists r g', simulateLoop fuel b p g = Some (r, g') /\
               (r = 10 \/ r = -10 \/ r = 0).
Proof.
  intros Hf. destruct (Ascii.eqb_spec p EMPTY) as [-> | Hp];
    [| apply simulateLoop_returns; [exact Hp | lia]].
  destruct fuel as [| f]; [lia |]. cbn [simulateLoop].
  destruct (Ascii.eqb_spec (checkWinner b) EMPTY) as [Hw | Hw]; cbn [negb].
  2:{ exists (resultOf (checkWinner b)), g. split; [reflexivity | apply resultOf_cases]. }
  destruct (freeCells b) as [| m0 l0] eqn:Hfree.
  { exists 0, g. split; [reflexivity | auto]. }
  destruct (rand g) as [r g'].
  set (idx := Z.to_nat (r mod Z.of_nat (length (m0 :: l0)))).
  assert (idx < length (m0 :: l0))%nat as Hidx.
  { unfold idx.
    pose proof (Z.mod_pos_bound r (Z.of_nat (length (m0 :: l0)))) as Hb.
    simpl length in *. lia. }
  destruct (lookup_lt_is_Some_2 _ _ Hidx) as [[i j] Hmv]. rewrite Hmv.
  assert (In (i, j) (freeCells b)) as Hin.
  { rewrite Hfree. apply list_elem_of_In. apply (list_elem_of_lookup_2 _ idx). exact Hmv. }
  apply freeCells_In in Hin as [Hcell He]. cbn [fst snd].
  assert (set b i j EMPTY = b) as -> by (rewrite <- He; apply set_same, Hcell).
  apply simulateLoop_returns; [discriminate |]. rewrite Hfree. lia.
Qed.

Lemma simulateGame_returns (fuel : nat) (b : Board) (p : ascii) (g : Gen) :
  p <> EMPTY -> (9 < fuel)%nat ->
  exists r g', simulateGame fuel b p g = Some (r, g') /\
               (r = 10 \/ r = -10 \/ r = 0).
Proof.
  intros Hp Hf. unfold simulateGame. rewrite copyBoard_eq.
  apply simulateLoop_returns; [exact Hp |]. pose proof (free_le_9 b). lia.
Qed.
(** *** One pass of the loop *)

(** Selection and expansion: the node they end on, and what they leave
    of the tree. *)
Lemma expansion_phase (fuel : nat) (h : Heap) (g : Gen) (b0 : Board) (n : nat) :
  wfTree h -> rootAfter b0 n h -> (length h <= fuel)%nat ->
  exists k nd h1 node1 g1,
    selectLoop fuel h 0%nat = Some k /\ h !! k = Some nd /\
    (if negb (match untriedMoves nd with [] => true | _ => false end)
        && Ascii.eqb (checkWinner (boardState nd)) EMPTY
     then expandNode h k g else Some (h, k, g)) = Some (h1, node1, g1) /\
    wfTree h1 /\ (node1 < length h1)%nat /\ (length h1 <= S (length h))%nat /\
    (forall a x, h !! a = Some x ->
       exists x', h1 !! a = Some x' /\ boardState x' = boardState x /\ N x' = N x) /\
    exists r1, h1 !! 0%nat = Some r1 /\
               (checkWinner b0 <> EMPTY -> children r1 = []) /\
               (checkWinner b0 = EMPTY -> children r1 <> []).
Proof.
  intros Hwf [root [H0 [Hb [HN [Hn0 [Hterm [Hunt [Hch Hlen]]]]]]]] Hfuel.
  pose proof (lookup_lt_Some _ _ _ H0) as Hpos.
  destruct (selectLoop_returns fuel h 0%nat Hwf Hpos) as [k [Hsel [Hk Hstop]]]; [lia |].
  specialize (Hstop root H0).
  destruct (lookup_lt_is_Some_2 h k Hk) as [nd Hnd].
  exists k, nd.
  destruct (negb (match untriedMoves nd with [] => true | _ => false end)
            && Ascii.eqb (checkWinner (boardState nd)) EMPTY) eqn:Hcond.
  - apply andb_true_iff in Hcond as [Hu Hw]. apply Ascii.eqb_eq in Hw.
    assert (untriedMoves nd <> []) as Hne
      by (destruct (untriedMoves nd); [discriminate Hu | discriminate]).
    destruct (expandNode_spec h k g nd Hnd Hne)
      as [move [rest [um [g' [Hrest [Hperm Hexp]]]]]].
    eexists _, (length h), g'. split; [exact Hsel |]. split; [exact Hnd |].
    split; [exact Hexp |].
    set (nd' := withLists nd (children nd ++ [length h]) rest).
    assert (forall a, (a < length h)%nat ->
              (<[k := nd']> h ++ [mkNode (set (boardState nd) (fst move) (snd move)
                                            (playerToMove nd))
                                    (otherPlayer (playerToMove nd)) move 0 0
                                    (Some k) [] um]) !! a
              = if decide (a = k) then Some nd' else h !! a) as Hlook.
    { intros a Ha. rewrite lookup_app_l by (rewrite length_insert; exact Ha).
      case_decide as E.
      - subst. apply list_lookup_insert_eq, Ha.
      - apply list_lookup_insert_ne. congruence. }
    split; [| split; [| split; [| split]]].
    + apply wfTree_expand; auto.
      intros m Hm. apply (Permutation_in _ Hperm Hm).
    + rewrite length_app, length_insert. simpl. lia.
    + rewrite length_app, length_insert. simpl. lia.
    + intros a x Ha. pose proof (lookup_lt_Some _ _ _ Ha) as Hlt.
      rewrite (Hlook a Hlt). case_decide as E.
      * subst. rewrite Hnd in Ha. injection Ha as <-. exists nd'. auto.
      * exists x. auto.
    + rewrite (Hlook 0%nat Hpos). case_decide as E.
      * subst k. rewrite Hnd in H0. injection H0 as ->.
        exists nd'. split; [reflexivity |]. split.
        -- intros Ht. rewrite Hb in Hw. congruence.
        -- intros _. unfold nd'. cbn [children withLists].
           destruct (children root); discriminate.
      * exists root. split; [exact H0 |]. split; [exact Hterm |].
        intros Hon. destruct (Nat.eq_dec n 0%nat) as [-> | Hn]; [| auto].
        exfalso. apply E. symmetry. apply Hstop. left. auto.
  - exists h, k, g. split; [exact Hsel |]. split; [exact Hnd |].
    split; [reflexivity |]. split; [exact Hwf |]. split; [exact Hk |].
    split; [lia |]. split; [intros a x Ha; exists x; auto |].
    exists root. split; [exact H0 |]. split; [exact Hterm |].
    intros Hon. destruct (Nat.eq_dec n 0%nat) as [-> | Hn]; [| auto].
    exfalso. assert (k = 0%nat) as -> by (apply Hstop; left; auto).
    rewrite Hnd in H0. injection H0 as ->.
    rewrite Hb, Hon in Hcond. cbn [Ascii.eqb EMPTY Bool.eqb] in Hcond.
    specialize (Hunt Hon eq_refl). destruct (untriedMoves root);
      [congruence | discriminate Hcond].
Qed.

(** One pass returns, keeps the tree well formed, leaves every board of
    the tree as it was, and visits the root once. *)
Lemma iteration_spec (fuel : nat) (h : Heap) (g : Gen) (b0 : Board) (n : nat) :
  wfTree h -> rootAfter b0 n h -> (9 < fuel)%nat -> (length h < fuel)%nat ->
  exists h' g',
    iteration fuel h g = Some (h', g') /\ wfTree h' /\ rootAfter b0 (S n) h' /\
    (forall a x, h !! a = Some x ->
       exists x', h' !! a = Some x' /\ boardState x' = boardState x).
Proof.
  intros Hwf Hroot Hf9 Hfl.
  destruct (expansion_phase fuel h g b0 n Hwf Hroot)
    as [k [nd [h1 [node1 [g1 [Hsel [Hnd [Hexp [Hwf1 [Hn1 [Hlen1 [Hframe
        [r1 [Hr1 [Hterm1 Hon1]]]]]]]]]]]]]]]; [lia |].
  destruct Hroot as [root [H0 [Hb [HN [_ [_ [_ [_ Hlen]]]]]]]].
  destruct (lookup_lt_is_Some_2 h1 node1 Hn1) as [nd1 Hnd1].
  assert (exists result g2,
    (if Ascii.eqb (checkWinner (boardState nd1)) EMPTY
     then simulateGame fuel (boardState nd1) (playerToMove nd1) g1
     else Some (resultOf (checkWinner (boardState nd1)), g1)) = Some (result, g2))
    as [result [g2 Hsim]].
  { destruct (Ascii.eqb (checkWinner (boardState nd1)) EMPTY); [| eauto].
    destruct (Hwf1 node1 nd1 Hnd1) as [[_ [_ [_ Hpl]]] _].
    assert (playerToMove nd1 <> EMPTY) as Hpl'
      by (destruct Hpl as [-> | ->]; discriminate).
    destruct (simulateGame_returns fuel (boardState nd1) (playerToMove nd1) g1 Hpl' Hf9)
      as [res [g2 [Hs _]]]. eauto. }
  destruct (backpropagate_path fuel h1 node1 result (wfTree_ordered h1 Hwf1) Hn1)
    as [h2 [Hback Hh2]]; [lia |].
  pose proof (backpropagate_statsOnly _ _ _ _ _ Hback) as Hstats.
  exists h2, g2. split; [| split; [| split]].
  - unfold iteration. rewrite Hsel, Hnd, Hexp, Hnd1, Hsim, Hback. reflexivity.
  - apply (wfTree_statsOnly h1 h2 Hwf1 Hstats).
  - destruct (Hframe 0%nat root H0) as [r1' [Hr1' [Hb1 HN1]]].
    rewrite Hr1 in Hr1'. injection Hr1' as <-.
    exists (visited result r1). split.
    { rewrite Hh2.
      replace (onPath fuel h1 node1 0) with true.
      - rewrite Hr1. reflexivity.
      - symmetry. apply onPath_In. apply pathToRoot_root; [| exact Hn1 | lia].
        apply wfTree_ordered, Hwf1. }
    cbn [visited withStats boardState N children untriedMoves].
    split; [congruence |]. split; [lia |]. split; [intros; lia |].
    split; [exact Hterm1 |]. split; [intros; lia |]. split; [intros ? _; auto |].
    destruct Hstats as [-> _]. lia.
  - intros a x Ha. destruct (Hframe a x Ha) as [x1 [Hx1 [Hbx _]]].
    destruct Hstats as [_ Hst]. destruct (Hst a x1 Hx1) as [x2 [Hx2 [Hsk _]]].
    exists x2. split; [exact Hx2 |].
    destruct (skel_fields _ _ Hsk) as [Hbb _]. congruence.
Qed.
(** *** The whole loop *)

Lemma iterations_loop_spec (fuel : nat) (b0 : Board) (count : nat) :
  forall h g n,
    wfTree h -> rootAfter b0 n h -> (9 < fuel)%nat -> (n + count < fuel)%nat ->
    exists h' g',
      iterations_loop fuel count h g = Some (h', g') /\
      wfTree h' /\ rootAfter b0 (n + count) h'.
Proof.
  induction count as [| count IH]; intros h g n Hwf Hroot Hf9 Hfuel.
  - exists h, g. rewrite Nat.add_0_r. auto.
  - assert (length h < fuel)%nat as Hlen.
    { destruct Hroot as [_ [_ [_ [_ [_ [_ [_ [_ Hl]]]]]]]]. lia. }
    destruct (iteration_spec fuel h g b0 n Hwf Hroot Hf9 Hlen)
      as [h1 [g1 [Hit [Hwf1 [Hroot1 _]]]]].
    destruct (IH h1 g1 (S n) Hwf1 Hroot1 Hf9) as [h' [g' [Hloop [Hwf' Hroot']]]];
      [lia |].
    exists h', g'. cbn [iterations_loop]. rewrite Hit.
    replace (n + S count)%nat with (S n + count)%nat by lia. auto.
Qed.

Lemma mctsTree_spec (fuel : nat) (b : Board) (iterations : Z) (g : Gen) :
  (9 < fuel)%nat -> (Z.to_nat iterations < fuel)%nat ->
  exists h g',
    mctsTree fuel b iterations g = Some (h, g') /\
    wfTree h /\ rootAfter b (Z.to_nat iterations) h.
Proof.
  intros Hf9 Hfuel. unfold mctsTree.
  destruct (newNode_spec g b None NO_MOVE COMPUTER) as [um [g0 [Hnew Hperm]]].
  rewrite Hnew.
  apply (iterations_loop_spec fuel b (Z.to_nat iterations) _ g0 0%nat); auto.
  - intros k nd Hk. destruct k as [| k]; [| destruct k; discriminate Hk].
    injection Hk as <-. split; [| simpl; lia].
    unfold nodeShape. cbn [parent children untriedMoves boardState playerToMove].
    split; [reflexivity |]. split; [intros c [] |].
    split; [intros m Hm; apply (Permutation_in _ Hperm Hm) | right; reflexivity].
  - eexists. split; [reflexivity |].
    cbn [boardState N children untriedMoves]. split; [reflexivity |].
    split; [reflexivity |]. split; [reflexivity |]. split; [reflexivity |].
    split; [| split; [intros _ Hn; congruence | simpl; lia]].
    intros Hon _ ->. apply checkWinner_EMPTY in Hon as [_ Hfree].
    apply Permutation_nil in Hperm. congruence.
Qed.

(** Every tree the loop of [runMCTS] leaves has its parent pointers in
    order, which is what [backpropagate] needs. *)
Lemma mctsTree_ordered (fuel : nat) (b : Board) (iterations : Z) (g : Gen) :
  (9 < fuel)%nat -> (Z.to_nat iterations < fuel)%nat ->
  exists h g', mctsTree fuel b iterations g = Some (h, g') /\ treeOrdered h.
Proof.
  intros Hf9 Hf.
  destruct (mctsTree_spec fuel b iterations g Hf9 Hf) as [h [g' [Htree [Hwf _]]]].
  exists h, g'. split; [exact Htree | apply wfTree_ordered, Hwf].
Qed.

(** *** The final choice *)

(** The scan over the root's children keeps the first child with the
    largest visit count, provided one exceeds the starting count. *)
Lemma bestChildLoop_spec (h : Heap) (cs : list nat) :
  (forall c, In c cs -> is_Some (h !! c)) ->
  forall best maxVisits, exists r,
    bestChildLoop h cs best maxVisits = Some r /\
    ((r = best /\ forall c cd, In c cs -> h !! c = Some cd -> N cd <= maxVisits) \/
     (exists idx c cd,
        cs !! idx = Some c /\ r = Some c /\ h !! c = Some cd /\ maxVisits < N cd /\
        forall idx' c' cd', cs !! idx' = Some c' -> h !! c' = Some cd' ->
          N cd' <= N cd /\ ((idx' < idx)%nat -> N cd' < N cd))).
Proof.
  induction cs as [| c rest IH]; intros Hcs best maxVisits.
  - exists best. split; [reflexivity |]. left. split; [reflexivity | intros c cd []].
  - destruct (Hcs c (or_introl eq_refl)) as [cd Hcd].
    assert (forall c', In c' rest -> is_Some (h !! c')) as Hrest
      by (intros c' Hc'; apply Hcs; right; exact Hc').
    cbn [bestChildLoop]. rewrite Hcd.
    destruct (Z.gtb_spec (N cd) maxVisits) as [Hgt | Hle].
    + destruct (IH Hrest (Some c) (N cd)) as [r [Hr Hcase]].
      exists r. split; [exact Hr |]. right.
      destruct Hcase as [[-> Hall] | [idx [c2 [cd2 [Hidx [-> [Hcd2 [Hlt Hmax]]]]]]]].
      * exists 0%nat, c, cd. split; [reflexivity |]. split; [reflexivity |].
        split; [exact Hcd |]. split; [lia |].
        intros [| idx'] c' cd' Hidx' Hcd'.
        -- injection Hidx' as <-. rewrite Hcd in Hcd'. injection Hcd' as <-. lia.
        -- split; [| lia]. apply (Hall c' cd'); [| exact Hcd'].
           apply list_elem_of_In. apply (list_elem_of_lookup_2 _ idx'). exact Hidx'.
      * exists (S idx), c2, cd2. split; [exact Hidx |]. split; [reflexivity |].
        split; [exact Hcd2 |]. split; [lia |].
        intros [| idx'] c' cd' Hidx' Hcd'.
        -- injection Hidx' as <-. rewrite Hcd in Hcd'. injection Hcd' as <-. lia.
        -- destruct (Hmax idx' c' cd' Hidx' Hcd') as [H1 H2]. split; [exact H1 |].
           intros Hlt'. apply H2. lia.
    + destruct (IH Hrest best maxVisits) as [r [Hr Hcase]].
      exists r. split; [exact Hr |].
      destruct Hcase as [[-> Hall] | [idx [c2 [cd2 [Hidx [-> [Hcd2 [Hlt Hmax]]]]]]]].
      * left. split; [reflexivity |]. intros c' cd' [<- | Hc'] Hcd'.
        -- rewrite Hcd in Hcd'. injection Hcd' as <-. lia.
        -- apply (Hall c' cd' Hc' Hcd').
      * right. exists (S idx), c2, cd2. split; [exact Hidx |]. split; [reflexivity |].
        split; [exact Hcd2 |]. split; [exact Hlt |].
        intros [| idx'] c' cd' Hidx' Hcd'.
        -- injection Hidx' as <-. rewrite Hcd in Hcd'. injection Hcd' as <-. lia.
        -- destruct (Hmax idx' c' cd' Hidx' Hcd') as [H1 H2]. split; [exact H1 |].
           intros Hlt'. apply H2. lia.
Qed.

Lemma finalMove_spec (h : Heap) (root : MCTSNode) :
  wfTree h -> h !! 0%nat = Some root ->
  exists mv,
    finalMove h = Some mv /\
    ((children root = [] /\ mv = NO_MOVE) \/
     (exists idx c cd,
        children root !! idx = Some c /\ h !! c = Some cd /\ mv = lastMove cd /\
        In mv (freeCells (boardState root)) /\
        forall idx' c' cd', children root !! idx' = Some c' -> h !! c' = Some cd' ->
          N cd' <= N cd /\ ((idx' < idx)%nat -> N cd' < N cd))).
Proof.
  intros Hwf H0. destruct (Hwf 0%nat root H0) as [[_ [Hch _]] _].
  unfold finalMove. rewrite H0.
  destruct (bestChildLoop_spec h (children root)) with (best := @None nat)
    (maxVisits := -1) as [r [Hr Hcase]].
  { intros c Hc. destruct (Hch c Hc) as [_ [cd [Hcd _]]]. eauto. }
  rewrite Hr.
  destruct Hcase as [[-> Hall] | [idx [c [cd [Hidx [-> [Hcd [_ Hmax]]]]]]]].
  - exists NO_MOVE. split; [reflexivity |]. left. split; [| reflexivity].
    destruct (children root) as [| c cs] eqn:Hcs; [reflexivity | exfalso].
    destruct (Hch c (or_introl eq_refl)) as [_ [cd [Hcd _]]].
    destruct (Hwf c cd Hcd) as [_ Hn].
    specialize (Hall c cd (or_introl eq_refl) Hcd). lia.
  - rewrite Hcd. exists (lastMove cd). split; [reflexivity |]. right.
    exists idx, c, cd. split; [exact Hidx |]. split; [exact Hcd |].
    split; [reflexivity |]. split; [| exact Hmax].
    assert (In c (children root)) as Hin.
    { apply list_elem_of_In. apply (list_elem_of_lookup_2 _ idx). exact Hidx. }
    destruct (Hch c Hin) as [_ [cd' [Hcd' Hmv]]].
    rewrite Hcd in Hcd'. injection Hcd' as <-. exact Hmv.
Qed.
(** *** Boards of the tree are never written *)

Lemma expandNode_boards (h : Heap) (k : nat) (g : Gen) (h1 : Heap) (c : nat) (g1 : Gen) :
  expandNode h k g = Some (h1, c, g1) ->
  forall a x, h !! a = Some x ->
    exists x', h1 !! a = Some x' /\ boardState x' = boardState x.
Proof.
  unfold expandNode. destruct (h !! k) as [nd |] eqn:Hnd; [| discriminate].
  destruct (last (untriedMoves nd)) as [move |]; [| discriminate].
  destruct (newNode g _ (Some k) move _) as [child g'].
  intros [= <- _ _] a x Ha. pose proof (lookup_lt_Some _ _ _ Ha) as Hlt.
  rewrite lookup_app_l by (rewrite length_insert; exact Hlt).
  destruct (decide (a = k)) as [-> | Hne].
  - rewrite list_lookup_insert_eq by exact Hlt. rewrite Hnd in Ha. injection Ha as <-.
    eexists. split; reflexivity.
  - rewrite list_lookup_insert_ne by congruence. exists x. auto.
Qed.

Lemma iteration_boards (fuel : nat) (h : Heap) (g : Gen) (h' : Heap) (g' : Gen) :
  iteration fuel h g = Some (h', g') ->
  forall a x, h !! a = Some x ->
    exists x', h' !! a = Some x' /\ boardState x' = boardState x.
Proof.
  unfold iteration. destruct (selectLoop fuel h 0%nat) as [node |]; [| discriminate].
  destruct (h !! node) as [nd |]; [| discriminate].
  destruct (if negb (match untriedMoves nd with [] => true | _ => false end)
               && Ascii.eqb (checkWinner (boardState nd)) EMPTY
            then expandNode h node g else Some (h, node, g))
    as [[[h1 node1] g1] |] eqn:Hexp; [| discriminate].
  destruct (h1 !! node1) as [nd1 |]; [| discriminate].
  destruct (if Ascii.eqb (checkWinner (boardState nd1)) EMPTY
            then simulateGame fuel (boardState nd1) (playerToMove nd1) g1
            else Some (resultOf (checkWinner (boardState nd1)), g1))
    as [[result g2] |]; [| discriminate].
  destruct (backpropagate fuel h1 (Some node1) result) as [h2 |] eqn:Hback;
    [| discriminate].
  intros [= <- _] a x Ha.
  assert (exists x1, h1 !! a = Some x1 /\ boardState x1 = boardState x) as [x1 [Hx1 Hb1]].
  { destruct (negb _ && _).
    - apply (expandNode_boards _ _ _ _ _ _ Hexp a x Ha).
    - injection Hexp as <- _ _. exists x. auto. }
  destruct (backpropagate_statsOnly _ _ _ _ _ Hback) as [_ Hst].
  destruct (Hst a x1 Hx1) as [x2 [Hx2 [Hsk _]]].
  exists x2. split; [exact Hx2 |].
  destruct (skel_fields _ _ Hsk) as [Hbb _]. congruence.
Qed.

Lemma iterations_loop_boards (fuel : nat) (count : nat) :
  forall h g h' g',
    iterations_loop fuel count h g = Some (h', g') ->
    forall a x, h !! a = Some x ->
      exists x', h' !! a = Some x' /\ boardState x' = boardState x.
Proof.
  induction count as [| count IH]; intros h g h' g'; cbn [iterations_loop].
  - intros [= <- _] a x Ha. exists x. auto.
  - destruct (iteration fuel h g) as [[h1 g1] |] eqn:Hit; [| discriminate].
    intros Hloop a x Ha.
    destruct (iteration_boards _ _ _ _ _ Hit a x Ha) as [x1 [Hx1 Hb1]].
    destruct (IH _ _ _ _ Hloop a x1 Hx1) as [x2 [Hx2 Hb2]].
    exists x2. split; [exact Hx2 | congruence].
Qed.

Lemma mctsTree_root_board (fuel : nat) (b : Board) (iterations : Z) (g : Gen)
    (h : Heap) (g' : Gen) :
  mctsTree fuel b iterations g = Some (h, g') ->
  exists root, h !! 0%nat = Some root /\ boardState root = b.
Proof.
  unfold mctsTree.
  destruct (newNode_spec g b None NO_MOVE COMPUTER) as [um [g0 [-> _]]].
  intros Hloop.
  destruct (iterations_loop_boards _ _ _ _ _ _ Hloop 0%nat _ eq_refl) as [x [Hx Hb]].
  exists x. auto.
Qed.

(** ** The claims about the searches *)

(** C3: a search leaves the board it was given as it was.  Whenever
    [minimax] returns, the board it leaves is the board it received,
    on every branch and for every window, and so does the scan of
    [minimaxMove]; with more steps than free cells [minimax] does return.
    [runMCTS] copies its input into the root, and no pass of its loop
    writes a board of the tree. *)
Theorem search_leaves_board (b : Board) :
  (forall fuel d m al be v bb, minimax fuel b d m al be = Some (v, bb) -> bb = b) /\
  (forall fuel score mv bb,
     driverChoice (minimax fuel) b = Some (score, mv, bb) -> bb = b) /\
  (forall fuel d m al be,
     (length (freeCells b) < fuel)%nat ->
     exists v, minimax fuel b d m al be = Some (v, b)) /\
  (forall fuel iterations g h g',
     mctsTree fuel b iterations g = Some (h, g') ->
     exists root, h !! 0%nat = Some root /\ boardState root = b) /\
  (forall fuel h g h' g',
     iteration fuel h g = Some (h', g') ->
     forall a x, h !! a = Some x ->
       exists x', h' !! a = Some x' /\ boardState x' = boardState x).
Proof.
  split; [| split; [| split; [| split]]].
  - intros fuel. apply minimax_frame.
  - intros fuel score mv bb. unfold driverChoice.
    apply driverLoop_frame; [| auto]. intros b' d m al be s bb'. apply minimax_frame.
  - intros fuel d m al be. apply minimax_returns.
  - intros fuel iterations g h g'. apply mctsTree_root_board.
  - apply iteration_boards.
Qed.

(** C9: every search ends.  A board has at most 9 free cells and every
    level of [minimax] and every step of a rollout marks one of them, so
    10 steps are enough for [minimax] and for [simulateGame] with a side
    to move (11 whatever character is handed in as the side); [runMCTS]
    ends for every iteration budget. *)
Theorem searches_terminate :
  (forall b, (length (freeCells b) <= 9)%nat) /\
  (forall b i j mark,
     In (i, j) allCells -> get b i j = EMPTY -> mark <> EMPTY ->
     (length (freeCells (set b i j mark)) < length (freeCells b))%nat) /\
  (forall fuel b d m al be,
     (9 < fuel)%nat -> exists v, minimax fuel b d m al be = Some (v, b)) /\
  (forall fuel b p g,
     p <> EMPTY -> (9 < fuel)%nat ->
     exists r g', simulateGame fuel b p g = Some (r, g')) /\
  (forall fuel b p g,
     (10 < fuel)%nat -> exists r g', simulateGame fuel b p g = Some (r, g')) /\
  (forall fuel b iterations g,
     (9 < fuel)%nat -> (Z.to_nat iterations < fuel)%nat ->
     exists mv g', runMCTS fuel b iterations g = Some (mv, g')).
Proof.
  split; [apply free_le_9 |]. split; [| split; [| split; [| split]]].
  - intros b i j mark Hin He Hm. pose proof (freeCells_set b i j mark Hin He Hm). lia.
  - intros fuel b d m al be Hf. apply minimax_returns. pose proof (free_le_9 b). lia.
  - intros fuel b p g Hp Hf.
    destruct (simulateGame_returns fuel b p g Hp Hf) as [r [g' [H _]]]. eauto.
  - intros fuel b p g Hf. unfold simulateGame. rewrite copyBoard_eq.
    destruct (simulateLoop_returns_any fuel b p g) as [r [g' [H _]]]; [| eauto].
    pose proof (free_le_9 b). lia.
  - intros fuel b iterations g Hf9 Hf.
    destruct (mctsTree_spec fuel b iterations g Hf9 Hf) as [h [g' [Htree [Hwf Hroot]]]].
    destruct Hroot as [root [H0 _]].
    destruct (finalMove_spec h root Hwf H0) as [mv [Hmv _]].
    exists mv, g'. unfold runMCTS. rewrite Htree, Hmv. reflexivity.
Qed.
(** C5: [runMCTS] returns the move of the root child that was visited
    most, the first such child among equals; it returns the sentinel
    exactly when the root has no child, and for an iteration budget
    [iterations >= 0] that is exactly when the budget is zero or the game
    on the input board is over.  (A negative budget runs no pass, like
    zero.) *)
Theorem runMCTS_picks_most_visited (fuel : nat) (b : Board) (iterations : Z) (g : Gen) :
  (9 < fuel)%nat -> (Z.to_nat iterations < fuel)%nat ->
  exists h g' root mv,
    mctsTree fuel b iterations g = Some (h, g') /\ h !! 0%nat = Some root /\
    runMCTS fuel b iterations g = Some (mv, g') /\
    (children root = [] -> mv = NO_MOVE) /\
    (children root <> [] ->
     exists idx c cd,
       children root !! idx = Some c /\ h !! c = Some cd /\ mv = lastMove cd /\
       forall idx' c' cd', children root !! idx' = Some c' -> h !! c' = Some cd' ->
         N cd' <= N cd /\ ((idx' < idx)%nat -> N cd' < N cd)) /\
    (mv = NO_MOVE <-> children root = []) /\
    (children root = [] <-> iterations <= 0 \/ checkWinner b <> EMPTY) /\
    (0 <= iterations ->
     (mv = NO_MOVE <-> iterations = 0 \/ checkWinner b <> EMPTY)).
Proof.
  intros Hf9 Hf.
  destruct (mctsTree_spec fuel b iterations g Hf9 Hf) as [h [g' [Htree [Hwf Hroot]]]].
  destruct Hroot as [root [H0 [Hb [HN [Hn0 [Hterm [Hunt [Hch Hlen]]]]]]]].
  destruct (finalMove_spec h root Hwf H0) as [mv [Hmv Hcase]].
  exists h, g', root, mv. split; [exact Htree |]. split; [exact H0 |].
  split; [unfold runMCTS; rewrite Htree, Hmv; reflexivity |].
  assert (mv = NO_MOVE <-> children root = []) as Hsent.
  { destruct Hcase as [[Hnil ->] | [idx [c [cd [Hidx [Hcd [-> [Hfree _]]]]]]]].
    - tauto.
    - split.
      + intros Hs. rewrite Hs in Hfree. apply freeCells_In' in Hfree as [Hin _].
        unfold NO_MOVE in Hin. apply allCells_range in Hin. lia.
      + intros Hnil. rewrite Hnil in Hidx. discriminate Hidx. }
  assert (children root = [] <-> iterations <= 0 \/ checkWinner b <> EMPTY) as Hnone.
  { split.
    - intros Hnil. destruct (Ascii.eqb_spec (checkWinner b) EMPTY) as [Hon | Hoff];
        [| right; exact Hoff].
      left. destruct (Z_le_gt_dec iterations 0) as [Hle | Hgt]; [exact Hle |].
      exfalso. apply (Hch Hon); [lia | exact Hnil].
    - intros [Hle | Hoff]; [apply Hn0; lia | apply Hterm, Hoff]. }
  split; [apply Hsent |]. split.
  - intros Hne. destruct Hcase as [[Hnil _] | [idx [c [cd [Hidx [Hcd [-> [_ Hmax]]]]]]]];
      [congruence |].
    exists idx, c, cd. auto.
  - split; [exact Hsent |]. split; [exact Hnone |].
    intros Hpos. rewrite Hsent, Hnone. split; (intros [H | H]; [left; lia | right; exact H]).
Qed.

(** C6: after the loop of [runMCTS] has run its [iterations >= 0] passes,
    the visit count of the root is [iterations]. *)
Theorem root_visits_equal_budget (fuel : nat) (b : Board) (iterations : Z) (g : Gen) :
  (9 < fuel)%nat -> (Z.to_nat iterations < fuel)%nat -> 0 <= iterations ->
  exists h g' root,
    mctsTree fuel b iterations g = Some (h, g') /\
    h !! 0%nat = Some root /\ N root = iterations.
Proof.
  intros Hf9 Hf Hpos.
  destruct (mctsTree_spec fuel b iterations g Hf9 Hf) as [h [g' [Htree [_ Hroot]]]].
  destruct Hroot as [root [H0 [_ [HN _]]]].
  exists h, g', root. split; [exact Htree |]. split; [exact H0 |]. lia.
Qed.

(** C10: a move returned by [runMCTS] other than the sentinel names a
    cell of the grid that is empty on the input board, so [mctsMove]
    writes no occupied cell. *)
Theorem runMCTS_move_is_free_cell (fuel : nat) (b : Board) (moves : list Move)
    (iterations : Z) (g : Gen) :
  (9 < fuel)%nat -> (Z.to_nat iterations < fuel)%nat ->
  exists mv g',
    runMCTS fuel b iterations g = Some (mv, g') /\
    (mv <> NO_MOVE ->
     0 <= fst mv < 3 /\ 0 <= snd mv < 3 /\ get b (fst mv) (snd mv) = EMPTY) /\
    exists board' moves',
      mctsMove fuel b moves iterations g = Some (board', moves', g') /\
      (forall i j, In (i, j) allCells -> get b i j <> EMPTY ->
                   get board' i j = get b i j).
Proof.
  intros Hf9 Hf.
  destruct (mctsTree_spec fuel b iterations g Hf9 Hf) as [h [g' [Htree [Hwf Hroot]]]].
  destruct Hroot as [root [H0 [Hb _]]].
  destruct (finalMove_spec h root Hwf H0) as [mv [Hmv Hcase]].
  assert (runMCTS fuel b iterations g = Some (mv, g')) as Hrun
    by (unfold runMCTS; rewrite Htree, Hmv; reflexivity).
  exists mv, g'. split; [exact Hrun |].
  unfold mctsMove. rewrite Hrun.
  destruct Hcase as [[_ ->] | [idx [c [cd [_ [_ [-> [Hfree _]]]]]]]].
  - split; [congruence |]. exists b, moves. split; [reflexivity | auto].
  - rewrite Hb in Hfree. destruct (lastMove cd) as [i j].
    apply freeCells_In in Hfree as [Hin He]. cbn [fst snd].
    pose proof (proj1 (allCells_range i j) Hin) as Hrange.
    split; [intros _; split; [lia | split; [lia | exact He]] |].
    replace (i =? -1) with false by (symmetry; apply Z.eqb_neq; lia).
    eexists _, _. split; [reflexivity |].
    intros i' j' Hin' Hocc. apply get_set_other; auto. congruence.
Qed.
End MCTSProofs.

(** C7: [backpropagate] walks from the given node through its ancestors
    to the root; every node on the way gets its visit count raised by one
    and its win score raised by one exactly when the result is 10, a win
    of the computer; a loss and a draw add nothing, whoever is to move at
    the node; no other node changes. *)
Theorem backpropagate_counts_computer_wins (fuel : nat) (h : Heap) (k : nat)
    (result : Z) :
  treeOrdered h -> (k < length h)%nat -> (k < fuel)%nat ->
  exists h',
    backpropagate fuel h (Some k) result = Some h' /\
    length h' = length h /\
    onPath fuel h k k = true /\ onPath fuel h k 0 = true /\
    forall a nd, h !! a = Some nd ->
      h' !! a =
      Some (if onPath fuel h k a
            then mkNode (boardState nd) (playerToMove nd) (lastMove nd)
                        (W nd + (if result =? 10 then 1 else 0)) (N nd + 1)
                        (parent nd) (children nd) (untriedMoves nd)
            else nd).
Proof.
  intros Ho Hk Hf.
  destruct (backpropagate_path fuel h k result Ho Hk Hf) as [h' [Hrun Hh']].
  exists h'. split; [exact Hrun |].
  split; [apply (backpropagate_statsOnly _ _ _ _ _ Hrun) |].
  split; [| split].
  - apply onPath_In. destruct fuel; [lia |]. left. reflexivity.
  - apply onPath_In, pathToRoot_root; assumption.
  - intros a nd Ha. rewrite Hh', Ha.
    destruct (onPath fuel h k a); [| reflexivity].
    cbn [fmap option_fmap option_map]. unfold visited, withStats, scoreToBackpropagate.
    destruct (result =? 10); [reflexivity |].
    destruct (result =? -10); reflexivity.
Qed.

Lemma backpropagate_counts_computer_wins_witness :
  treeOrdered sampleTree /\
  exists h', backpropagate 5 sampleTree (Some 1%nat) 10 = Some h' /\
             length h' = length sampleTree.
Proof.
  assert (treeOrdered sampleTree) as Ho.
  { intros k nd Hk. destruct k as [| [| k]]; simpl in Hk.
    - injection Hk as <-. reflexivity.
    - injection Hk as <-. simpl. lia.
    - discriminate Hk. }
  split; [exact Ho |].
  destruct (backpropagate_counts_computer_wins 5 sampleTree 1 10 Ho) as [h' [Hrun [Hlen _]]].
  - simpl. lia.
  - lia.
  - exists h'. split; [exact Hrun | exact Hlen].
Defined.

(** A computer win raises both counters along the way; a player win only
    the visit count. *)
Example backpropagate_win :
  backpropagate 5 sampleTree (Some 1%nat) 10 =
  Some [ mkNode emptyBoard COMPUTER NO_MOVE 1 2 None [1%nat] [];
         mkNode (set emptyBoard 1 1 COMPUTER) PLAYER (1, 1) 1 2 (Some 0%nat) [] [] ].
Proof. reflexivity. Qed.

Example backpropagate_loss :
  backpropagate 5 sampleTree (Some 1%nat) (-10) =
  Some [ mkNode emptyBoard COMPUTER NO_MOVE 0 2 None [1%nat] [];
         mkNode (set emptyBoard 1 1 COMPUTER) PLAYER (1, 1) 0 2 (Some 0%nat) [] [] ].
Proof. reflexivity. Qed.

(** ** The search on concrete inputs *)

Lemma runMCTS_picks_most_visited_witness :
  exists mv g', @runMCTS fixedPoint lcg 60 midGame 50 1 = Some (mv, g').
Proof.
  destruct (@runMCTS_picks_most_visited fixedPoint lcg 60 midGame 50 1)
    as [h [g' [root [mv [_ [_ [Hrun _]]]]]]].
  - lia.
  - simpl. lia.
  - exists mv, g'. exact Hrun.
Defined.

Lemma root_visits_equal_budget_witness :
  exists h g' root,
    @mctsTree fixedPoint lcg 60 midGame 50 1 = Some (h, g') /\
    h !! 0%nat = Some root /\ N root = 50.
Proof.
  apply (@root_visits_equal_budget fixedPoint lcg 60 midGame 50 1).
  - lia.
  - simpl. lia.
  - lia.
Defined.

Lemma runMCTS_move_is_free_cell_witness :
  exists mv g',
    @runMCTS fixedPoint lcg 60 midGame 50 1 = Some (mv, g') /\
    (mv <> NO_MOVE ->
     0 <= fst mv < 3 /\ 0 <= snd mv < 3 /\ get midGame (fst mv) (snd mv) = EMPTY).
Proof.
  destruct (@runMCTS_move_is_free_cell fixedPoint lcg 60 midGame [] 50 1)
    as [mv [g' [Hrun [Hfree _]]]].
  - lia.
  - simpl. lia.
  - exists mv, g'. split; [exact Hrun | exact Hfree].
Defined.

(** With 50 passes the search completes the computer's row. *)
Example runMCTS_midGame :
  @runMCTS fixedPoint lcg 60 midGame 50 1 = Some ((1, 2), 684462146).
Proof. vm_compute. reflexivity. Qed.

(** No pass, no move; and no move when the game is over. *)
Example runMCTS_no_budget :
  @runMCTS fixedPoint lcg 60 midGame 0 1 = Some (NO_MOVE, 1).
Proof. vm_compute. reflexivity. Qed.

Example runMCTS_game_over :
  @runMCTS fixedPoint lcg 60 bothLines 5 1 = Some (NO_MOVE, 1).
Proof. vm_compute. reflexivity. Qed.

(* ================================================================== *)
(** * More properties of the program *)
(* ================================================================== *)

(** ** Minimax: its scores *)

Lemma maxLoop_scores (rec : Search) (b : Board) (depth : Z) (cells : list Move) :
  (forall m, In m cells -> In m allCells) ->
  (forall i j al be s bb, In (i, j) allCells -> get b i j = EMPTY ->
     rec (set b i j COMPUTER) (depth + 1) false al be = Some (s, bb) ->
     bb = set b i j COMPUTER /\ (s = 10 \/ s = 0 \/ s = -10)) ->
  forall best al be v bb,
    best = INT_MIN \/ (best = 10 \/ best = 0 \/ best = -10) ->
    maxLoop rec cells b depth best al be = Some (v, bb) ->
    (v = 10 \/ v = 0 \/ v = -10) \/
    (v = best /\ List.filter (isEmptyAt b) cells = []).
Proof.
  intros Hcells Hrec. induction cells as [| [i j] rest IH]; intros best al be v bb Hbest.
  - intros [= <- _]. right. auto.
  - assert (In (i, j) allCells) as Hin by (apply Hcells; left; reflexivity).
    assert (forall m, In m rest -> In m allCells) as Hrest
      by (intros m Hm; apply Hcells; right; exact Hm).
    rewrite filter_cons_empty. cbn [maxLoop].
    destruct (Ascii.eqb_spec (get b i j) EMPTY) as [He | He]; [| apply IH; assumption].
    destruct (rec (set b i j COMPUTER) (depth + 1) false al be) as [[s b1] |] eqn:Hr;
      [| discriminate].
    destruct (Hrec i j al be s b1 Hin He Hr) as [-> Hs].
    rewrite (set_restore b i j) by assumption.
    assert (Z.max best s = 10 \/ Z.max best s = 0 \/ Z.max best s = -10) as Hnew
      by (unfold INT_MIN in Hbest; lia).
    destruct (be <=? Z.max al s); [intros [= <- _]; left; exact Hnew |].
    intros Hrun. apply IH in Hrun; [| exact Hrest | right; exact Hnew].
    destruct Hrun as [Hv | [-> _]]; left; assumption.
Qed.

Lemma minLoop_scores (rec : Search) (b : Board) (depth : Z) (cells : list Move) :
  (forall m, In m cells -> In m allCells) ->
  (forall i j al be s bb, In (i, j) allCells -> get b i j = EMPTY ->
     rec (set b i j PLAYER) (depth + 1) true al be = Some (s, bb) ->
     bb = set b i j PLAYER /\ (s = 10 \/ s = 0 \/ s = -10)) ->
  forall best al be v bb,
    best = INT_MAX \/ (best = 10 \/ best = 0 \/ best = -10) ->
    minLoop rec cells b depth best al be = Some (v, bb) ->
    (v = 10 \/ v = 0 \/ v = -10) \/
    (v = best /\ List.filter (isEmptyAt b) cells = []).
Proof.
  intros Hcells Hrec. induction cells as [| [i j] rest IH]; intros best al be v bb Hbest.
  - intros [= <- _]. right. auto.
  - assert (In (i, j) allCells) as Hin by (apply Hcells; left; reflexivity).
    assert (forall m, In m rest -> In m allCells) as Hrest
      by (intros m Hm; apply Hcells; right; exact Hm).
    rewrite filter_cons_empty. cbn [minLoop].
    destruct (Ascii.eqb_spec (get b i j) EMPTY) as [He | He]; [| apply IH; assumption].
    destruct (rec (set b i j PLAYER) (depth + 1) true al be) as [[s b1] |] eqn:Hr;
      [| discriminate].
    destruct (Hrec i j al be s b1 Hin He Hr) as [-> Hs].
    rewrite (set_restore b i j) by assumption.
    assert (Z.min best s = 10 \/ Z.min best s = 0 \/ Z.min best s = -10) as Hnew
      by (unfold INT_MAX in Hbest; lia).
    destruct (Z.min be s <=? al); [intros [= <- _]; left; exact Hnew |].
    intros Hrun. apply IH in Hrun; [| exact Hrest | right; exact Hnew].
    destruct Hrun as [Hv | [-> _]]; left; assumption.
Qed.

Lemma minimax_scores_if (fuel : nat) :
  forall b d m al be v bb,
    validBoard b = true ->
    minimax fuel b d m al be = Some (v, bb) ->
    v = 10 \/ v = 0 \/ v = -10.
Proof.
  induction fuel as [| f IH]; intros b d m al be v bb Hv; [discriminate |].
  cbn [minimax].
  destruct (Ascii.eqb_spec (checkWinner b) COMPUTER) as [Hc | Hc];
    [intros [= <- _]; auto |].
  destruct (Ascii.eqb_spec (checkWinner b) PLAYER) as [Hp | Hp];
    [intros [= <- _]; auto |].
  destruct (Ascii.eqb_spec (checkWinner b) DRAW) as [Hd | Hd];
    [intros [= <- _]; auto |].
  assert (List.filter (isEmptyAt b) allCells <> []) as Hfree.
  { destruct (checkWinner_outcomes b Hv) as [Hw | [Hw | [Hw | Hw]]]; try congruence.
    apply checkWinner_EMPTY in Hw as [_ Hw]. exact Hw. }
  destruct m; intros Hrun.
  - apply maxLoop_scores in Hrun; auto.
    + destruct Hrun as [Hs | [_ Hnil]]; [exact Hs | congruence].
    + intros i j al' be' s bb' Hin He Hr.
      split; [apply (minimax_frame _ _ _ _ _ _ _ _ Hr) |].
      apply IH in Hr; [exact Hr |]. apply validBoard_set; auto.
  - apply minLoop_scores in Hrun; auto.
    + destruct Hrun as [Hs | [_ Hnil]]; [exact Hs | congruence].
    + intros i j al' be' s bb' Hin He Hr.
      split; [apply (minimax_frame _ _ _ _ _ _ _ _ Hr) |].
      apply IH in Hr; [exact Hr |]. apply validBoard_set; auto.
Qed.

(** X1: on a board of marks and blanks [minimax] returns, for every
    window and both sides, and its score is 10, 0 or -10: the marker
    values [INT_MIN] and [INT_MAX] of the running best never come out. *)
Theorem minimax_scores (fuel : nat) (b : Board) (d : Z) (m : bool) (al be : Z) :
  validBoard b = true ->
  (length (freeCells b) < fuel)%nat ->
  exists v, minimax fuel b d m al be = Some (v, b) /\ (v = 10 \/ v = 0 \/ v = -10).
Proof.
  intros Hv Hfuel. destruct (minimax_returns fuel b d m al be Hfuel) as [v Hrun].
  exists v. split; [exact Hrun |]. apply (minimax_scores_if _ _ _ _ _ _ _ _ Hv Hrun).
Qed.

Lemma minimax_scores_witness :
  exists v, minimax 10 midGame 0 true 0 0 = Some (v, midGame) /\
            (v = 10 \/ v = 0 \/ v = -10).
Proof.
  apply (minimax_scores 10 midGame 0 true 0 0).
  - reflexivity.
  - vm_compute. lia.
Defined.

(** ** Minimax: the depth argument *)

Lemma maxLoop_depth (rec : Search) (b : Board) (d d' : Z) (cells : list Move) :
  (forall b' x y m al be, rec b' x m al be = rec b' y m al be) ->
  forall best al be,
    maxLoop rec cells b d best al be = maxLoop rec cells b d' best al be.
Proof.
  intros Hrec. revert b. induction cells as [| [i j] rest IH]; intros b best al be;
    [reflexivity |].
  cbn [maxLoop]. rewrite (Hrec _ (d + 1) (d' + 1)).
  destruct (Ascii.eqb (get b i j) EMPTY); [| apply IH].
  destruct (rec _ (d' + 1) false al be) as [[s b1] |]; [| reflexivity].
  destruct (be <=? Z.max al s); [reflexivity | apply IH].
Qed.

Lemma minLoop_depth (rec : Search) (b : Board) (d d' : Z) (cells : list Move) :
  (forall b' x y m al be, rec b' x m al be = rec b' y m al be) ->
  forall best al be,
    minLoop rec cells b d best al be = minLoop rec cells b d' best al be.
Proof.
  intros Hrec. revert b. induction cells as [| [i j] rest IH]; intros b best al be;
    [reflexivity |].
  cbn [minLoop]. rewrite (Hrec _ (d + 1) (d' + 1)).
  destruct (Ascii.eqb (get b i j) EMPTY); [| apply IH].
  destruct (rec _ (d' + 1) true al be) as [[s b1] |]; [| reflexivity].
  destruct (Z.min be s <=? al); [reflexivity | apply IH].
Qed.

(** X2: the [depth] argument of [minimax] has no effect on what it
    returns: scores are not discounted by the length of the line. *)
Theorem minimax_ignores_depth (fuel : nat) :
  forall (b : Board) (d d' : Z) (m : bool) (al be : Z),
    minimax fuel b d m al be = minimax fuel b d' m al be.
Proof.
  induction fuel as [| f IH]; intros b d d' m al be; [reflexivity |].
  cbn [minimax].
  destruct (Ascii.eqb (checkWinner b) COMPUTER); [reflexivity |].
  destruct (Ascii.eqb (checkWinner b) PLAYER); [reflexivity |].
  destruct (Ascii.eqb (checkWinner b) DRAW); [reflexivity |].
  destruct m; [apply maxLoop_depth | apply minLoop_depth]; intros; apply IH.
Qed.

(** ** The driver: which move it keeps *)

Lemma gameValue_scores (fuel : nat) (b : Board) (m : bool) :
  validBoard b = true -> (length (freeCells b) < fuel)%nat ->
  gameValue fuel b m = 10 \/ gameValue fuel b m = 0 \/ gameValue fuel b m = -10.
Proof.
  intros Hv Hfuel.
  apply (minimax_scores_if fuel b 0 m INT_MIN INT_MAX _ b Hv).
  apply minimax_value, Hfuel.
Qed.

Lemma driverLoop_first (search : Search) (b : Board) (val : Move -> Z)
    (cells : list Move) :
  (forall m, In m cells -> In m allCells) ->
  (forall i j, In (i, j) allCells -> get b i j = EMPTY ->
     search (set b i j COMPUTER) 0 false INT_MIN INT_MAX
     = Some (val (i, j), set b i j COMPUTER)) ->
  forall best mv, exists score mv',
    driverLoop search cells b best mv = Some (score, mv', b) /\
    ((mv' = mv /\ score = best /\
      forall m, In m (List.filter (isEmptyAt b) cells) -> val m <= best) \/
     (exists idx,
        List.filter (isEmptyAt b) cells !! idx = Some mv' /\
        score = val mv' /\ best < val mv' /\
        forall idx' m', List.filter (isEmptyAt b) cells !! idx' = Some m' ->
          val m' <= val mv' /\ ((idx' < idx)%nat -> val m' < val mv'))).
Proof.
  intros Hcells Hsearch. induction cells as [| [i j] rest IH]; intros best mv.
  - exists best, mv. split; [reflexivity |]. left. split; [reflexivity |].
    split; [reflexivity | intros m []].
  - assert (In (i, j) allCells) as Hin by (apply Hcells; left; reflexivity).
    assert (forall m, In m rest -> In m allCells) as Hrest
      by (intros m Hm; apply Hcells; right; exact Hm).
    rewrite filter_cons_empty. cbn [driverLoop].
    destruct (Ascii.eqb_spec (get b i j) EMPTY) as [He | He]; [| apply IH; assumption].
    rewrite Hsearch, (set_restore b i j) by assumption.
    destruct (Z.gtb_spec (val (i, j)) best) as [Hgt | Hle].
    + destruct (IH Hrest (val (i, j)) (i, j)) as [score [mv' [Hrun Hcase]]].
      exists score, mv'. split; [exact Hrun |]. right.
      destruct Hcase as [[-> [-> Hall]] | [idx [Hidx [-> [Hlt Hmax]]]]].
      * exists 0%nat. split; [reflexivity |]. split; [reflexivity |]. split; [lia |].
        intros [| idx'] m' Hidx'.
        -- injection Hidx' as <-. lia.
        -- split; [| lia]. apply Hall. apply list_elem_of_In.
           apply (list_elem_of_lookup_2 _ idx'). exact Hidx'.
      * exists (S idx). split; [exact Hidx |]. split; [reflexivity |]. split; [lia |].
        intros [| idx'] m' Hidx'.
        -- injection Hidx' as <-. lia.
        -- destruct (Hmax idx' m' Hidx') as [H1 H2]. split; [exact H1 |].
           intros Hlt'. apply H2. lia.
    + destruct (IH Hrest best mv) as [score [mv' [Hrun Hcase]]].
      exists score, mv'. split; [exact Hrun |].
      destruct Hcase as [[-> [-> Hall]] | [idx [Hidx [-> [Hlt Hmax]]]]].
      * left. split; [reflexivity |]. split; [reflexivity |].
        intros m [<- | Hm]; [lia | apply Hall, Hm].
      * right. exists (S idx). split; [exact Hidx |]. split; [reflexivity |].
        split; [exact Hlt |].
        intros [| idx'] m' Hidx'.
        -- injection Hidx' as <-. lia.
        -- destruct (Hmax idx' m' Hidx') as [H1 H2]. split; [exact H1 |].
           intros Hlt'. apply H2. lia.
Qed.

Lemma driverChoice_first (fuel : nat) (b : Board) :
  (length (freeCells b) < fuel)%nat ->
  exists score mv,
    driverChoice (minimax fuel) b = Some (score, mv, b) /\
    ((mv = NO_MOVE /\ score = INT_MIN /\
      forall i j, In (i, j) (freeCells b) ->
                  gameValue fuel (set b i j COMPUTER) false = INT_MIN) \/
     (exists idx,
        freeCells b !! idx = Some mv /\
        score = gameValue fuel (set b (fst mv) (snd mv) COMPUTER) false /\
        forall idx' i j, freeCells b !! idx' = Some (i, j) ->
          gameValue fuel (set b i j COMPUTER) false <= score /\
          ((idx' < idx)%nat -> gameValue fuel (set b i j COMPUTER) false < score))).
Proof.
  intros Hfuel.
  pose (val := fun c : Move => gameValue fuel (set b (fst c) (snd c) COMPUTER) false).
  destruct (driverLoop_first (minimax fuel) b val allCells) with (best := INT_MIN)
    (mv := NO_MOVE) as [score [mv [Hrun Hcase]]]; auto.
  { intros i j Hin He. apply minimax_value.
    pose proof (freeCells_set b i j COMPUTER Hin He COMPUTER_not_EMPTY). lia. }
  exists score, mv. split; [exact Hrun |].
  destruct Hcase as [[-> [-> Hall]] | [idx [Hidx [-> [_ Hmax]]]]].
  - left. split; [reflexivity |]. split; [reflexivity |]. intros i j Hm.
    specialize (Hall (i, j) Hm). pose proof (gameValue_range fuel (set b i j COMPUTER) false).
    unfold val in Hall. cbn [fst snd] in Hall. lia.
  - right. exists idx. split; [exact Hidx |]. split; [reflexivity |].
    intros idx' i j Hidx'. apply (Hmax idx' (i, j) Hidx').
Qed.

(** X3: the scan of [minimaxMove] ends with the first free cell, in
    row-major order, whose game value is the largest, and with that value
    as the best score; it ends without a move only when no free cell has a
    value above [INT_MIN]. *)
Theorem minimaxMove_first_best (fuel : nat) (b : Board) :
  (length (freeCells b) < fuel)%nat ->
  exists score mv,
    driverChoice (minimax fuel) b = Some (score, mv, b) /\
    ((mv = NO_MOVE /\ score = INT_MIN /\
      forall i j, In (i, j) (freeCells b) ->
                  gameValue fuel (set b i j COMPUTER) false = INT_MIN) \/
     (exists idx,
        freeCells b !! idx = Some mv /\
        score = gameValue fuel (set b (fst mv) (snd mv) COMPUTER) false /\
        forall idx' i j, freeCells b !! idx' = Some (i, j) ->
          gameValue fuel (set b i j COMPUTER) false <= score /\
          ((idx' < idx)%nat -> gameValue fuel (set b i j COMPUTER) false < score))).
Proof. apply driverChoice_first. Qed.

Lemma minimaxMove_first_best_witness :
  exists score mv, driverChoice (minimax 10) midGame = Some (score, mv, midGame).
Proof.
  destruct (minimaxMove_first_best 10 midGame) as [score [mv [Hrun _]]].
  - vm_compute. lia.
  - exists score, mv. exact Hrun.
Defined.

Lemma minimaxMove_places (fuel : nat) (b : Board) (moves : list Move) :
  validBoard b = true ->
  (length (freeCells b) < fuel)%nat ->
  (freeCells b = [] -> minimaxMove fuel b moves = Some (b, moves)) /\
  (freeCells b <> [] ->
   exists i j,
     In (i, j) allCells /\ get b i j = EMPTY /\
     minimaxMove fuel b moves = Some (set b i j COMPUTER, moves ++ [(i, j)])).
Proof.
  intros Hv Hfuel.
  destruct (driverChoice_first fuel b Hfuel) as [score [mv [Hrun Hcase]]].
  unfold minimaxMove, minimaxMoveWith. rewrite Hrun. split.
  - intros Hnil. destruct Hcase as [[-> _] | [idx [Hidx _]]]; [reflexivity |].
    rewrite Hnil in Hidx. discriminate Hidx.
  - intros Hne. destruct Hcase as [[_ [_ Hall]] | [idx [Hidx _]]].
    + exfalso. destruct (freeCells b) as [| [i j] l] eqn:Hfree; [congruence |].
      assert (In (i, j) (freeCells b)) as Hm by (rewrite Hfree; left; reflexivity).
      pose proof Hm as Hm'. apply freeCells_In in Hm' as [Hin He].
      rewrite <- Hfree in Hall. specialize (Hall i j Hm).
      destruct (gameValue_scores fuel (set b i j COMPUTER) false) as [H | [H | H]];
        try (rewrite H in Hall; discriminate Hall).
      * apply validBoard_set; auto.
      * pose proof (freeCells_set b i j COMPUTER Hin He COMPUTER_not_EMPTY) as Hd.
        rewrite Hfree in Hd. lia.
    + destruct mv as [i j].
      assert (In (i, j) (freeCells b)) as Hm.
      { apply list_elem_of_In. apply (list_elem_of_lookup_2 _ idx). exact Hidx. }
      apply freeCells_In in Hm as [Hin He]. exists i, j.
      split; [exact Hin |]. split; [exact He |]. cbn [fst snd].
      apply allCells_range in Hin.
      replace (i =? -1) with false by (symmetry; apply Z.eqb_neq; lia).
      reflexivity.
Qed.

(** X4: on a board of marks and blanks [minimaxMove] reports "no valid
    move" exactly when no cell is free, and then leaves the board and the
    log alone; otherwise it writes ['O'] into one cell that was empty,
    appends that cell to the log, and changes nothing else, whether or not
    the game was already decided. *)
Theorem minimaxMove_effect (fuel : nat) (b : Board) (moves : list Move) :
  validBoard b = true ->
  (length (freeCells b) < fuel)%nat ->
  (freeCells b = [] -> minimaxMove fuel b moves = Some (b, moves)) /\
  (freeCells b <> [] ->
   exists i j,
     In (i, j) allCells /\ get b i j = EMPTY /\
     minimaxMove fuel b moves = Some (set b i j COMPUTER, moves ++ [(i, j)])).
Proof. apply minimaxMove_places. Qed.

Lemma minimaxMove_effect_witness :
  exists i j,
    In (i, j) allCells /\ get midGame i j = EMPTY /\
    minimaxMove 10 midGame [] = Some (set midGame i j COMPUTER, [] ++ [(i, j)]).
Proof.
  apply (minimaxMove_effect 10 midGame []).
  - reflexivity.
  - vm_compute. lia.
  - discriminate.
Defined.

(** ** The driver takes a forced win *)

Lemma forcesWin_inv (o : bool) (b : Board) :
  forcesWin o b ->
  checkWinner b = COMPUTER \/
  (checkWinner b = EMPTY /\
   if o then exists i j, In (i, j) allCells /\ get b i j = EMPTY /\
                         forcesWin false (set b i j COMPUTER)
   else forall i j, In (i, j) allCells -> get b i j = EMPTY ->
                    forcesWin true (set b i j PLAYER)).
Proof.
  destruct 1 as [o b H | b i j Hw Hin He Hs | b Hw Hall]; auto.
  right. split; [exact Hw |]. exists i, j. auto.
Qed.

Lemma forcesWin_value (fuel : nat) :
  forall b o,
    validBoard b = true -> (length (freeCells b) < fuel)%nat ->
    (forcesWin o b <-> 10 <= gameValue fuel b o).
Proof.
  induction fuel as [| f IH]; intros b o Hv Hfuel; [lia |].
  rewrite gameValue_unfold.
  assert (forall i j mark, In (i, j) (freeCells b) -> isCell mark = true ->
            mark <> EMPTY ->
            forall o', forcesWin o' (set b i j mark)
                       <-> 10 <= gameValue f (set b i j mark) o') as Hchild.
  { intros i j mark Hfree Hmark Hne o'. apply freeCells_In in Hfree as [Hin He].
    apply IH; [apply validBoard_set; auto |].
    pose proof (freeCells_set b i j mark Hin He Hne). lia. }
  destruct (checkWinner_outcomes b Hv) as [Hw | [Hw | [Hw | Hw]]]; rewrite Hw.
  - cbn [Ascii.eqb EMPTY COMPUTER PLAYER DRAW Bool.eqb].
    destruct o.
    + rewrite foldMax_reaches. split.
      * intros Hs.
        destruct (forcesWin_inv _ _ Hs) as [? | [_ [i [j [Hin [He Hs']]]]]];
          [verdict_clash |].
        assert (In (i, j) (freeCells b)) as Hfree by (apply freeCells_In; auto).
        right. exists (i, j). split; [exact Hfree |].
        apply (proj1 (Hchild i j COMPUTER Hfree eq_refl COMPUTER_not_EMPTY false)), Hs'.
      * intros [Hbad | [[i j] [Hfree Hval]]]; [unfold INT_MIN in Hbad; lia |].
        pose proof Hfree as Hfree'. apply freeCells_In in Hfree' as [Hin He].
        apply (win_own b i j); auto.
        apply (proj2 (Hchild i j COMPUTER Hfree eq_refl COMPUTER_not_EMPTY false)), Hval.
    + rewrite foldMin_stays. split.
      * intros Hs.
        destruct (forcesWin_inv _ _ Hs) as [? | [_ Hall]]; [verdict_clash |].
        split; [unfold INT_MAX; lia |]. intros [i j] Hfree.
        pose proof Hfree as Hfree'. apply freeCells_In in Hfree' as [Hin He].
        apply (proj1 (Hchild i j PLAYER Hfree eq_refl PLAYER_not_EMPTY true)).
        apply Hall; assumption.
      * intros [_ Hall]. apply win_opp; [exact Hw |]. intros i j Hin He.
        assert (In (i, j) (freeCells b)) as Hfree by (apply freeCells_In; auto).
        apply (proj2 (Hchild i j PLAYER Hfree eq_refl PLAYER_not_EMPTY true)).
        apply (Hall (i, j) Hfree).
  - cbn [Ascii.eqb EMPTY COMPUTER PLAYER DRAW Bool.eqb]. split; [| lia].
    intros Hs. destruct (forcesWin_inv _ _ Hs) as [? | [? _]]; verdict_clash.
  - cbn [Ascii.eqb EMPTY COMPUTER PLAYER DRAW Bool.eqb]. split; [lia |].
    intros _. apply win_now, Hw.
  - cbn [Ascii.eqb EMPTY COMPUTER PLAYER DRAW Bool.eqb]. split; [| lia].
    intros Hs. destruct (forcesWin_inv _ _ Hs) as [? | [? _]]; verdict_clash.
Qed.

(** X5: whenever some free cell gives the automated side a forced win,
    [minimaxMove] plays a cell that gives a forced win, and the scan's best
    score is 10. *)
Theorem minimaxMove_takes_forced_win (fuel : nat) (b : Board) (moves : list Move) :
  validBoard b = true ->
  (length (freeCells b) < fuel)%nat ->
  (exists i j, In (i, j) allCells /\ get b i j = EMPTY /\
               forcesWin false (set b i j COMPUTER)) ->
  exists i j,
    driverChoice (minimax fuel) b = Some (10, (i, j), b) /\
    In (i, j) allCells /\ get b i j = EMPTY /\
    forcesWin false (set b i j COMPUTER) /\
    minimaxMove fuel b moves = Some (set b i j COMPUTER, moves ++ [(i, j)]).
Proof.
  intros Hv Hfuel [i0 [j0 [Hin0 [He0 Hs0]]]].
  assert (forall i j, In (i, j) allCells -> get b i j = EMPTY ->
            validBoard (set b i j COMPUTER) = true /\
            (length (freeCells (set b i j COMPUTER)) < fuel)%nat) as Hsub.
  { intros i j Hin He. split; [apply validBoard_set; auto |].
    pose proof (freeCells_set b i j COMPUTER Hin He COMPUTER_not_EMPTY). lia. }
  destruct (driverChoice_first fuel b Hfuel) as [score [mv [Hrun Hcase]]].
  assert (In (i0, j0) (freeCells b)) as Hfree0 by (apply freeCells_In; auto).
  destruct (Hsub i0 j0 Hin0 He0) as [Hv0 Hf0].
  pose proof (proj1 (forcesWin_value fuel _ false Hv0 Hf0) Hs0) as Hten.
  destruct Hcase as [[_ [_ Hall]] | [idx [Hidx [Hscore Hmax]]]].
  - rewrite (Hall i0 j0 Hfree0) in Hten. unfold INT_MIN in Hten. lia.
  - destruct mv as [i j].
    assert (In (i, j) (freeCells b)) as Hm.
    { apply list_elem_of_In. apply (list_elem_of_lookup_2 _ idx). exact Hidx. }
    apply freeCells_In in Hm as [Hin He]. destruct (Hsub i j Hin He) as [Hvm Hfm].
    cbn [fst snd] in Hscore.
    destruct (proj1 (list_elem_of_lookup _ _) (proj2 (list_elem_of_In _ _) Hfree0))
      as [idx0 Hidx0].
    destruct (Hmax idx0 i0 j0 Hidx0) as [Hle _].
    assert (score = 10) as ->.
    { destruct (gameValue_scores fuel (set b i j COMPUTER) false Hvm Hfm)
        as [H | [H | H]]; lia. }
    exists i, j. split; [exact Hrun |]. split; [exact Hin |]. split; [exact He |].
    split.
    + apply (forcesWin_value fuel _ false Hvm Hfm). lia.
    + unfold minimaxMove, minimaxMoveWith. rewrite Hrun. cbn [fst snd].
      apply allCells_range in Hin.
      replace (i =? -1) with false by (symmetry; apply Z.eqb_neq; lia).
      reflexivity.
Qed.

Lemma minimaxMove_takes_forced_win_witness :
  exists i j,
    driverChoice (minimax 10) midGame = Some (10, (i, j), midGame) /\
    In (i, j) allCells /\ get midGame i j = EMPTY /\
    forcesWin false (set midGame i j COMPUTER) /\
    minimaxMove 10 midGame [] = Some (set midGame i j COMPUTER, [] ++ [(i, j)]).
Proof.
  apply (minimaxMove_takes_forced_win 10 midGame []).
  - reflexivity.
  - vm_compute. lia.
  - exists 1, 2. split; [apply allCells_range; lia |]. split; [reflexivity |].
    apply win_now. reflexivity.
Defined.

(** ** The verdict after a move *)

(** X6: a move of a side onto an empty cell of an undecided board of marks
    and blanks cannot make the other side win: the verdict afterwards is
    "ongoing", a win of the mover, or a draw; it is a win of the mover
    exactly when the mover now has a line, and one cell fewer is free. *)
Theorem move_verdict (b : Board) (i j : Z) (p : ascii) :
  validBoard b = true -> checkWinner b = EMPTY ->
  In (i, j) allCells -> get b i j = EMPTY ->
  p = PLAYER \/ p = COMPUTER ->
  (checkWinner (set b i j p) = EMPTY \/ checkWinner (set b i j p) = p \/
   checkWinner (set b i j p) = DRAW) /\
  (checkWinner (set b i j p) = p <-> hasLine (set b i j p) p = true) /\
  countFreeSpaces (set b i j p) = countFreeSpaces b - 1.
Proof.
  intros Hv Hw Hin He Hp.
  assert (validBoard (set b i j p) = true) as Hv'.
  { apply validBoard_set; auto. apply isCell_iff. tauto. }
  assert (p <> EMPTY) as Hne by (destruct Hp as [-> | ->]; discriminate).
  apply checkWinner_EMPTY in Hw as [Hno _].
  assert (hasLine (set b i j p) (otherPlayer p) = false) as Hother.
  { apply not_true_is_false. intros Hl.
    apply hasLine_set_other in Hl; [| exact Hin | destruct Hp as [-> | ->]; discriminate].
    rewrite Hno in Hl; [discriminate |].
    destruct Hp as [-> | ->]; discriminate. }
  split; [| split].
  - destruct (checkWinner_outcomes _ Hv') as [H | [H | [H | H]]]; auto;
      destruct Hp as [-> | ->]; auto; exfalso.
    + apply checkWinner_side in H; [| discriminate | discriminate].
      change (otherPlayer COMPUTER) with PLAYER in Hother. congruence.
    + apply checkWinner_side in H; [| discriminate | discriminate].
      change (otherPlayer PLAYER) with COMPUTER in Hother. congruence.
  - split.
    + intros Hw. apply checkWinner_side; auto. destruct Hp as [-> | ->]; discriminate.
    + intros Hl.
      destruct (checkWinner_line _ Hv') as [l [_ [_ [Hside Hwl]]]].
      { destruct Hp as [-> | ->]; auto. }
      destruct (otherPlayer_cases p Hp) as [[-> Ho] | [-> Ho]];
        rewrite Ho in Hother; destruct Hside as [Hw | Hw]; auto;
        rewrite Hw in Hwl; congruence.
  - rewrite !countFreeSpaces_length.
    pose proof (freeCells_set b i j p Hin He Hne). lia.
Qed.

Lemma move_verdict_witness :
  checkWinner (set midGame 0 2 PLAYER) = PLAYER <->
  hasLine (set midGame 0 2 PLAYER) PLAYER = true.
Proof.
  apply (move_verdict midGame 0 2 PLAYER).
  - reflexivity.
  - reflexivity.
  - apply allCells_range. lia.
  - reflexivity.
  - left. reflexivity.
Defined.

(** X7: the two source files compute the same [checkWinner] on every
    grid of characters, although they order and chain the comparisons
    differently. *)
Theorem checkWinner_files_agree (b : Board) : checkWinner' b = checkWinner b.
Proof. apply checkWinner'_eq. Qed.

(** ** Reading a player's move *)

Lemma acceptable_dec (board : Board) (row column : Z) :
  (row <? 1) || (row >? BOARD_SIZE) || (column <? 1) || (column >? BOARD_SIZE) = false /\
  negb (Ascii.eqb (get board (row - 1) (column - 1)) EMPTY) = false
  <-> acceptable board (Read row column).
Proof.
  unfold acceptable, BOARD_SIZE.
  rewrite !orb_false_iff, negb_false_iff, Ascii.eqb_eq.
  rewrite !Z.ltb_ge, !Z.gtb_ltb, !Z.ltb_ge. intuition lia.
Qed.

Lemma handlePlayerInput_some (input : list Attempt) (p : ascii) (board : Board)
    (log : list Move) :
  forall board' log' rest,
    handlePlayerInput input p board log = Some (board', log', rest) ->
    exists skipped row column,
      input = skipped ++ Read row column :: rest /\
      (forall a, In a skipped -> ~ acceptable board a) /\
      acceptable board (Read row column) /\
      board' = set board (row - 1) (column - 1) p /\
      log' = log ++ [(row - 1, column - 1)].
Proof.
  induction input as [| a input IH]; intros board' log' rest; [discriminate |].
  assert (forall bad, ~ acceptable board bad ->
            handlePlayerInput input p board log = Some (board', log', rest) ->
            exists skipped row column,
              bad :: input = skipped ++ Read row column :: rest /\
              (forall a, In a skipped -> ~ acceptable board a) /\
              acceptable board (Read row column) /\
              board' = set board (row - 1) (column - 1) p /\
              log' = log ++ [(row - 1, column - 1)]) as Hskip.
  { intros bad Hbad Hrun.
    destruct (IH _ _ _ Hrun) as [skipped [row [column [-> [Hsk Hrest]]]]].
    exists (bad :: skipped), row, column. split; [reflexivity |].
    split; [| exact Hrest]. intros a' [<- | Ha']; [exact Hbad | apply Hsk, Ha']. }
  destruct a as [| | row column]; cbn [handlePlayerInput].
  - apply Hskip. intros [].
  - apply Hskip. intros [].
  - destruct ((row <? 1) || (row >? BOARD_SIZE) || (column <? 1) || (column >? BOARD_SIZE))
      eqn:Hrange.
    { apply Hskip. intros Hacc. apply acceptable_dec in Hacc as [Hr _]. congruence. }
    destruct (negb (Ascii.eqb (get board (row - 1) (column - 1)) EMPTY)) eqn:Htaken.
    { apply Hskip. intros Hacc. apply acceptable_dec in Hacc as [_ Ht]. congruence. }
    intros [= <- <- <-]. exists [], row, column. split; [reflexivity |].
    split; [intros a [] |]. split; [apply acceptable_dec; auto | auto].
Qed.

Lemma handlePlayerInput_none (input : list Attempt) (p : ascii) (board : Board)
    (log : list Move) :
  handlePlayerInput input p board log = None <->
  forall a, In a input -> ~ acceptable board a.
Proof.
  induction input as [| a input IH].
  - split; [intros _ a [] | reflexivity].
  - assert (~ acceptable board a ->
            (handlePlayerInput input p board log = None <->
             forall a', In a' (a :: input) -> ~ acceptable board a')) as Hskip.
    { intros Hbad. rewrite IH. split.
      - intros Hall a' [<- | Ha']; [exact Hbad | apply Hall, Ha'].
      - intros Hall a' Ha'. apply Hall. right. exact Ha'. }
    destruct a as [| | row column]; cbn [handlePlayerInput].
    + apply Hskip. intros [].
    + apply Hskip. intros [].
    + destruct ((row <? 1) || (row >? BOARD_SIZE) || (column <? 1)
                || (column >? BOARD_SIZE)) eqn:Hrange.
      { apply Hskip. intros Hacc. apply acceptable_dec in Hacc as [Hr _]. congruence. }
      destruct (negb (Ascii.eqb (get board (row - 1) (column - 1)) EMPTY)) eqn:Htaken.
      { apply Hskip. intros Hacc. apply acceptable_dec in Hacc as [_ Ht]. congruence. }
      split; [discriminate |]. intros Hall. exfalso.
      apply (Hall (Read row column)); [left; reflexivity |].
      apply acceptable_dec. auto.
Qed.

(** X8: [handlePlayerInput] takes the first attempt that reads two
    numbers from 1 to 3 naming an empty cell: it writes the player's
    character into that cell and no other, and appends the cell, counted
    from 0, to the log.  Every attempt before it is one it must refuse (a
    failed read, a number out of range, a taken cell) and leaves no trace.
    It does not come back while no attempt can be accepted. *)
Theorem handlePlayerInput_first_acceptable (input : list Attempt) (p : ascii)
    (board : Board) (log : list Move) :
  (forall board' log' rest,
     handlePlayerInput input p board log = Some (board', log', rest) ->
     exists skipped row column,
       input = skipped ++ Read row column :: rest /\
       (forall a, In a skipped -> ~ acceptable board a) /\
       acceptable board (Read row column) /\
       board' = set board (row - 1) (column - 1) p /\
       log' = log ++ [(row - 1, column - 1)] /\
       (forall i j, In (i, j) allCells -> (i, j) <> (row - 1, column - 1) ->
                    get board' i j = get board i j)) /\
  (handlePlayerInput input p board log = None <->
   forall a, In a input -> ~ acceptable board a).
Proof.
  split; [| apply handlePlayerInput_none].
  intros board' log' rest Hrun.
  destruct (handlePlayerInput_some _ _ _ _ _ _ _ Hrun)
    as [skipped [row [column [Hin [Hsk [Hacc [-> ->]]]]]]].
  exists skipped, row, column. repeat (split; [assumption || reflexivity |]).
  intros i j Hcell Hne. destruct Hacc as [Hr [Hc _]]. unfold BOARD_SIZE in *.
  apply get_set_other; [apply allCells_range; lia | exact Hcell | congruence].
Qed.

(** Two refused attempts, then a move to the centre. *)
Example handlePlayerInput_run :
  handlePlayerInput [RowFails; Read 0 2; Read 1 1; Read 2 2; Read 3 3] PLAYER
                    (set emptyBoard 0 0 COMPUTER) []
  = Some (set (set emptyBoard 0 0 COMPUTER) 1 1 PLAYER, [(1, 1)], [Read 3 3]).
Proof. reflexivity. Qed.

(** ** The random move, the rollout, selection and expansion *)



Section MoreMCTS.
Context {F : FloatOps} {R : RandomSource}.

Lemma getRandomComputerMove_spec (b : Board) (g : Gen) :
  exists m g',
    getRandomComputerMove b g = Some (m, g') /\
    (m = NO_MOVE <-> freeCells b = []) /\
    (freeCells b = [] -> g' = g) /\
    (freeCells b <> [] ->
     g' = snd (rand g) /\ In m allCells /\ get b (fst m) (snd m) = EMPTY).
Proof.
  unfold getRandomComputerMove.
  destruct (freeCells b) as [| m0 l0] eqn:Hfree.
  - exists NO_MOVE, g. split; [reflexivity |]. split; [tauto |]. split; [auto | congruence].
  - destruct (rand g) as [r g'] eqn:Hrand.
    set (idx := Z.to_nat (r mod Z.of_nat (length (m0 :: l0)))).
    assert (idx < length (m0 :: l0))%nat as Hidx.
    { unfold idx.
      pose proof (Z.mod_pos_bound r (Z.of_nat (length (m0 :: l0)))) as Hb.
      simpl length in *. lia. }
    destruct (lookup_lt_is_Some_2 _ _ Hidx) as [m Hm]. rewrite Hm.
    assert (In m (freeCells b)) as Hin.
    { rewrite Hfree. apply list_elem_of_In. apply (list_elem_of_lookup_2 _ idx). exact Hm. }
    apply freeCells_In' in Hin as [Hcell He].
    exists m, g'. split; [reflexivity |]. split; [| split; [discriminate |]].
    + split; [| discriminate]. intros ->. apply allCells_range in Hcell.
      cbn [fst snd] in Hcell. lia.
    + intros _. auto.
Qed.

(** X9: [getRandomComputerMove] returns the sentinel exactly when no cell
    is free, without drawing a number; otherwise it draws once and returns
    a cell of the grid that is empty. *)
Theorem getRandomComputerMove_free (b : Board) (g : Gen) :
  exists m g',
    getRandomComputerMove b g = Some (m, g') /\
    (m = NO_MOVE <-> freeCells b = []) /\
    (freeCells b = [] -> g' = g) /\
    (freeCells b <> [] ->
     g' = snd (rand g) /\ In m allCells /\ get b (fst m) (snd m) = EMPTY).
Proof. apply getRandomComputerMove_spec. Qed.




(** *** Selection *)

Lemma selectChildLoop_member (h : Heap) (pv : Z) (cs : list nat) :
  forall best u r,
    selectChildLoop h pv cs best u = Some r ->
    r = best \/ exists c, r = Some c /\ In c cs.
Proof.
  induction cs as [| c rest IH]; intros best u r; cbn [selectChildLoop].
  - intros [= <-]. auto.
  - destruct (h !! c) as [cd |]; [| discriminate].
    destruct (fgt (calculateUCT cd pv) u); intros Hrun; apply IH in Hrun.
    + right. destruct Hrun as [-> | [c' [-> Hc']]]; [exists c | exists c']; simpl; auto.
    + destruct Hrun as [-> | [c' [-> Hc']]]; [left | right; exists c']; simpl; auto.
Qed.

Lemma selectChildLoop_none (h : Heap) (pv : Z) (cs : list nat) (u : double) :
  forall best r,
    selectChildLoop h pv cs best u = Some r ->
    (forall c cd, In c cs -> h !! c = Some cd -> fgt (calculateUCT cd pv) u = false) ->
    r = best.
Proof.
  induction cs as [| c rest IH]; intros best r; cbn [selectChildLoop].
  - intros [= <-]. reflexivity.
  - destruct (h !! c) as [cd |] eqn:Hcd; [| discriminate].
    intros Hrun Hall. rewrite (Hall c cd (or_introl eq_refl) Hcd) in Hrun.
    apply (IH _ _ Hrun). intros c' cd' Hc'. apply Hall. right. exact Hc'.
Qed.

Lemma selectChildLoop_some (h : Heap) (pv : Z) (cs : list nat) (u : double) :
  forall r,
    selectChildLoop h pv cs None u = Some r ->
    (exists c cd, In c cs /\ h !! c = Some cd /\ fgt (calculateUCT cd pv) u = true) ->
    r <> None.
Proof.
  induction cs as [| c rest IH]; intros r; cbn [selectChildLoop].
  - intros _ [c [cd [[] _]]].
  - destruct (h !! c) as [cd |] eqn:Hcd; [| discriminate].
    destruct (fgt (calculateUCT cd pv) u) eqn:Hgt.
    + intros Hrun _. apply selectChildLoop_member in Hrun.
      destruct Hrun as [-> | [c' [-> _]]]; discriminate.
    + intros Hrun [c' [cd' [[<- | Hc'] [Hcd' Hgt']]]].
      * rewrite Hcd in Hcd'. injection Hcd' as <-. congruence.
      * apply (IH _ Hrun). eauto.
Qed.

Lemma selectChild_result (h : Heap) (k : nat) (r : NodePtr) :
  selectChild h k = Some r ->
  exists nd,
    h !! k = Some nd /\
    (forall c, r = Some c -> In c (children nd)) /\
    (r = None <->
     forall c cd, In c (children nd) -> h !! c = Some cd ->
                  fgt (calculateUCT cd (N nd)) lit_neg_1 = false) /\
    (children nd = [] -> r = None).
Proof.
  unfold selectChild. destruct (h !! k) as [nd |]; [| discriminate].
  intros Hrun. exists nd. split; [reflexivity |]. split; [| split].
  - intros c ->. apply selectChildLoop_member in Hrun.
    destruct Hrun as [Hbad | [c' [[= <-] Hc']]]; [discriminate | exact Hc'].
  - split.
    + intros -> c cd Hc Hcd. apply not_true_is_false. intros Hgt.
      apply (selectChildLoop_some _ _ _ _ _ Hrun); eauto.
    + apply (selectChildLoop_none _ _ _ _ _ _ Hrun).
  - intros Hnil. rewrite Hnil in Hrun. injection Hrun as <-. reflexivity.
Qed.

(** X11: on a node whose children are nodes of the tree [selectChild]
    returns one of the node's own children or NULL, and NULL exactly when
    no child has a UCT value above -1.0 (in particular when the node has
    no children); this holds for any floating-point arithmetic. *)
Theorem selectChild_member (h : Heap) (k : nat) (nd : MCTSNode) :
  h !! k = Some nd ->
  (forall c, In c (children nd) -> is_Some (h !! c)) ->
  exists r,
    selectChild h k = Some r /\
    (forall c, r = Some c -> In c (children nd)) /\
    (r = None <->
     forall c cd, In c (children nd) -> h !! c = Some cd ->
                  fgt (calculateUCT cd (N nd)) lit_neg_1 = false) /\
    (children nd = [] -> r = None).
Proof.
  intros Hk Hcs.
  destruct (selectChildLoop_returns h (N nd) (children nd) Hcs None lit_neg_1)
    as [r [Hr _]].
  assert (selectChild h k = Some r) as Hrun
    by (unfold selectChild; rewrite Hk; exact Hr).
  exists r. split; [exact Hrun |].
  destruct (selectChild_result h k r Hrun) as [nd' [Hnd' Hrest]].
  rewrite Hk in Hnd'. injection Hnd' as <-. exact Hrest.
Qed.

(** *** Expansion *)

(** X12: [expandNode] on a node with untried moves takes the last of them,
    allocates one node for the position after the node's side has played
    it, with the other side to move, no visits, no children and the empty
    cells of the new board as untried moves, links it as the node's last
    child, and leaves all other nodes as they are. *)
Theorem expandNode_effect (h : Heap) (k : nat) (g : Gen) (nd : MCTSNode) :
  h !! k = Some nd -> untriedMoves nd <> [] ->
  exists h' g' move rest child,
    expandNode h k g = Some (h', length h, g') /\
    length h' = S (length h) /\
    untriedMoves nd = rest ++ [move] /\
    h' !! k = Some (withLists nd (children nd ++ [length h]) rest) /\
    h' !! length h = Some child /\
    boardState child
    = set (boardState nd) (fst move) (snd move) (playerToMove nd) /\
    playerToMove child = otherPlayer (playerToMove nd) /\
    lastMove child = move /\ W child = 0 /\ N child = 0 /\
    parent child = Some k /\ children child = [] /\
    Permutation (untriedMoves child) (freeCells (boardState child)) /\
    (forall a, a <> k -> (a < length h)%nat -> h' !! a = h !! a).
Proof.
  intros Hnd Hne. pose proof (lookup_lt_Some _ _ _ Hnd) as Hk.
  destruct (expandNode_spec h k g nd Hnd Hne) as [move [rest [um [g' [Hrest [Hperm Hexp]]]]]].
  eexists _, g', move, rest, _. split; [exact Hexp |].
  split; [rewrite length_app, length_insert; simpl; lia |].
  split; [exact Hrest |]. split.
  { rewrite lookup_app_l by (rewrite length_insert; exact Hk).
    apply list_lookup_insert_eq, Hk. }
  split.
  { rewrite lookup_app_r by (rewrite length_insert; lia).
    rewrite length_insert, Nat.sub_diag. reflexivity. }
  cbn [boardState playerToMove lastMove W N parent children untriedMoves].
  repeat (split; [reflexivity || exact Hperm |]).
  intros a Ha Hlt. rewrite lookup_app_l by (rewrite length_insert; exact Hlt).
  apply list_lookup_insert_ne. congruence.
Qed.
(** *** What a pass of the loop keeps *)

Lemma expandNode_inv (h : Heap) (k : nat) (g : Gen) (h1 : Heap) (c : nat) (g1 : Gen) :
  expandNode h k g = Some (h1, c, g1) ->
  exists nd move rest um,
    h !! k = Some nd /\ untriedMoves nd = rest ++ [move] /\ c = length h /\
    Permutation um
      (freeCells (set (boardState nd) (fst move) (snd move) (playerToMove nd))) /\
    h1 = <[k := withLists nd (children nd ++ [length h]) rest]> h
         ++ [mkNode (set (boardState nd) (fst move) (snd move) (playerToMove nd))
                    (otherPlayer (playerToMove nd)) move 0 0 (Some k) [] um].
Proof.
  intros Hrun.
  destruct (h !! k) as [nd |] eqn:Hnd;
    [| unfold expandNode in Hrun; rewrite Hnd in Hrun; discriminate].
  destruct (untriedMoves nd) as [| m0 l0] eqn:Hu;
    [unfold expandNode in Hrun; rewrite Hnd, Hu in Hrun; discriminate |].
  destruct (expandNode_spec h k g nd Hnd) as [move [rest [um [g' [Hrest [Hperm Hexp]]]]]];
    [rewrite Hu; discriminate |].
  rewrite Hexp in Hrun. injection Hrun as <- <- <-.
  exists nd, move, rest, um.
  split; [reflexivity |]. split; [exact Hrest |]. split; [reflexivity |].
  split; [exact Hperm | reflexivity].
Qed.

Lemma iteration_cases (fuel : nat) (h : Heap) (g : Gen) (h' : Heap) (g' : Gen) :
  iteration fuel h g = Some (h', g') ->
  exists node h1 node1 g1 result,
    ((h1 = h /\ node1 = node /\ (node < length h)%nat) \/
     expandNode h node g = Some (h1, node1, g1)) /\
    backpropagate fuel h1 (Some node1) result = Some h'.
Proof.
  unfold iteration. destruct (selectLoop fuel h 0%nat) as [node |]; [| discriminate].
  destruct (h !! node) as [nd |] eqn:Hnd; [| discriminate].
  destruct (if negb (match untriedMoves nd with [] => true | _ => false end)
               && Ascii.eqb (checkWinner (boardState nd)) EMPTY
            then expandNode h node g else Some (h, node, g))
    as [[[h1 node1] g1] |] eqn:Hexp; [| discriminate].
  destruct (h1 !! node1) as [nd1 |]; [| discriminate].
  destruct (if Ascii.eqb (checkWinner (boardState nd1)) EMPTY
            then simulateGame fuel (boardState nd1) (playerToMove nd1) g1
            else Some (resultOf (checkWinner (boardState nd1)), g1))
    as [[result g2] |]; [| discriminate].
  destruct (backpropagate fuel h1 (Some node1) result) as [h2 |] eqn:Hback;
    [| discriminate].
  intros [= <- _]. exists node, h1, node1, g1, result. split; [| exact Hback].
  destruct (negb _ && _).
  - right. exact Hexp.
  - left. injection Hexp as <- <- _. split; [reflexivity |]. split; [reflexivity |].
    apply (lookup_lt_Some _ _ _ Hnd).
Qed.

Lemma statsOnly_back (h h' : Heap) (a : nat) (nd' : MCTSNode) :
  statsOnly h h' -> h' !! a = Some nd' ->
  exists nd, h !! a = Some nd /\ skel nd' = skel nd /\ N nd <= N nd'.
Proof.
  intros [Hlen Hst] Ha'.
  assert (a < length h)%nat as Ha by (rewrite <- Hlen; apply (lookup_lt_Some _ _ _ Ha')).
  destruct (lookup_lt_is_Some_2 h a Ha) as [nd Hnd].
  destruct (Hst a nd Hnd) as [nd2 [Ha2 [Hskel HN]]].
  rewrite Ha' in Ha2. injection Ha2 as <-. exists nd. auto.
Qed.

Lemma childMoves_cons (h : Heap) (c : nat) (cs : list nat) :
  childMoves h (c :: cs) =
  match lastMove <$> (h !! c) with
  | Some m => m :: childMoves h cs
  | None => childMoves h cs
  end.
Proof. reflexivity. Qed.

Lemma childMoves_same (h h' : Heap) (cs : list nat) :
  (forall c, In c cs -> lastMove <$> (h' !! c) = lastMove <$> (h !! c)) ->
  childMoves h' cs = childMoves h cs.
Proof.
  induction cs as [| c cs IH]; intros Hsame; [reflexivity |].
  rewrite !childMoves_cons, (Hsame c (or_introl eq_refl)).
  rewrite IH; [reflexivity |]. intros c' Hc'. apply Hsame. right. exact Hc'.
Qed.

Lemma childMoves_length (h : Heap) (cs : list nat) :
  (forall c, In c cs -> (c < length h)%nat) ->
  length (childMoves h cs) = length cs.
Proof.
  induction cs as [| c cs IH]; intros Hcs; [reflexivity |].
  destruct (lookup_lt_is_Some_2 h c (Hcs c (or_introl eq_refl))) as [cd Hcd].
  rewrite childMoves_cons, Hcd. simpl. f_equal. apply IH.
  intros c' Hc'. apply Hcs. right. exact Hc'.
Qed.

Lemma lastMove_statsOnly (h h' : Heap) (c : nat) :
  statsOnly h h' -> (c < length h)%nat ->
  lastMove <$> (h' !! c) = lastMove <$> (h !! c).
Proof.
  intros [Hlen Hst] Hc. destruct (lookup_lt_is_Some_2 h c Hc) as [cd Hcd].
  destruct (Hst c cd Hcd) as [cd' [Hcd' [Hskel _]]]. rewrite Hcd, Hcd'. simpl.
  destruct (skel_fields _ _ Hskel) as [_ [_ [Hl _]]]. congruence.
Qed.

Lemma movesSplit_statsOnly (h h' : Heap) :
  movesSplit h -> statsOnly h h' -> movesSplit h'.
Proof.
  intros Hms Hst k nd' Hk'.
  destruct (statsOnly_back h h' k nd' Hst Hk') as [nd [Hnd [Hskel _]]].
  destruct (skel_fields _ _ Hskel) as [Hb [_ [_ [_ [Hc Hu]]]]].
  destruct (Hms k nd Hnd) as [Hvalid Hperm]. rewrite Hb, Hc, Hu.
  destruct Hst as [Hlen Hst'].
  split; [intros c Hcin; rewrite Hlen; apply Hvalid, Hcin |].
  rewrite (childMoves_same h h'); [exact Hperm |].
  intros c Hcin. apply lastMove_statsOnly; [split; assumption | apply Hvalid, Hcin].
Qed.

Lemma linked_statsOnly (h h' : Heap) : linked h -> statsOnly h h' -> linked h'.
Proof.
  intros Hl Hst k nd' Hk'.
  destruct (statsOnly_back h h' k nd' Hst Hk') as [nd [Hnd [Hskel _]]].
  destruct (skel_fields _ _ Hskel) as [Hb [Hp [Hlm [Hpa _]]]].
  specialize (Hl k nd Hnd). rewrite Hpa, Hb, Hp, Hlm.
  destruct (parent nd) as [p |]; [| exact I].
  destruct Hl as [pd [Hpd [Hin [Hboard Hside]]]].
  destruct Hst as [_ Hst']. destruct (Hst' p pd Hpd) as [pd' [Hpd' [Hskel' _]]].
  destruct (skel_fields _ _ Hskel') as [Hb' [Hp' [_ [_ [Hc' _]]]]].
  exists pd'. rewrite Hb', Hp', Hc'. auto.
Qed.

Section Expansion.
Variables (h : Heap) (k : nat) (nd : MCTSNode) (move : Move) (rest um : list Move).
Hypothesis Hnd : h !! k = Some nd.
Hypothesis Hrest : untriedMoves nd = rest ++ [move].
Hypothesis Hum :
  Permutation um
    (freeCells (set (boardState nd) (fst move) (snd move) (playerToMove nd))).

Let nd' := withLists nd (children nd ++ [length h]) rest.
Let child :=
  mkNode (set (boardState nd) (fst move) (snd move) (playerToMove nd))
         (otherPlayer (playerToMove nd)) move 0 0 (Some k) [] um.
Let h1 := <[k := nd']> h ++ [child].

Lemma expand_lookup (a : nat) :
  (a < length h)%nat -> h1 !! a = if decide (a = k) then Some nd' else h !! a.
Proof.
  intros Ha. unfold h1. rewrite lookup_app_l by (rewrite length_insert; exact Ha).
  case_decide as E.
  - subst. apply list_lookup_insert_eq, Ha.
  - apply list_lookup_insert_ne. congruence.
Qed.

Lemma expand_lookup_new : h1 !! length h = Some child.
Proof.
  unfold h1. rewrite lookup_app_r by (rewrite length_insert; lia).
  rewrite length_insert, Nat.sub_diag. reflexivity.
Qed.

Lemma expand_length : length h1 = S (length h).
Proof. unfold h1. rewrite length_app, length_insert. simpl. lia. Qed.

Lemma expand_cases (a : nat) (x : MCTSNode) :
  h1 !! a = Some x ->
  (a = k /\ x = nd') \/ (a <> k /\ (a < length h)%nat /\ h !! a = Some x) \/
  (a = length h /\ x = child).
Proof.
  intros Ha. pose proof (lookup_lt_Some _ _ _ Ha) as Hlt. rewrite expand_length in Hlt.
  assert (a < length h \/ a = length h)%nat as [Hlt' | ->] by lia.
  - rewrite (expand_lookup a Hlt') in Ha. case_decide as E.
    + injection Ha as <-. auto.
    + auto.
  - rewrite expand_lookup_new in Ha. injection Ha as <-. auto.
Qed.

Lemma expand_lastMove (c : nat) :
  (c < length h)%nat -> lastMove <$> (h1 !! c) = lastMove <$> (h !! c).
Proof.
  intros Hc. rewrite (expand_lookup c Hc). case_decide as E; [| reflexivity].
  subst. rewrite Hnd. reflexivity.
Qed.

Lemma movesSplit_expand : movesSplit h -> movesSplit h1.
Proof.
  intros Hms a x Ha. pose proof (lookup_lt_Some _ _ _ Hnd) as Hk.
  destruct (Hms k nd Hnd) as [Hvalid Hperm].
  destruct (expand_cases a x Ha) as [[-> ->] | [[Hne [Hlt Hx]] | [-> ->]]].
  - unfold nd'. cbn [children untriedMoves boardState withLists]. split.
    + intros c Hc. rewrite expand_length.
      apply in_app_or in Hc as [Hc | [<- | []]]; [apply Hvalid in Hc |]; lia.
    + assert (childMoves h1 (children nd ++ [length h])
              = childMoves h (children nd) ++ [move]) as ->.
      { unfold childMoves at 1. rewrite omap_app.
        change (omap (fun c => lastMove <$> (h1 !! c)) (children nd))
          with (childMoves h1 (children nd)).
        rewrite (childMoves_same h h1)
          by (intros c Hc; apply expand_lastMove, Hvalid, Hc).
        f_equal.
        change (omap (fun c => lastMove <$> (h1 !! c)) [length h])
          with (childMoves h1 [length h]).
        rewrite childMoves_cons, expand_lookup_new. reflexivity. }
      rewrite Hrest in Hperm. rewrite <- Hperm.
      rewrite <- !app_assoc. apply Permutation_app_head. apply Permutation_app_comm.
  - destruct (Hms a x Hx) as [Hvalid' Hperm']. split.
    + intros c Hc. rewrite expand_length. apply Hvalid' in Hc. lia.
    + rewrite (childMoves_same h h1); [exact Hperm' |].
      intros c Hc. apply expand_lastMove, Hvalid', Hc.
  - unfold child. cbn [children untriedMoves boardState]. split; [intros c [] |].
    unfold childMoves. simpl. rewrite app_nil_r. exact Hum.
Qed.

Lemma linked_expand : linked h -> linked h1.
Proof.
  intros Hl a x Ha. pose proof (lookup_lt_Some _ _ _ Hnd) as Hk.
  assert (forall p pd, h !! p = Some pd ->
            exists pd', h1 !! p = Some pd' /\ boardState pd' = boardState pd /\
                        playerToMove pd' = playerToMove pd /\
                        (forall c, In c (children pd) -> In c (children pd'))) as Hkeep.
  { intros p pd Hpd. pose proof (lookup_lt_Some _ _ _ Hpd) as Hp.
    rewrite (expand_lookup p Hp). case_decide as E.
    - subst. rewrite Hnd in Hpd. injection Hpd as <-. exists nd'.
      split; [reflexivity |]. split; [reflexivity |]. split; [reflexivity |].
      intros c Hc. unfold nd'. cbn [children withLists]. apply in_or_app. left. exact Hc.
    - exists pd. auto. }
  assert (forall y, h !! a = Some y ->
            match parent y with
            | None => True
            | Some p =>
              exists pd, h1 !! p = Some pd /\ In a (children pd) /\
                boardState y = set (boardState pd) (fst (lastMove y)) (snd (lastMove y))
                                   (playerToMove pd) /\
                playerToMove y = otherPlayer (playerToMove pd)
            end) as Hold.
  { intros y Hy. specialize (Hl a y Hy). destruct (parent y) as [p |]; [| exact I].
    destruct Hl as [pd [Hpd [Hin [Hboard Hside]]]].
    destruct (Hkeep p pd Hpd) as [pd' [Hpd' [Hb' [Hp' Hc']]]].
    exists pd'. rewrite Hb', Hp'. auto. }
  destruct (expand_cases a x Ha) as [[-> ->] | [[Hne [Hlt Hx]] | [-> ->]]].
  - apply (Hold nd Hnd).
  - apply (Hold x Hx).
  - unfold child. cbn [parent boardState playerToMove lastMove].
    exists nd'. rewrite (expand_lookup k Hk). case_decide; [| congruence].
    split; [reflexivity |]. unfold nd'. cbn [children boardState playerToMove withLists].
    split; [apply in_or_app; right; left; reflexivity | auto].
Qed.
End Expansion.

Lemma backpropagate_bounds (fuel : nat) :
  forall h current result h',
    backpropagate fuel h current result = Some h' ->
    (forall k nd, h !! k = Some nd -> 0 <= W nd <= N nd) ->
    forall k nd, h' !! k = Some nd -> 0 <= W nd <= N nd.
Proof.
  induction fuel as [| f IH]; intros h current result h'.
  - destruct current; simpl; [discriminate |]. intros [= <-]. auto.
  - destruct current as [k |]; simpl; [| intros [= <-]; auto].
    destruct (h !! k) as [nd |] eqn:Hk; [| discriminate].
    intros Hrun Hall. apply (IH _ _ _ _ Hrun).
    intros a x Ha. destruct (decide (a = k)) as [-> | Hne].
    + rewrite list_lookup_insert_eq in Ha by (apply (lookup_lt_Some _ _ _ Hk)).
      injection Ha as <-. specialize (Hall k nd Hk).
      unfold visited, scoreToBackpropagate. simpl.
      destruct (result =? 10); [lia |]. destruct (result =? -10); lia.
    + rewrite list_lookup_insert_ne in Ha by congruence. apply (Hall a x Ha).
Qed.

Lemma backpropagate_start (fuel : nat) (h : Heap) (k : nat) (result : Z) (h' : Heap) :
  backpropagate fuel h (Some k) result = Some h' ->
  exists nd nd', h !! k = Some nd /\ h' !! k = Some nd' /\ N nd + 1 <= N nd'.
Proof.
  destruct fuel as [| f]; [discriminate |]. cbn [backpropagate].
  destruct (h !! k) as [nd |] eqn:Hk; [| discriminate].
  intros Hrun. apply backpropagate_statsOnly in Hrun as [_ Hst].
  destruct (Hst k (visited result nd)) as [nd' [Hk' [_ HN]]].
  { apply list_lookup_insert_eq. apply (lookup_lt_Some _ _ _ Hk). }
  exists nd, nd'. split; [reflexivity |]. split; [exact Hk' |]. simpl in HN. lia.
Qed.

Lemma iteration_keeps (fuel : nat) (b : Board) (h : Heap) (g : Gen) (h' : Heap)
    (g' : Gen) :
  iteration fuel h g = Some (h', g') ->
  statsSound h /\ movesSplit h /\ linked h /\ rootKept b h ->
  statsSound h' /\ movesSplit h' /\ linked h' /\ rootKept b h'.
Proof.
  intros Hit [Hss [Hms [Hl Hroot]]].
  destruct (iteration_cases _ _ _ _ _ Hit) as [node [h1 [node1 [g1 [result [Hcase Hback]]]]]].
  pose proof (backpropagate_statsOnly _ _ _ _ _ Hback) as Hst.
  destruct (backpropagate_start _ _ _ _ _ Hback) as [x1 [x1' [Hx1 [Hx1' HN1]]]].
  assert ((forall k nd, h1 !! k = Some nd -> 0 <= W nd <= N nd) /\
          (forall k nd, h1 !! k = Some nd -> k <> 0%nat -> k <> node1 -> 1 <= N nd) /\
          movesSplit h1 /\ linked h1 /\ rootKept b h1) as [Hb1 [Hn1 [Hms1 [Hl1 Hroot1]]]].
  { destruct Hcase as [[-> [-> _]] | Hexp].
    - split; [intros k nd Hk; apply (Hss k nd Hk) |].
      split; [intros k nd Hk Hk0 _; apply (Hss k nd Hk), Hk0 | auto].
    - destruct (expandNode_inv _ _ _ _ _ _ Hexp)
        as [nd [move [rest [um [Hnd [Hrest [-> [Hperm ->]]]]]]]].
      split; [| split; [| split; [| split]]].
      + intros k x Hk.
        destruct (expand_cases h node nd move rest um k x Hk)
          as [[-> ->] | [[_ [_ Hx]] | [-> ->]]].
        * apply (Hss node nd Hnd).
        * apply (Hss k x Hx).
        * simpl. lia.
      + intros k x Hk Hk0 Hknew.
        destruct (expand_cases h node nd move rest um k x Hk)
          as [[-> ->] | [[_ [_ Hx]] | [-> ->]]].
        * apply (Hss node nd Hnd), Hk0.
        * apply (Hss k x Hx), Hk0.
        * congruence.
      + apply movesSplit_expand; assumption.
      + apply linked_expand; assumption.
      + destruct Hroot as [root [H0 [Hb [Hp [Hpa Hlm]]]]].
        pose proof (lookup_lt_Some _ _ _ H0) as Hpos.
        unfold rootKept. rewrite (expand_lookup h node nd move rest um 0%nat Hpos).
        case_decide as E.
        * subst node. rewrite Hnd in H0. injection H0 as ->. eexists. split; [reflexivity |]. auto.
        * exists root. auto. }
  split; [| split; [| split]].
  - intros k nd Hk. split; [apply (backpropagate_bounds _ _ _ _ _ Hback Hb1 k nd Hk) |].
    intros Hk0. destruct (decide (k = node1)) as [-> | Hne].
    + rewrite Hx1' in Hk. injection Hk as <-.
      destruct (Hb1 node1 x1 Hx1). lia.
    + destruct (statsOnly_back _ _ _ _ Hst Hk) as [x [Hx [_ HN]]].
      specialize (Hn1 k x Hx Hk0 Hne). lia.
  - apply (movesSplit_statsOnly h1 h' Hms1 Hst).
  - apply (linked_statsOnly h1 h' Hl1 Hst).
  - destruct Hroot1 as [root [H0 [Hb [Hp [Hpa Hlm]]]]].
    destruct Hst as [_ Hst']. destruct (Hst' 0%nat root H0) as [root' [H0' [Hskel _]]].
    destruct (skel_fields _ _ Hskel) as [Hb' [Hp' [Hlm' [Hpa' _]]]].
    exists root'. split; [exact H0' |]. repeat split; congruence.
Qed.

Lemma iterations_loop_keeps (fuel : nat) (b : Board) (count : nat) :
  forall h g h' g',
    iterations_loop fuel count h g = Some (h', g') ->
    statsSound h /\ movesSplit h /\ linked h /\ rootKept b h ->
    statsSound h' /\ movesSplit h' /\ linked h' /\ rootKept b h'.
Proof.
  induction count as [| count IH]; intros h g h' g'; cbn [iterations_loop].
  - intros [= <- _]. auto.
  - destruct (iteration fuel h g) as [[h1 g1] |] eqn:Hit; [| discriminate].
    intros Hloop Hinv. apply (IH _ _ _ _ Hloop).
    apply (iteration_keeps _ _ _ _ _ _ Hit Hinv).
Qed.

Lemma mctsTree_keeps (fuel : nat) (b : Board) (iterations : Z) (g : Gen)
    (h : Heap) (g' : Gen) :
  mctsTree fuel b iterations g = Some (h, g') ->
  statsSound h /\ movesSplit h /\ linked h /\ rootKept b h.
Proof.
  unfold mctsTree.
  destruct (newNode_spec g b None NO_MOVE COMPUTER) as [um [g0 [-> Hperm]]].
  intros Hloop. apply (iterations_loop_keeps _ b _ _ _ _ _ Hloop).
  split; [| split; [| split]].
  - intros k nd Hk. destruct k as [| k]; [| destruct k; discriminate Hk].
    injection Hk as <-. simpl. split; [lia | congruence].
  - intros k nd Hk. destruct k as [| k]; [| destruct k; discriminate Hk].
    injection Hk as <-. cbn [children untriedMoves boardState]. split; [intros c [] |].
    unfold childMoves. simpl. rewrite app_nil_r. exact Hperm.
  - intros k nd Hk. destruct k as [| k]; [| destruct k; discriminate Hk].
    injection Hk as <-. exact I.
  - eexists. split; [reflexivity |]. auto.
Qed.
(** *** The tree that [runMCTS] builds *)

(** X13: in the tree at the end of the loop of [runMCTS] every node has
    [0 <= W <= N], and every node but the root has been visited at least
    once: the win rate [W / N] that [calculateUCT] computes for a child is
    a fraction of its visits, and no child of such a tree falls under its
    branch for [N == 0]. *)
Theorem mctsTree_statistics (fuel : nat) (b : Board) (iterations : Z) (g : Gen) :
  (9 < fuel)%nat -> (Z.to_nat iterations < fuel)%nat ->
  exists h g',
    mctsTree fuel b iterations g = Some (h, g') /\
    forall k nd, h !! k = Some nd ->
      0 <= W nd <= N nd /\ (k <> 0%nat -> 1 <= N nd).
Proof.
  intros Hf9 Hf.
  destruct (mctsTree_spec fuel b iterations g Hf9 Hf) as [h [g' [Htree _]]].
  exists h, g'. split; [exact Htree |].
  apply (mctsTree_keeps _ _ _ _ _ _ Htree).
Qed.

Lemma childMoves_In (h : Heap) (cs : list nat) (k : nat) (nd : MCTSNode) :
  In k cs -> h !! k = Some nd -> In (lastMove nd) (childMoves h cs).
Proof.
  induction cs as [| c cs IH]; intros Hin Hk; [destruct Hin |].
  rewrite childMoves_cons. destruct Hin as [-> | Hin].
  - rewrite Hk. left. reflexivity.
  - destruct (lastMove <$> (h !! c)); [right |]; apply IH; assumption.
Qed.

(** X14: at every node of that tree the empty cells of the node's board
    are exactly the untried moves together with the moves that led to its
    children, each once: no move is expanded twice, and a node has as
    many children and untried moves as its board has empty cells. *)
Theorem mctsTree_moves (fuel : nat) (b : Board) (iterations : Z) (g : Gen) :
  (9 < fuel)%nat -> (Z.to_nat iterations < fuel)%nat ->
  exists h g',
    mctsTree fuel b iterations g = Some (h, g') /\
    forall k nd, h !! k = Some nd ->
      Permutation (untriedMoves nd ++ childMoves h (children nd))
                  (freeCells (boardState nd)) /\
      NoDup (untriedMoves nd ++ childMoves h (children nd)) /\
      (length (untriedMoves nd) + length (children nd)
       = length (freeCells (boardState nd)))%nat.
Proof.
  intros Hf9 Hf.
  destruct (mctsTree_spec fuel b iterations g Hf9 Hf) as [h [g' [Htree _]]].
  exists h, g'. split; [exact Htree |].
  destruct (mctsTree_keeps _ _ _ _ _ _ Htree) as [_ [Hms _]].
  intros k nd Hk. destruct (Hms k nd Hk) as [Hvalid Hperm].
  split; [exact Hperm |]. split.
  - apply NoDup_ListNoDup. apply (Permutation_NoDup (Permutation_sym Hperm)).
    unfold freeCells. apply List.NoDup_filter. apply NoDup_ListNoDup, allCells_NoDup.
  - rewrite <- (childMoves_length h (children nd) Hvalid), <- length_app.
    apply Permutation_length, Hperm.
Qed.

(** X15: the root of that tree holds the input board with the computer to
    move; every other node is a child of its parent, holds the parent's
    board after the parent's side has marked the cell of the node's last
    move, which was empty, and has the other side to move. *)
Theorem mctsTree_positions (fuel : nat) (b : Board) (iterations : Z) (g : Gen) :
  (9 < fuel)%nat -> (Z.to_nat iterations < fuel)%nat ->
  exists h g',
    mctsTree fuel b iterations g = Some (h, g') /\
    (exists root, h !! 0%nat = Some root /\ boardState root = b /\
                  playerToMove root = COMPUTER /\ parent root = None) /\
    forall k nd p, h !! k = Some nd -> parent nd = Some p ->
      exists pd,
        h !! p = Some pd /\ In k (children pd) /\
        get (boardState pd) (fst (lastMove nd)) (snd (lastMove nd)) = EMPTY /\
        boardState nd
        = set (boardState pd) (fst (lastMove nd)) (snd (lastMove nd)) (playerToMove pd) /\
        playerToMove nd = otherPlayer (playerToMove pd).
Proof.
  intros Hf9 Hf.
  destruct (mctsTree_spec fuel b iterations g Hf9 Hf) as [h [g' [Htree _]]].
  exists h, g'. split; [exact Htree |].
  destruct (mctsTree_keeps _ _ _ _ _ _ Htree) as [_ [Hms [Hl Hroot]]].
  split.
  - destruct Hroot as [root [H0 [Hb [Hp [Hpa _]]]]]. exists root. auto.
  - intros k nd p Hk Hpar. specialize (Hl k nd Hk). rewrite Hpar in Hl.
    destruct Hl as [pd [Hpd [Hin [Hboard Hside]]]].
    exists pd. split; [exact Hpd |]. split; [exact Hin |].
    split; [| split; assumption].
    destruct (Hms p pd Hpd) as [_ Hperm].
    assert (In (lastMove nd) (freeCells (boardState pd))) as Hfree.
    { apply (Permutation_in _ Hperm). apply in_or_app. right.
      apply (childMoves_In h _ k nd Hin Hk). }
    apply freeCells_In' in Hfree as [_ He]. exact He.
Qed.

(** *** The computer's turn *)

Lemma runMCTS_outcome (fuel : nat) (b : Board) (iterations : Z) (g : Gen) :
  (9 < fuel)%nat -> (Z.to_nat iterations < fuel)%nat ->
  exists mv g',
    runMCTS fuel b iterations g = Some (mv, g') /\
    ((mv = NO_MOVE /\ (iterations <= 0 \/ checkWinner b <> EMPTY)) \/
     (In mv (freeCells b) /\ 0 < iterations /\ checkWinner b = EMPTY)).
Proof.
  intros Hf9 Hf.
  destruct (mctsTree_spec fuel b iterations g Hf9 Hf) as [h [g' [Htree [Hwf Hroot]]]].
  destruct Hroot as [root [H0 [Hb [HN [Hn0 [Hterm [Hunt [Hch Hlen]]]]]]]].
  destruct (finalMove_spec h root Hwf H0) as [mv [Hmv Hcase]].
  exists mv, g'. split; [unfold runMCTS; rewrite Htree, Hmv; reflexivity |].
  destruct Hcase as [[Hnil ->] | [idx [c [cd [Hidx [Hcd [-> [Hfree _]]]]]]]].
  - left. split; [reflexivity |].
    destruct (Ascii.eqb_spec (checkWinner b) EMPTY) as [Hon | Hoff]; [| auto].
    left. destruct (Z_le_gt_dec iterations 0) as [Hle | Hgt]; [exact Hle |].
    exfalso. apply (Hch Hon); [lia | exact Hnil].
  - right. rewrite Hb in Hfree. split; [exact Hfree |].
    assert (children root <> []) as Hne by (intros E; rewrite E in Hidx; discriminate).
    split.
    + destruct (Z_le_gt_dec iterations 0) as [Hle | Hgt]; [| lia].
      exfalso. apply Hne, Hn0. lia.
    + destruct (Ascii.eqb_spec (checkWinner b) EMPTY) as [Hon | Hoff]; [exact Hon |].
      exfalso. apply Hne, Hterm, Hoff.
Qed.

Lemma mctsMove_outcome (fuel : nat) (b : Board) (moves : list Move) (iterations : Z)
    (g : Gen) :
  (9 < fuel)%nat -> (Z.to_nat iterations < fuel)%nat ->
  (iterations <= 0 \/ checkWinner b <> EMPTY ->
   exists g', mctsMove fuel b moves iterations g = Some (b, moves, g')) /\
  (0 < iterations -> checkWinner b = EMPTY ->
   exists i j g',
     In (i, j) allCells /\ get b i j = EMPTY /\
     mctsMove fuel b moves iterations g
     = Some (set b i j COMPUTER, moves ++ [(i, j)], g')).
Proof.
  intros Hf9 Hf.
  destruct (runMCTS_outcome fuel b iterations g Hf9 Hf) as [mv [g' [Hrun Hcase]]].
  unfold mctsMove. rewrite Hrun. split.
  - intros Hoff. destruct Hcase as [[-> _] | [_ [Hpos Hon]]].
    + exists g'. reflexivity.
    + exfalso. destruct Hoff; [lia | congruence].
  - intros Hpos Hon. destruct Hcase as [[_ Hoff] | [Hfree _]].
    + exfalso. destruct Hoff; [lia | congruence].
    + destruct mv as [i j]. apply freeCells_In in Hfree as [Hin He].
      exists i, j, g'. split; [exact Hin |]. split; [exact He |]. cbn [fst snd].
      apply allCells_range in Hin.
      replace (i =? -1) with false by (symmetry; apply Z.eqb_neq; lia).
      reflexivity.
Qed.

(** X16: [mctsMove] with a budget of at least one pass on a board where
    the game is on writes ['O'] into one cell that was empty and appends
    it to the log; with no pass, or on a board where the game is over, it
    reports that no move was found and leaves board and log as they
    were. *)
Theorem mctsMove_effect (fuel : nat) (b : Board) (moves : list Move) (iterations : Z)
    (g : Gen) :
  (9 < fuel)%nat -> (Z.to_nat iterations < fuel)%nat ->
  (iterations <= 0 \/ checkWinner b <> EMPTY ->
   exists g', mctsMove fuel b moves iterations g = Some (b, moves, g')) /\
  (0 < iterations -> checkWinner b = EMPTY ->
   exists i j g',
     In (i, j) allCells /\ get b i j = EMPTY /\
     mctsMove fuel b moves iterations g
     = Some (set b i j COMPUTER, moves ++ [(i, j)], g')).
Proof. apply mctsMove_outcome. Qed.
End MoreMCTS.

(** *** The tree search of the second source file *)

Lemma fixedPoint_uct : uctAboveFloor fixedPoint.
Proof.
  intros node pv HN HW Hpv. unfold calculateUCT.
  replace (N node =? 0) with false by (symmetry; apply Z.eqb_neq; lia).
  cbn [fgt fadd fmul fdiv fsqrt flog ofInt lit_1_414 lit_neg_1 fixedPoint].
  replace (1000 * N node =? 0) with false by (symmetry; apply Z.eqb_neq; lia).
  apply Z.gtb_lt.
  assert (0 <= 1000 * (1000 * W node) / (1000 * N node)) as H1
    by (apply Z.div_pos; lia).
  assert (0 <= 1414 * Z.sqrt (1000 * (1000 * (693 * Z.log2 (1000 * pv / 1000))
                                      / (1000 * N node))) / 1000) as H2.
  { apply Z.div_pos; [| lia]. pose proof (Z.sqrt_nonneg
      (1000 * (1000 * (693 * Z.log2 (1000 * pv / 1000)) / (1000 * N node)))). lia. }
  lia.
Qed.

Section SecondFileProofs.
Context {F : FloatOps} {R : RandomSource}.

Lemma expandNode'_scanOrder (h : Heap) (k : nat) (g : Gen) :
  expandNode' (R := R) h k g = expandNode (R := scanOrder R) h k g.
Proof.
  unfold expandNode', expandNode, newNode, newNode'.
  destruct (h !! k) as [nd |]; [| reflexivity].
  destruct (last (untriedMoves nd)); reflexivity.
Qed.

(** Where every child was visited and every node with children was, the
    selection loop of the second file never meets NULL and walks the way
    of the loop of [TicTacToe.cpp]. *)
Lemma selectLoop'_agrees (fuel : nat) :
  forall h k,
    uctAboveFloor F -> wfTree h -> statsSound h ->
    (forall root, h !! 0%nat = Some root -> children root <> [] -> 1 <= N root) ->
    selectLoop' fuel h k = selectLoop fuel h k.
Proof.
  induction fuel as [| f IH]; intros h k Hlaw Hwf Hss Hroot; [reflexivity |].
  cbn [selectLoop' selectLoop].
  destruct (h !! k) as [nd |] eqn:Hk; [| reflexivity].
  destruct ((match untriedMoves nd with [] => true | _ => false end)
            && Ascii.eqb (checkWinner (boardState nd)) EMPTY); cbn [andb];
    [| reflexivity].
  destruct (children nd) as [| c0 cs] eqn:Hch; cbn [negb].
  - unfold selectChild. rewrite Hk, Hch. reflexivity.
  - destruct (selectChild h k) as [[s |] |] eqn:Hsel; [apply IH; assumption | | reflexivity].
    exfalso.
    destruct (selectChild_result h k None Hsel) as [nd' [Hnd' [_ [Hnone _]]]].
    rewrite Hk in Hnd'. injection Hnd' as <-.
    destruct (Hwf k nd Hk) as [[_ [Hcs _]] _].
    destruct (Hcs c0) as [Hlt [cd [Hcd _]]]; [rewrite Hch; left; reflexivity |].
    assert (fgt (calculateUCT cd (N nd)) lit_neg_1 = false) as Hle.
    { apply (proj1 Hnone eq_refl c0 cd); [rewrite Hch; left; reflexivity | exact Hcd]. }
    rewrite Hlaw in Hle; [discriminate Hle | | |].
    + apply (Hss c0 cd Hcd). lia.
    + apply (Hss c0 cd Hcd).
    + destruct k as [| k'].
      * apply (Hroot nd Hk). rewrite Hch. discriminate.
      * apply (Hss _ nd Hk). lia.
Qed.

Lemma iteration'_agrees (fuel : nat) (h : Heap) (g : Gen) :
  uctAboveFloor F -> wfTree h -> statsSound h ->
  (forall root, h !! 0%nat = Some root -> children root <> [] -> 1 <= N root) ->
  iteration' (R := R) fuel h g = iteration (R := scanOrder R) fuel h g.
Proof.
  intros Hlaw Hwf Hss Hroot. unfold iteration', iteration.
  rewrite (selectLoop'_agrees fuel h 0%nat Hlaw Hwf Hss Hroot).
  destruct (selectLoop fuel h 0%nat) as [node |]; [| reflexivity].
  destruct (h !! node) as [nd |]; [| reflexivity].
  destruct (negb (match untriedMoves nd with [] => true | _ => false end)
            && Ascii.eqb (checkWinner (boardState nd)) EMPTY);
    [rewrite expandNode'_scanOrder |]; reflexivity.
Qed.

Lemma iterations_loop'_agrees (fuel : nat) (b : Board) (count : nat) :
  forall h g n,
    uctAboveFloor F -> (9 < fuel)%nat -> (n + count < fuel)%nat ->
    wfTree h -> rootAfter b n h ->
    statsSound h /\ movesSplit h /\ linked h /\ rootKept b h ->
    iterations_loop' (R := R) fuel count h g
    = iterations_loop (R := scanOrder R) fuel count h g.
Proof.
  induction count as [| count IH]; intros h g n Hlaw Hf9 Hfuel Hwf Hroot Hinv;
    [reflexivity |].
  cbn [iterations_loop' iterations_loop].
  rewrite iteration'_agrees; [| exact Hlaw | exact Hwf | apply Hinv |].
  2:{ destruct Hroot as [root [H0 [_ [HN [Hn0 _]]]]].
      intros root' H0' Hch. rewrite H0 in H0'. injection H0' as <-.
      destruct n as [| n']; [exfalso; apply Hch, Hn0; reflexivity | lia]. }
  assert (length h < fuel)%nat as Hlen.
  { destruct Hroot as [_ [_ [_ [_ [_ [_ [_ [_ Hl]]]]]]]]. lia. }
  destruct (iteration_spec (R := scanOrder R) fuel h g b n Hwf Hroot Hf9 Hlen)
    as [h1 [g1 [Hit [Hwf1 [Hroot1 _]]]]].
  rewrite Hit. apply (IH h1 g1 (S n)); try assumption; [lia |].
  apply (iteration_keeps (R := scanOrder R) _ _ _ _ _ _ Hit Hinv).
Qed.

Lemma mctsTree'_agrees (fuel : nat) (b : Board) (iterations : Z) (g : Gen) :
  uctAboveFloor F -> (9 < fuel)%nat -> (Z.to_nat iterations < fuel)%nat ->
  mctsTree' (R := R) fuel b iterations g
  = mctsTree (R := scanOrder R) fuel b iterations g.
Proof.
  intros Hlaw Hf9 Hfuel.
  assert (mctsTree (R := scanOrder R) fuel b 0 g
          = Some ([newNode' b None NO_MOVE COMPUTER], g)) as Hstart by reflexivity.
  destruct (mctsTree_spec (R := scanOrder R) fuel b 0 g Hf9) as [h [g' [Htree [Hwf Hroot]]]];
    [simpl; lia |].
  pose proof (mctsTree_keeps (R := scanOrder R) _ _ _ _ _ _ Htree) as Hinv.
  rewrite Hstart in Htree. injection Htree as <- <-.
  unfold mctsTree', mctsTree, newNode. cbn [random_shuffle scanOrder].
  apply (iterations_loop'_agrees fuel b _ _ g 0%nat); assumption.
Qed.

Lemma runMCTS'_agrees (fuel : nat) (b : Board) (iterations : Z) (g : Gen) :
  uctAboveFloor F -> (9 < fuel)%nat -> (Z.to_nat iterations < fuel)%nat ->
  runMCTS' (R := R) fuel b iterations g
  = runMCTS (R := scanOrder R) fuel b iterations g.
Proof.
  intros Hlaw Hf9 Hfuel. unfold runMCTS', runMCTS.
  rewrite mctsTree'_agrees by assumption. reflexivity.
Qed.

Lemma mctsMove'_agrees (fuel : nat) (b : Board) (moves : list Move) (iterations : Z)
    (g : Gen) :
  uctAboveFloor F -> (9 < fuel)%nat -> (Z.to_nat iterations < fuel)%nat ->
  mctsMove' (R := R) fuel b moves iterations g
  = mctsMove (R := scanOrder R) fuel b moves iterations g.
Proof.
  intros Hlaw Hf9 Hfuel. unfold mctsMove', mctsMove.
  rewrite runMCTS'_agrees by assumption. reflexivity.
Qed.

(** X17: under the law of the arithmetic that a visited child of a
    visited node has a UCT value above -1.0, [runMCTS] of the second
    source file returns, so the null pointer that its selection loop can
    leave in [node] is never read, and it returns what [runMCTS] of
    [TicTacToe.cpp] returns when the shuffle of the constructor leaves
    the order of the untried moves. *)
Theorem runMCTS_files_agree (fuel : nat) (b : Board) (iterations : Z) (g : Gen) :
  uctAboveFloor F -> (9 < fuel)%nat -> (Z.to_nat iterations < fuel)%nat ->
  runMCTS' (R := R) fuel b iterations g
  = runMCTS (R := scanOrder R) fuel b iterations g /\
  exists mv g', runMCTS' (R := R) fuel b iterations g = Some (mv, g').
Proof.
  intros Hlaw Hf9 Hfuel. split; [apply runMCTS'_agrees; assumption |].
  rewrite runMCTS'_agrees by assumption.
  destruct (runMCTS_outcome (R := scanOrder R) fuel b iterations g Hf9 Hfuel)
    as [mv [g' [Hrun _]]].
  exists mv, g'. exact Hrun.
Qed.

Lemma computerTurn_places (fuel : nat) (aiChoice : ascii) (b : Board)
    (moves : list Move) (g : Gen) :
  aiChoice = "E"%char \/ aiChoice = "M"%char \/ aiChoice = "H"%char ->
  validBoard b = true -> checkWinner b = EMPTY ->
  (9 < fuel)%nat -> (Z.to_nat (mctsIterationsForDifficulty aiChoice) < fuel)%nat ->
  exists i j g',
    In (i, j) allCells /\ get b i j = EMPTY /\
    computerTurn fuel aiChoice b moves g
    = Some (set b i j COMPUTER, moves ++ [(i, j)], g').
Proof.
  intros Hai Hv Hon Hf9 Hf. unfold computerTurn.
  destruct (Ascii.eqb_spec aiChoice "H"%char) as [-> | Hne].
  - destruct (minimaxMove_places fuel b moves Hv) as [_ Hmove].
    { pose proof (free_le_9 b). lia. }
    destruct Hmove as [i [j [Hin [He Hrun]]]].
    { apply checkWinner_EMPTY in Hon as [_ Hfree]. exact Hfree. }
    exists i, j, g. rewrite Hrun. auto.
  - apply (proj2 (mctsMove_outcome fuel b moves _ g Hf9 Hf)); [| exact Hon].
    destruct Hai as [-> | [-> | ->]]; [reflexivity | reflexivity | congruence].
Qed.

(** X18: in [main] of [TicTacToe.cpp], with a difficulty that the menu
    lets through (['E'], ['M'] or ['H']), the computer's turn on a board of
    marks and blanks where the game is on always makes a move: it writes
    ['O'] into one empty cell and logs it, and never reports "no valid
    move". *)
Theorem computerTurn_moves (fuel : nat) (aiChoice : ascii) (b : Board)
    (moves : list Move) (g : Gen) :
  aiChoice = "E"%char \/ aiChoice = "M"%char \/ aiChoice = "H"%char ->
  validBoard b = true -> checkWinner b = EMPTY ->
  (9 < fuel)%nat -> (Z.to_nat (mctsIterationsForDifficulty aiChoice) < fuel)%nat ->
  exists i j g',
    In (i, j) allCells /\ get b i j = EMPTY /\
    computerTurn fuel aiChoice b moves g
    = Some (set b i j COMPUTER, moves ++ [(i, j)], g').
Proof. apply computerTurn_places. Qed.

Lemma computerTurn'_places (fuel : nat) (aiChoice : ascii) (b : Board)
    (moves : list Move) (g : Gen) :
  uctAboveFloor F ->
  validBoard b = true -> checkWinner b = EMPTY ->
  10000 < Z.of_nat fuel ->
  exists i j g',
    In (i, j) allCells /\ get b i j = EMPTY /\
    computerTurn' fuel aiChoice b moves g
    = Some (set b i j COMPUTER, moves ++ [(i, j)], g').
Proof.
  intros Hlaw Hv Hon Hf. unfold computerTurn'.
  assert (freeCells b <> []) as Hfree by (apply checkWinner_EMPTY in Hon as [_ H]; exact H).
  destruct (Ascii.eqb_spec aiChoice "I"%char) as [-> | HneI].
  - destruct (minimaxMove_places fuel b moves Hv) as [_ Hmove].
    { pose proof (free_le_9 b). lia. }
    destruct (Hmove Hfree) as [i [j [Hin [He Hrun]]]].
    exists i, j, g. rewrite Hrun. auto.
  - destruct (Ascii.eqb_spec aiChoice "H"%char) as [-> | HneH].
    + change (getMctsIterationsForDifficulty "H") with 10000.
      assert ((9 < fuel)%nat) as Hf9 by lia.
      assert ((Z.to_nat 10000 < fuel)%nat) as Hfi by lia.
      rewrite (mctsMove'_agrees fuel b moves 10000 g Hlaw Hf9 Hfi).
      apply (proj2 (mctsMove_outcome (R := scanOrder R) fuel b moves 10000 g Hf9 Hfi));
        [lia | exact Hon].
    + destruct (getRandomComputerMove_spec b g) as [m [g' [Hrun [Hsent [_ Hcell]]]]].
      destruct (Hcell Hfree) as [_ [Hin He]]. rewrite Hrun.
      destruct m as [i j]. cbn [fst snd] in *. exists i, j, g'.
      split; [exact Hin |]. split; [exact He |].
      apply allCells_range in Hin.
      replace (i =? -1) with false by (symmetry; apply Z.eqb_neq; lia).
      reflexivity.
Qed.

(** X19: in [main] of the second source file the computer's turn on a
    board of marks and blanks where the game is on always makes a move,
    whatever the difficulty character: minimax for ['I'], the tree search
    with 10000 passes for ['H'] (given the law of the arithmetic of X17),
    a random free cell otherwise. *)
Theorem computerTurn'_moves (fuel : nat) (aiChoice : ascii) (b : Board)
    (moves : list Move) (g : Gen) :
  uctAboveFloor F ->
  validBoard b = true -> checkWinner b = EMPTY ->
  10000 < Z.of_nat fuel ->
  exists i j g',
    In (i, j) allCells /\ get b i j = EMPTY /\
    computerTurn' fuel aiChoice b moves g
    = Some (set b i j COMPUTER, moves ++ [(i, j)], g').
Proof. apply computerTurn'_places. Qed.

(** *** A round of the game *)

Lemma marked_add (b : Board) (c : ascii) (log : list Move) (i j : Z) :
  marked b c log -> In (i, j) allCells ->
  marked (set b i j c) c (log ++ [(i, j)]).
Proof.
  intros Hm Hcell i' j'. rewrite in_app_iff.
  destruct (decide ((i, j) = (i', j'))) as [E | Hne].
  - inversion E; subst i' j'. split.
    + intros _. split; [exact Hcell | apply get_set_same, Hcell].
    + intros _. right. left. reflexivity.
  - split.
    + intros [Hin | [E | []]]; [| contradiction].
      apply Hm in Hin as [Hc Hg]. split; [exact Hc |].
      rewrite get_set_other; assumption.
    + intros [Hc Hg]. left. apply Hm. split; [exact Hc |].
      rewrite get_set_other in Hg; assumption.
Qed.

Lemma marked_keep (b : Board) (c c' : ascii) (log : list Move) (i j : Z) :
  marked b c log -> In (i, j) allCells -> get b i j = EMPTY ->
  c <> EMPTY -> c' <> c ->
  marked (set b i j c') c log.
Proof.
  intros Hm Hcell He Hc Hc' i' j'. rewrite (Hm i' j').
  destruct (decide ((i, j) = (i', j'))) as [E | Hne].
  - inversion E; subst i' j'. rewrite get_set_same by exact Hcell.
    split; intros [_ Hg]; exfalso; congruence.
  - split; intros [Hcell' Hg]; (split; [exact Hcell' |]).
    + rewrite get_set_other; assumption.
    + rewrite get_set_other in Hg; assumption.
Qed.

Lemma inPlay_start : inPlay PLAYER emptyBoard [] [].
Proof.
  split; [apply reach_start |].
  split; [| split; [| reflexivity]].
  - intros i j. split; [intros [] |]. intros [Hc Hg]. cell_cases Hc; discriminate Hg.
  - intros i j. split; [intros [] |]. intros [Hc Hg]. cell_cases Hc; discriminate Hg.
Qed.

Lemma inPlay_move (p : ascii) (b : Board) (pm cm : list Move) (i j : Z) :
  inPlay p b pm cm -> checkWinner b = EMPTY ->
  In (i, j) allCells -> get b i j = EMPTY ->
  (p = PLAYER -> inPlay COMPUTER (set b i j PLAYER) (pm ++ [(i, j)]) cm) /\
  (p = COMPUTER -> inPlay PLAYER (set b i j COMPUTER) pm (cm ++ [(i, j)])).
Proof.
  intros [Hr [Hpm [Hcm Hlen]]] Hon Hcell He. split; intros ->.
  - split; [apply (reach_move b PLAYER i j); assumption |].
    split; [apply marked_add; assumption |].
    split; [apply marked_keep; (assumption || discriminate) |].
    pose proof (freeCells_set b i j PLAYER Hcell He PLAYER_not_EMPTY).
    rewrite length_app. simpl length. lia.
  - split; [apply (reach_move b COMPUTER i j); assumption |].
    split; [apply marked_keep; (assumption || discriminate) |].
    split; [apply marked_add; assumption |].
    pose proof (freeCells_set b i j COMPUTER Hcell He COMPUTER_not_EMPTY).
    rewrite length_app. simpl length. lia.
Qed.

Lemma playerInput_places (input : list Attempt) (p : ascii) (b : Board)
    (log : list Move) :
  handlePlayerInput input p b log = None \/
  exists i j rest,
    In (i, j) allCells /\ get b i j = EMPTY /\
    handlePlayerInput input p b log = Some (set b i j p, log ++ [(i, j)], rest).
Proof.
  destruct (handlePlayerInput input p b log) as [[[b' log'] rest] |] eqn:Hrun;
    [right | left; reflexivity].
  destruct (handlePlayerInput_some _ _ _ _ _ _ _ Hrun)
    as [skipped [row [column [_ [_ [[Hr [Hc He]] [-> ->]]]]]]].
  exists (row - 1), (column - 1), rest. unfold BOARD_SIZE in *.
  split; [apply allCells_range; lia |]. split; [exact He | reflexivity].
Qed.

Lemma free_positive (b : Board) :
  checkWinner b = EMPTY -> (countFreeSpaces b >? 0) = true.
Proof.
  intros Hon. apply checkWinner_EMPTY in Hon as [_ Hfree].
  rewrite countFreeSpaces_length. apply Z.gtb_lt.
  destruct (freeCells b); [contradiction | simpl length; lia].
Qed.

Section Loop.
Variable computer : Board -> list Move -> Gen -> option (Board * list Move * Gen).
Variable chosenMode : ascii.
Hypothesis computer_places :
  chosenMode <> "1"%char ->
  forall b cm g, validBoard b = true -> checkWinner b = EMPTY ->
    exists i j g',
      In (i, j) allCells /\ get b i j = EMPTY /\
      computer b cm g = Some (set b i j COMPUTER, cm ++ [(i, j)], g').

Lemma takeTurn_spec (p : ascii) (b : Board) (pm cm : list Move)
    (input : list Attempt) (g : Gen) :
  inPlay p b pm cm -> checkWinner b = EMPTY ->
  takeTurn computer chosenMode p b pm cm input g = inl InputEnded \/
  exists i j pm' cm' rest g',
    takeTurn computer chosenMode p b pm cm input g
    = inr (set b i j p, pm', cm', rest, g') /\
    In (i, j) allCells /\ get b i j = EMPTY /\
    inPlay (otherPlayer p) (set b i j p) pm' cm'.
Proof.
  intros Hplay Hon.
  assert (validBoard b = true /\ (p = PLAYER \/ p = COMPUTER)) as [Hv Hp]
    by (destruct Hplay as [Hr _]; apply (reachable_valid _ _ Hr)).
  assert (forall i j, In (i, j) allCells -> get b i j = EMPTY ->
            (p = PLAYER -> inPlay COMPUTER (set b i j PLAYER) (pm ++ [(i, j)]) cm) /\
            (p = COMPUTER -> inPlay PLAYER (set b i j COMPUTER) pm (cm ++ [(i, j)])))
    as Hmove by (intros i j; apply inPlay_move; assumption).
  unfold takeTurn, playerMove, player2Move.
  destruct Hp as [-> | ->].
  - change (Ascii.eqb PLAYER PLAYER) with true. cbn match.
    assert (match handlePlayerInput input PLAYER b pm with
            | Some (b0, pm0, rest) => inr (b0, pm0, cm, rest, g)
            | None => inl InputEnded
            end = inl InputEnded \/
            exists i j pm' cm' rest g',
              match handlePlayerInput input PLAYER b pm with
              | Some (b0, pm0, rest) => inr (b0, pm0, cm, rest, g)
              | None => inl InputEnded
              end = inr (set b i j PLAYER, pm', cm', rest, g') /\
              In (i, j) allCells /\ get b i j = EMPTY /\
              inPlay (otherPlayer PLAYER) (set b i j PLAYER) pm' cm') as Hgoal.
    { destruct (playerInput_places input PLAYER b pm)
        as [-> | [i [j [rest [Hcell [He ->]]]]]]; [left; reflexivity | right].
      exists i, j, (pm ++ [(i, j)]), cm, rest, g.
      split; [reflexivity |]. split; [exact Hcell |]. split; [exact He |].
      apply (proj1 (Hmove i j Hcell He)). reflexivity. }
    destruct (Ascii.eqb chosenMode "1"%char); exact Hgoal.
  - change (Ascii.eqb COMPUTER PLAYER) with false. cbn match.
    destruct (Ascii.eqb_spec chosenMode "1"%char) as [Hmode | Hmode].
    + destruct (playerInput_places input COMPUTER b cm)
        as [-> | [i [j [rest [Hcell [He ->]]]]]]; [left; reflexivity | right].
      exists i, j, pm, (cm ++ [(i, j)]), rest, g.
      split; [reflexivity |]. split; [exact Hcell |]. split; [exact He |].
      apply (proj2 (Hmove i j Hcell He)). reflexivity.
    + destruct (computer_places Hmode b cm g Hv Hon) as [i [j [g' [Hcell [He ->]]]]].
      right. exists i, j, pm, (cm ++ [(i, j)]), input, g'.
      split; [reflexivity |]. split; [exact Hcell |]. split; [exact He |].
      apply (proj2 (Hmove i j Hcell He)). reflexivity.
Qed.

Lemma inPlay_over (p : ascii) (b : Board) (pm cm : list Move) :
  inPlay p b pm cm -> checkWinner b <> EMPTY ->
  checkWinner b = PLAYER \/ checkWinner b = COMPUTER \/ checkWinner b = DRAW.
Proof.
  intros [Hr _] Hoff. apply reachable_valid in Hr as [Hv _].
  destruct (checkWinner_outcomes b Hv) as [H | H]; [contradiction | exact H].
Qed.

Lemma gameLoop_spec (turns : nat) :
  forall p b pm cm input g,
    inPlay p b pm cm -> checkWinner b = EMPTY ->
    (length (freeCells b) <= turns)%nat ->
    gameLoop computer turns chosenMode p b pm cm input g <> OutOfSteps /\
    forall w b' pm' cm' rest g',
      gameLoop computer turns chosenMode p b pm cm input g
      = GameOver w b' pm' cm' rest g' ->
      w = checkWinner b' /\ (w = PLAYER \/ w = COMPUTER \/ w = DRAW) /\
      exists q, inPlay q b' pm' cm'.
Proof.
  induction turns as [| turns IH]; intros p b pm cm input g Hplay Hon Hlen.
  - exfalso. apply checkWinner_EMPTY in Hon as [_ Hfree].
    destruct (freeCells b); [contradiction | simpl in Hlen; lia].
  - cbn [gameLoop].
    destruct (takeTurn_spec p b pm cm input g Hplay Hon)
      as [-> | [i [j [pm' [cm' [rest [g' [-> [Hcell [He Hnext]]]]]]]]]].
    + split; [discriminate | intros; discriminate].
    + cbn match. cbn zeta.
      assert (p <> EMPTY) as Hp.
      { destruct Hplay as [Hr _]. apply reachable_valid in Hr as [_ [-> | ->]];
          discriminate. }
      destruct (Ascii.eqb_spec (checkWinner (set b i j p)) " "%char) as [Hw | Hw].
      * rewrite (free_positive _ Hw). cbn [andb].
        apply (IH (otherPlayer p)); [exact Hnext | exact Hw |].
        pose proof (freeCells_set b i j p Hcell He Hp). lia.
      * cbn [andb]. split; [discriminate |].
        intros w b' pm0 cm0 rest0 g0 [= <- <- <- <- <- <-].
        split; [reflexivity |]. split; [apply (inPlay_over _ _ _ _ Hnext Hw) |].
        exists (otherPlayer p). exact Hnext.
Qed.

Lemma gameLoop'_spec (turns : nat) :
  forall w p b pm cm input g,
    w = checkWinner b ->
    (w = EMPTY -> inPlay p b pm cm) ->
    (w <> EMPTY -> exists q, inPlay q b pm cm) ->
    (length (freeCells b) <= turns)%nat ->
    gameLoop' computer turns chosenMode w p b pm cm input g <> OutOfSteps /\
    forall w' b' pm' cm' rest g',
      gameLoop' computer turns chosenMode w p b pm cm input g
      = GameOver w' b' pm' cm' rest g' ->
      w' = checkWinner b' /\ (w' = PLAYER \/ w' = COMPUTER \/ w' = DRAW) /\
      exists q, inPlay q b' pm' cm'.
Proof.
  assert (forall turns w p b pm cm input g,
            w = checkWinner b -> w <> EMPTY -> (exists q, inPlay q b pm cm) ->
            gameLoop' computer turns chosenMode w p b pm cm input g
            = GameOver w b pm cm input g) as Hstop.
  { intros n w p b pm cm input g Hw Hoff _.
    destruct n; cbn [gameLoop'];
      (destruct (Ascii.eqb_spec w " "%char) as [E | _]; [contradiction | reflexivity]). }
  assert (forall turns w p b pm cm input g,
            w = checkWinner b -> w <> EMPTY -> (exists q, inPlay q b pm cm) ->
            gameLoop' computer turns chosenMode w p b pm cm input g <> OutOfSteps /\
            forall w' b' pm' cm' rest g',
              gameLoop' computer turns chosenMode w p b pm cm input g
              = GameOver w' b' pm' cm' rest g' ->
              w' = checkWinner b' /\ (w' = PLAYER \/ w' = COMPUTER \/ w' = DRAW) /\
              exists q, inPlay q b' pm' cm') as Hdone.
  { intros n w p b pm cm input g Hw Hoff [q Hq].
    rewrite (Hstop n w p b pm cm input g Hw Hoff (ex_intro _ q Hq)).
    split; [discriminate |].
    intros w' b' pm' cm' rest g' [= <- <- <- <- <- <-].
    split; [exact Hw |]. split; [| exists q; exact Hq].
    rewrite Hw. apply (inPlay_over _ _ _ _ Hq). rewrite <- Hw. exact Hoff. }
  induction turns as [| turns IH]; intros w p b pm cm input g Hw Hon Hoff Hlen.
  - destruct (Ascii.eqb_spec w EMPTY) as [E | Hne].
    + exfalso. rewrite Hw in E. apply checkWinner_EMPTY in E as [_ Hfree].
      destruct (freeCells b); [contradiction | simpl in Hlen; lia].
    + apply Hdone; auto.
  - destruct (Ascii.eqb_spec w EMPTY) as [E | Hne]; [| apply Hdone; auto].
    specialize (Hon E). subst w. symmetry in E.
    assert (checkWinner b = EMPTY) as Hb by (symmetry; exact E).
    cbn [gameLoop']. rewrite <- E.
    change (Ascii.eqb EMPTY " "%char) with true.
    rewrite (free_positive _ Hb). cbn [andb]. cbv iota.
    destruct (takeTurn_spec p b pm cm input g Hon Hb)
      as [-> | [i [j [pm' [cm' [rest [g' [-> [Hcell [He Hnext]]]]]]]]]].
    + split; [discriminate | intros; discriminate].
    + cbn match. cbn zeta.
      assert (p <> EMPTY) as Hp.
      { destruct Hon as [Hr _]. apply reachable_valid in Hr as [_ [-> | ->]];
          discriminate. }
      assert ((length (freeCells (set b i j p)) <= turns)%nat) as Hless.
      { pose proof (freeCells_set b i j p Hcell He Hp). lia. }
      destruct (Ascii.eqb_spec (checkWinner (set b i j p)) " "%char) as [Hw | Hw].
      * apply (IH _ (otherPlayer p)); [reflexivity | intros _; exact Hnext | | exact Hless].
        intros Hbad. contradiction.
      * apply Hdone; [reflexivity | exact Hw |]. exists (otherPlayer p). exact Hnext.
Qed.

End Loop.

(** X20: a round of [main] in [TicTacToe.cpp], in either mode and with a
    difficulty that the menu lets through, is over after at most 9 turns
    unless the input ends first.  When it is over the verdict is that of
    [checkWinner] on the final board and is one of ['X'], ['O'] and ['D'],
    so [printWinner] never takes its last branch; the final board has come
    about by alternate play from the empty board, the two logs list the
    cells of the two marks, and every cell is blank or logged once. *)
Theorem playRound_ends (turns fuel : nat) (chosenMode aiChoice : ascii)
    (input : list Attempt) (g : Gen) :
  chosenMode = "1"%char \/
  (aiChoice = "E"%char \/ aiChoice = "M"%char \/ aiChoice = "H"%char) ->
  (9 <= turns)%nat -> (9 < fuel)%nat ->
  (Z.to_nat (mctsIterationsForDifficulty aiChoice) < fuel)%nat ->
  playRound turns fuel chosenMode aiChoice input g <> OutOfSteps /\
  forall w b pm cm rest g',
    playRound turns fuel chosenMode aiChoice input g = GameOver w b pm cm rest g' ->
    w = checkWinner b /\ (w = PLAYER \/ w = COMPUTER \/ w = DRAW) /\
    exists q, inPlay q b pm cm.
Proof.
  intros Hmode Hturns Hf9 Hf. unfold playRound.
  apply gameLoop_spec.
  - intros Hne b cm g0 Hv Hon.
    destruct Hmode as [Hone | Hai]; [contradiction |].
    apply computerTurn_places; assumption.
  - apply inPlay_start.
  - reflexivity.
  - pose proof (free_le_9 emptyBoard). lia.
Qed.

(** X21: a round of [main] in the second source file, in either mode and
    with any difficulty character, is over after at most 9 turns unless
    the input ends first (given the law of the arithmetic of X17), with
    the same verdict, final board and logs as in X20. *)
Theorem playRound'_ends (turns fuel : nat) (chosenMode aiChoice : ascii)
    (input : list Attempt) (g : Gen) :
  uctAboveFloor F ->
  (9 <= turns)%nat -> 10000 < Z.of_nat fuel ->
  playRound' turns fuel chosenMode aiChoice input g <> OutOfSteps /\
  forall w b pm cm rest g',
    playRound' turns fuel chosenMode aiChoice input g = GameOver w b pm cm rest g' ->
    w = checkWinner b /\ (w = PLAYER \/ w = COMPUTER \/ w = DRAW) /\
    exists q, inPlay q b pm cm.
Proof.
  intros Hlaw Hturns Hf. unfold playRound'.
  apply gameLoop'_spec.
  - intros _ b cm g0 Hv Hon. apply computerTurn'_places; assumption.
  - reflexivity.
  - intros _. apply inPlay_start.
  - intros Hbad. exfalso. apply Hbad. reflexivity.
  - pose proof (free_le_9 emptyBoard). lia.
Qed.
End SecondFileProofs.

(** X22: the second operand of the condition of the game loop,
    [checkFreeSpaces() > 0], never decides: while [checkWinner] answers
    [' '] some cell is free, on every board. *)
Theorem loop_condition_free (b : Board) :
  Ascii.eqb (checkWinner b) " "%char && (countFreeSpaces b >? 0)
  = Ascii.eqb (checkWinner b) " "%char.
Proof.
  destruct (Ascii.eqb_spec (checkWinner b) " "%char) as [Hon | Hoff]; [| reflexivity].
  cbn [andb]. apply free_positive, Hon.
Qed.

(** *** Runs on sample inputs *)


Lemma selectChild_member_witness :
  exists r,
    selectChild (F := fixedPoint) sampleTree 0 = Some r /\
    forall c, r = Some c -> In c [1%nat].
Proof.
  destruct (selectChild_member (F := fixedPoint) sampleTree 0
              (mkNode emptyBoard COMPUTER NO_MOVE 0 1 None [1%nat] []))
    as [r [Hrun [Hin _]]].
  - reflexivity.
  - intros c [<- | []]. eexists. reflexivity.
  - exists r. split; [exact Hrun | exact Hin].
Defined.

Lemma expandNode_effect_witness :
  exists h' g',
    expandNode (R := lcg) [fst (newNode (R := lcg) 1 midGame None NO_MOVE COMPUTER)] 0 1
    = Some (h', 1%nat, g') /\
    length h' = 2%nat.
Proof.
  destruct (expandNode_effect (R := lcg)
              [fst (newNode (R := lcg) 1 midGame None NO_MOVE COMPUTER)] 0 1
              (fst (newNode (R := lcg) 1 midGame None NO_MOVE COMPUTER)))
    as [h' [g' [move [rest [child [Hrun [Hlen _]]]]]]].
  - reflexivity.
  - vm_compute. discriminate.
  - exists h', g'. split; [exact Hrun | exact Hlen].
Defined.

Lemma mctsTree_statistics_witness :
  exists h g',
    mctsTree (F := fixedPoint) (R := lcg) 60 midGame 50 1 = Some (h, g') /\
    forall k nd, h !! k = Some nd ->
      0 <= W nd <= N nd /\ (k <> 0%nat -> 1 <= N nd).
Proof.
  apply (mctsTree_statistics (F := fixedPoint) (R := lcg) 60 midGame 50 1).
  - lia.
  - simpl. lia.
Defined.

Lemma mctsTree_moves_witness :
  exists h g',
    mctsTree (F := fixedPoint) (R := lcg) 60 midGame 50 1 = Some (h, g') /\
    forall k nd, h !! k = Some nd ->
      Permutation (untriedMoves nd ++ childMoves h (children nd))
                  (freeCells (boardState nd)) /\
      NoDup (untriedMoves nd ++ childMoves h (children nd)) /\
      (length (untriedMoves nd) + length (children nd)
       = length (freeCells (boardState nd)))%nat.
Proof.
  apply (mctsTree_moves (F := fixedPoint) (R := lcg) 60 midGame 50 1).
  - lia.
  - simpl. lia.
Defined.

Lemma mctsTree_positions_witness :
  exists h g',
    mctsTree (F := fixedPoint) (R := lcg) 60 midGame 50 1 = Some (h, g') /\
    exists root, h !! 0%nat = Some root /\ boardState root = midGame /\
                 playerToMove root = COMPUTER /\ parent root = None.
Proof.
  destruct (mctsTree_positions (F := fixedPoint) (R := lcg) 60 midGame 50 1)
    as [h [g' [Hrun [Hroot _]]]].
  - lia.
  - simpl. lia.
  - exists h, g'. split; [exact Hrun | exact Hroot].
Defined.

Lemma mctsMove_effect_witness :
  exists i j g',
    In (i, j) allCells /\ get midGame i j = EMPTY /\
    mctsMove (F := fixedPoint) (R := lcg) 60 midGame [] 50 1
    = Some (set midGame i j COMPUTER, [] ++ [(i, j)], g').
Proof.
  destruct (mctsMove_effect (F := fixedPoint) (R := lcg) 60 midGame [] 50 1)
    as [_ Hmove].
  - lia.
  - simpl. lia.
  - apply Hmove; [lia | reflexivity].
Defined.

Lemma computerTurn_moves_witness :
  exists i j g',
    In (i, j) allCells /\ get midGame i j = EMPTY /\
    computerTurn (F := fixedPoint) (R := lcg) 201 "E"%char midGame [] 1
    = Some (set midGame i j COMPUTER, [] ++ [(i, j)], g').
Proof.
  apply (computerTurn_moves (F := fixedPoint) (R := lcg) 201 "E"%char midGame [] 1).
  - left. reflexivity.
  - reflexivity.
  - reflexivity.
  - lia.
  - change (mctsIterationsForDifficulty "E") with 200. lia.
Defined.

Lemma computerTurn'_moves_witness :
  exists i j g',
    In (i, j) allCells /\ get midGame i j = EMPTY /\
    computerTurn' (F := fixedPoint) (R := lcg) (Z.to_nat 10001) "E"%char midGame [] 1
    = Some (set midGame i j COMPUTER, [] ++ [(i, j)], g').
Proof.
  apply (computerTurn'_moves (F := fixedPoint) (R := lcg) (Z.to_nat 10001) "E"%char
           midGame [] 1).
  - apply fixedPoint_uct.
  - reflexivity.
  - reflexivity.
  - lia.
Defined.

Lemma playRound_ends_witness :
  playRound (F := fixedPoint) (R := lcg) 9 10 "2"%char "H"%char
            [Read 2 2; Read 1 1; Read 4 1; RowFails; Read 3 2; Read 1 3; Read 2 3] 1
  <> OutOfSteps.
Proof.
  apply (playRound_ends (F := fixedPoint) (R := lcg) 9 10 "2"%char "H"%char).
  - right. right. right. reflexivity.
  - lia.
  - lia.
  - change (mctsIterationsForDifficulty "H") with 0. lia.
Defined.

(** A round against minimax: the second and third attempt are refused
    (a taken cell, a row out of range), the fourth fails to read; the
    computer completes the left column. *)
Example playRound_run :
  playRound (F := fixedPoint) (R := lcg) 9 10 "2"%char "H"%char
            [Read 2 2; Read 1 1; Read 4 1; RowFails; Read 3 2; Read 1 3; Read 2 3] 1
  = GameOver (R := lcg) COMPUTER
      (mkBoard (mkRow COMPUTER COMPUTER PLAYER) (mkRow COMPUTER PLAYER PLAYER)
               (mkRow COMPUTER PLAYER EMPTY))
      [(1, 1); (2, 1); (0, 2); (1, 2)] [(0, 0); (0, 1); (2, 0); (1, 0)] [] 1.
Proof. reflexivity. Qed.

(** A round of two players in the second source file; the input ends
    with the game. *)
Example playRound'_run :
  playRound' (F := fixedPoint) (R := lcg) 9 10 "1"%char " "%char
             [Read 1 1; Read 2 1; Read 1 2; Read 2 2; Read 1 3] 1
  = GameOver (R := lcg) PLAYER
      (mkBoard (mkRow PLAYER PLAYER PLAYER) (mkRow COMPUTER COMPUTER EMPTY) emptyRow)
      [(0, 0); (0, 1); (0, 2)] [(1, 0); (1, 1)] [] 1.
Proof. reflexivity. Qed.

Lemma playRound'_ends_witness :
  playRound' (F := fixedPoint) (R := lcg) 9 (Z.to_nat 10001) "1"%char " "%char
             [Read 1 1; Read 2 1; Read 1 2; Read 2 2; Read 1 3] 1
  <> OutOfSteps.
Proof.
  apply (playRound'_ends (F := fixedPoint) (R := lcg) 9 (Z.to_nat 10001)).
  - apply fixedPoint_uct.
  - lia.
  - lia.
Defined.

Lemma runMCTS_files_agree_witness :
  exists mv g', runMCTS' (F := fixedPoint) (R := lcg) 60 midGame 50 1 = Some (mv, g').
Proof.
  destruct (runMCTS_files_agree (F := fixedPoint) (R := lcg) 60 midGame 50 1)
    as [_ Hrun].
  - apply fixedPoint_uct.
  - lia.
  - simpl. lia.
  - exact Hrun.
Defined.

(** The search of the second source file on the board of [runMCTS_midGame]. *)
Example runMCTS'_midGame :
  runMCTS' (F := fixedPoint) (R := lcg) 60 midGame 50 1 = Some ((1, 2), 684462146).
Proof. vm_compute. reflexivity. Qed.
